(** * parcount: five ways to count in parallel

    A shallow embedding of [parcount.cpp] and the properties of its
    command line, its five increment strategies and its trial runner.

    The program starts [t] threads five times over.  In each trial every
    thread spins on the atomic flag [start], then bumps a counter [i]
    times: unprotected, under a mutex, under a lock guard, with an atomic
    fetch-and-add, or in a private slot of a vector that [main] sums up
    afterwards.

    Threads are modelled as small state machines over a shared memory and
    the whole program as a machine driven by a schedule: a list naming,
    step after step, who runs next ([main] or one of the workers).  A
    statement about every execution is a statement about every schedule.
    [int] is a 32-bit two's complement integer: values live in [Z] and
    every counter update goes through [wrap]. *)

From stdpp Require Import base numbers list strings.
From Stdlib Require Import Ascii QArith.
From Stdlib Require DecimalString DecimalPos.
Local Open Scope Z_scope.

(** ** 32-bit [int] *)

Module Int32.

Definition modulus : Z := 2 ^ 32.
Definition INT_MAX : Z := 2 ^ 31 - 1.
Definition INT_MIN : Z := - 2 ^ 31.

(** The value an [int] holds after a computation whose mathematical
    result is [z]. *)
Definition wrap (z : Z) : Z := (z + 2 ^ 31) mod modulus - 2 ^ 31.

Definition is_int (z : Z) : Prop := INT_MIN ≤ z ≤ INT_MAX.

End Int32.

Import Int32.

(** ** The command line *)

Module Cli.

(** [atoi] of the C library: leading white space, an optional sign, then
    decimal digits up to the first character that is not one.  A text
    without digits gives 0.  The C standard leaves a value outside [int]
    undefined; here it wraps. *)
Definition isspace (a : ascii) : bool :=
  let n := nat_of_ascii a in
  ((n =? 32) || ((9 <=? n) && (n <=? 13)))%nat.

Definition isdigit (a : ascii) : bool :=
  let n := nat_of_ascii a in ((48 <=? n) && (n <=? 57))%nat.

Fixpoint skip_spaces (s : string) : string :=
  match s with
  | String a r => if isspace a then skip_spaces r else s
  | EmptyString => s
  end.

Fixpoint digits (acc : Z) (s : string) : Z :=
  match s with
  | String a r =>
      if isdigit a
      then digits (10 * acc + (Z.of_nat (nat_of_ascii a) - 48)) r
      else acc
  | EmptyString => acc
  end.

Definition atoi (s : string) : Z :=
  match skip_spaces s with
  | String "-"%char r => wrap (- digits 0 r)
  | String "+"%char r => wrap (digits 0 r)
  | r => wrap (digits 0 r)
  end.

(** [argv[k]]; the loop below never reads past the end. *)
Definition arg (argv : list string) (k : nat) : string :=
  default EmptyString (argv !! k).

(** The scanning loop of [main], lines 122-132.  [fuel] bounds the
    number of iterations; [length argv] is always enough since
    [argcIterator] grows in every iteration. *)
Fixpoint parse_loop (fuel : nat) (argv : list string)
    (argcIterator : nat) (t i : Z) : Z * Z :=
  match fuel with
  | O => (t, i)
  | S fuel =>
      let lastIndexToCheck := Z.of_nat (length argv) - 1 in
      if Z.of_nat argcIterator <? lastIndexToCheck then
        if String.eqb (arg argv argcIterator) "-t" then
          let argcIterator := (argcIterator + 1)%nat in
          parse_loop fuel argv (argcIterator + 1)%nat
            (atoi (arg argv argcIterator)) i
        else if String.eqb (arg argv argcIterator) "-i" then
          let argcIterator := (argcIterator + 1)%nat in
          parse_loop fuel argv (argcIterator + 1)%nat
            t (atoi (arg argv argcIterator))
        else parse_loop fuel argv (argcIterator + 1)%nat t i
      else (t, i)
  end.

(** Lines 108-109 and 122-132: the pair [(t, i)] that [main] works with. *)
Definition parse_args (argv : list string) : Z * Z :=
  parse_loop (length argv) argv 1 4 10000.

(** *** How the loop reads a command line

    The loop cuts the tokens after the program name into items: a flag
    with the token after it, or a single token that is no flag; the very
    last token is never looked at as a flag. *)
Inductive flag := FlagT | FlagI.

Definition flag_name (f : flag) : string :=
  match f with FlagT => "-t" | FlagI => "-i" end.

Definition is_flag (x : string) : bool :=
  String.eqb x "-t" || String.eqb x "-i".

Inductive item :=
| Given (f : flag) (value : string)
| Other (x : string).

Definition item_ok (it : item) : Prop :=
  match it with
  | Given _ _ => True
  | Other x => is_flag x = false
  end.

Definition tokens_of (it : item) : list string :=
  match it with
  | Given f v => [flag_name f; v]
  | Other x => [x]
  end.

Definition render (items : list item) : list string :=
  concat (map tokens_of items).

Definition gives (f : flag) (it : item) : bool :=
  match it, f with
  | Given FlagT _, FlagT | Given FlagI _, FlagI => true
  | _, _ => false
  end.

Definition trailing (last : option string) : list string :=
  match last with Some x => [x] | None => [] end.

(** The loop again, by recursion on the tokens after the program name. *)
Fixpoint scan (t i : Z) (tokens : list string) : Z * Z :=
  match tokens with
  | x :: ((y :: rest) as tl) =>
      if String.eqb x "-t" then scan (atoi y) i rest
      else if String.eqb x "-i" then scan t (atoi y) rest
      else scan t i tl
  | _ => (t, i)
  end.

Definition value_of (f : flag) (p : Z * Z) : Z :=
  match f with FlagT => p.1 | FlagI => p.2 end.

Definition default_of (f : flag) : Z :=
  match f with FlagT => 4 | FlagI => 10000 end.

(** What one item does to the pair [(t, i)]. *)
Definition apply_item (p : Z * Z) (it : item) : Z * Z :=
  match it with
  | Given FlagT v => (atoi v, p.2)
  | Given FlagI v => (p.1, atoi v)
  | Other _ => p
  end.

End Cli.

Import Cli.

(** ** Threads, memory and the program as a machine *)

Module Machine.

Inductive strategy :=
| RaceCondition | MutexLock | LockGuard | Atomic | LocalCounter.

Definition function_name (s : strategy) : string :=
  match s with
  | RaceCondition => "incrementiTimesRaceCondition"
  | MutexLock => "incrementiTimesMutexLock"
  | LockGuard => "incrementiTimesLockGuard"
  | Atomic => "incrementiTimesAtomic"
  | LocalCounter => "incrementiTimesLocalCounter"
  end.

(** What the threads share: the three globals of lines 9-11 and the two
    counters of [main] handed out by reference.  The mutex remembers
    which thread holds it. *)
Record memory := Memory {
  start : bool;
  sharedCounter_mtx : option nat;
  sharedCounter : Z;
  sharedCounterAtomic : Z;
  localCounterVector : list Z
}.

Definition set_start (b : bool) (m : memory) : memory :=
  Memory b (sharedCounter_mtx m) (sharedCounter m)
    (sharedCounterAtomic m) (localCounterVector m).
Definition set_mtx (o : option nat) (m : memory) : memory :=
  Memory (start m) o (sharedCounter m)
    (sharedCounterAtomic m) (localCounterVector m).
Definition set_sharedCounter (v : Z) (m : memory) : memory :=
  Memory (start m) (sharedCounter_mtx m) v
    (sharedCounterAtomic m) (localCounterVector m).
Definition set_sharedCounterAtomic (v : Z) (m : memory) : memory :=
  Memory (start m) (sharedCounter_mtx m) (sharedCounter m)
    v (localCounterVector m).
Definition set_localCounterVector (l : list Z) (m : memory) : memory :=
  Memory (start m) (sharedCounter_mtx m) (sharedCounter m)
    (sharedCounterAtomic m) l.

(** *** The five worker functions

    A worker is at one of these points of its function; the points of
    the loop carry [incrementCounter], and [AtStore] the value read by
    the first half of [++x] on a plain [int]. *)
Inductive point :=
| AtGate                                   (* while (!start.load()); *)
| AtLock                                   (* lock() or the guard's constructor *)
| AtTest (incrementCounter : Z)            (* incrementCounter < i *)
| AtLoad (incrementCounter : Z)            (* ++x: read x *)
| AtStore (incrementCounter : Z) (x : Z)   (* ++x: write x + 1 *)
| AtFetchAdd (incrementCounter : Z)        (* fetch_add(1, relaxed) *)
| AtUnlock                                 (* sharedCounter_mtx.unlock() *)
| AtScopeExit                              (* the guard's destructor *)
| Returned.

(** What a step of a worker shows to an observer. *)
Inductive action := Acquire | Increment | Release.

(** A step of a worker gives the new memory, the next point and what
    was observable; [None] when the worker cannot move (it waits for
    the mutex, or has returned).  [++incrementCounter] cannot overflow,
    as [incrementCounter < i]. *)
Definition outcome : Type := option (memory * point * option action).

(** Lines 25-30. *)
Definition incrementiTimesRaceCondition (i : Z) (m : memory) (p : point)
    : outcome :=
  match p with
  | AtGate => Some (m, if start m then AtTest 0 else AtGate, None)
  | AtTest k => Some (m, if k <? i then AtLoad k else Returned, None)
  | AtLoad k => Some (m, AtStore k (sharedCounter m), None)
  | AtStore k x =>
      Some (set_sharedCounter (wrap (x + 1)) m, AtTest (k + 1),
            Some Increment)
  | _ => None
  end.

(** Lines 43-50; [me] is the thread that runs the function. *)
Definition incrementiTimesMutexLock (me : nat) (i : Z) (m : memory)
    (p : point) : outcome :=
  match p with
  | AtGate => Some (m, if start m then AtLock else AtGate, None)
  | AtLock =>
      match sharedCounter_mtx m with
      | None => Some (set_mtx (Some me) m, AtTest 0, Some Acquire)
      | Some _ => None
      end
  | AtTest k => Some (m, if k <? i then AtLoad k else AtUnlock, None)
  | AtLoad k => Some (m, AtStore k (sharedCounter m), None)
  | AtStore k x =>
      Some (set_sharedCounter (wrap (x + 1)) m, AtTest (k + 1),
            Some Increment)
  | AtUnlock => Some (set_mtx None m, Returned, Some Release)
  | _ => None
  end.

(** Lines 64-70: the guard locks where it is declared and unlocks where
    its scope, the function body, ends. *)
Definition incrementiTimesLockGuard (me : nat) (i : Z) (m : memory)
    (p : point) : outcome :=
  match p with
  | AtGate => Some (m, if start m then AtLock else AtGate, None)
  | AtLock =>
      match sharedCounter_mtx m with
      | None => Some (set_mtx (Some me) m, AtTest 0, Some Acquire)
      | Some _ => None
      end
  | AtTest k => Some (m, if k <? i then AtLoad k else AtScopeExit, None)
  | AtLoad k => Some (m, AtStore k (sharedCounter m), None)
  | AtStore k x =>
      Some (set_sharedCounter (wrap (x + 1)) m, AtTest (k + 1),
            Some Increment)
  | AtScopeExit => Some (set_mtx None m, Returned, Some Release)
  | _ => None
  end.

(** Lines 83-88. *)
Definition incrementiTimesAtomic (i : Z) (m : memory) (p : point)
    : outcome :=
  match p with
  | AtGate => Some (m, if start m then AtTest 0 else AtGate, None)
  | AtTest k => Some (m, if k <? i then AtFetchAdd k else Returned, None)
  | AtFetchAdd k =>
      Some (set_sharedCounterAtomic (wrap (sharedCounterAtomic m + 1)) m,
            AtTest (k + 1), Some Increment)
  | _ => None
  end.

(** Lines 98-103.  Reading a slot that does not exist is undefined in
    C++; the model stops the worker there. *)
Definition incrementiTimesLocalCounter (iterator : Z) (i : Z) (m : memory)
    (p : point) : outcome :=
  match p with
  | AtGate => Some (m, if start m then AtTest 0 else AtGate, None)
  | AtTest k => Some (m, if k <? i then AtLoad k else Returned, None)
  | AtLoad k =>
      match localCounterVector m !! Z.to_nat iterator with
      | Some x => Some (m, AtStore k x, None)
      | None => None
      end
  | AtStore k x =>
      Some (set_localCounterVector
              (<[Z.to_nat iterator := wrap (x + 1)]> (localCounterVector m)) m,
            AtTest (k + 1), Some Increment)
  | _ => None
  end.

(** A [std::thread]: the function it was created with, the [iterator]
    handed to it by value (used by [LocalCounter] only) and where it is. *)
Record thread := Thread { fn : strategy; iterator : Z; pc : point }.

Definition thread_step (me : nat) (i : Z) (th : thread) (m : memory)
    : outcome :=
  match fn th with
  | RaceCondition => incrementiTimesRaceCondition i m (pc th)
  | MutexLock => incrementiTimesMutexLock me i m (pc th)
  | LockGuard => incrementiTimesLockGuard me i m (pc th)
  | Atomic => incrementiTimesAtomic i m (pc th)
  | LocalCounter => incrementiTimesLocalCounter (iterator th) i m (pc th)
  end.

(** *** [main] *)

(** Where [main] is inside one trial. *)
Inductive phase :=
| Spawning (iterator : Z)   (* the creation loop, before its test *)
| Pushed (iterator : Z)     (* LocalCounter: slot appended, thread not yet created *)
| StartClock                (* t1 = now() *)
| OpenGate                  (* start = true *)
| Joining (k : nat)         (* the join loop, at thread k *)
| Reducing                  (* LocalCounter: the summing loop *)
| StopClock                 (* t2 = now() *)
| Printing                  (* the line on std::cout *)
| Resetting.                (* counter, vectors and flag back to the start *)

(** What an observer sees: [main] appends a slot, creates thread [j],
    reads the clock, raises the flag (with the number of threads in the
    vector), has joined thread [j], sums the slots, reads the clock
    again, prints, resets; or worker [j] of trial [s] does something. *)
Inductive event :=
| EPush (s : strategy) (iterator : Z)
| ESpawn (s : strategy) (j : nat)
| EClockStart (s : strategy)
| EOpen (s : strategy) (spawned : nat)
| EJoin (s : strategy) (j : nat)
| EReduce (s : strategy)
| EClockEnd (s : strategy)
| EPrint (s : strategy)
| EReset (s : strategy)
| EDid (s : strategy) (j : nat) (a : action).

(** A line of the output: the header, or a trial's name, final counter
    value, number of threads and the [int] that is divided by the
    seconds, [counter * 1000].  The seconds themselves come from the
    clock and are not part of the model. *)
Inductive line :=
| Header (columns : list string)
| Row (name : string) (final : Z) (threads : Z) (times1000 : Z).

Definition header : line :=
  Header ["Function Name"; "Final Couter Value"; "Threads";
          "Increments/Millisecond"; "Seconds"].

Record config := Config {
  t : Z;                          (* main's t *)
  i : Z;                          (* main's i *)
  todo : list strategy;           (* the trials still to run, current first *)
  at_phase : phase;
  mem : memory;
  threadVector : list thread;
  out : list line;                (* std::cout, in printing order *)
  trace : list event              (* what happened, newest first *)
}.

Definition trials : list strategy :=
  [RaceCondition; MutexLock; LockGuard; Atomic; LocalCounter].

Definition fresh : memory := Memory false None 0 0 [].

(** [main] after line 134: arguments parsed, header printed. *)
Definition boot_with (prog : list strategy) (t i : Z) : config :=
  Config t i prog (Spawning 0) fresh [] [header] [].

Definition boot (t i : Z) : config := boot_with trials t i.

Definition main (argv : list string) : config :=
  let '(t, i) := parse_args argv in boot t i.

(** The counter a trial prints. *)
Definition observed (s : strategy) (m : memory) : Z :=
  match s with
  | Atomic => sharedCounterAtomic m
  | _ => sharedCounter m
  end.

(** [counter * 1000], an [int] times an [int]. *)
Definition times_1000 (counter : Z) : Z := wrap (counter * 1000).

(** The fourth column, [counter * 1000 / seconds]: the [int] product
    divided by the seconds the clock measured.  The quotient of doubles
    is taken as the quotient of rationals, its rounding left out. *)
Definition throughput (counter : Z) (seconds : Q) : Q :=
  (inject_Z (times_1000 counter) / seconds)%Q.

Definition report (s : strategy) (t : Z) (m : memory) : line :=
  Row (function_name s) (observed s m) t (times_1000 (observed s m)).

(** Lines 245-247. *)
Definition reduce (m : memory) : memory :=
  set_sharedCounter
    (fold_left (λ acc localCounter, wrap (acc + localCounter))
       (localCounterVector m) (sharedCounter m)) m.

(** The assignments that end a trial (the thread vector is cleared by
    [main_step]). *)
Definition reset (s : strategy) (m : memory) : memory :=
  match s with
  | Atomic => set_start false (set_sharedCounterAtomic 0 m)
  | LocalCounter =>
      set_start false (set_localCounterVector [] (set_sharedCounter 0 m))
  | _ => set_start false (set_sharedCounter 0 m)
  end.

Definition is_returned (th : thread) : bool :=
  match pc th with Returned => true | _ => false end.

Definition is_local (s : strategy) : bool :=
  match s with LocalCounter => true | _ => false end.

(** One step of [main] inside the block of trial [s] (lines 143-157,
    166-180, 189-203, 212-226 and 236-255; the blocks differ in the
    function, the counter, and for LocalCounter the slot and the sum).
    The creation loop takes a step per test and per statement of its
    body, so the workers created so far run in between; the join of a
    thread that has not returned leaves [main] where it is; the
    assignments after the printed line are one step, as no worker is
    left to see them apart.  [++iterator] cannot overflow, as
    [iterator < t]. *)
Definition main_step (c : config) : config :=
  match todo c with
  | [] => c
  | s :: rest =>
      let go ph m ths o evs :=
        Config (t c) (i c) (todo c) ph m ths o (evs ++ trace c) in
      match at_phase c with
      | Spawning k =>
          if k <? t c then
            if is_local s then
              go (Pushed k)
                (set_localCounterVector (localCounterVector (mem c) ++ [0])
                   (mem c))
                (threadVector c) (out c) [EPush s k]
            else
              go (Spawning (k + 1)) (mem c)
                (threadVector c ++ [Thread s 0 AtGate]) (out c)
                [ESpawn s (length (threadVector c))]
          else go StartClock (mem c) (threadVector c) (out c) []
      | Pushed k =>
          go (Spawning (k + 1)) (mem c)
            (threadVector c ++ [Thread s k AtGate]) (out c)
            [ESpawn s (length (threadVector c))]
      | StartClock =>
          go OpenGate (mem c) (threadVector c) (out c) [EClockStart s]
      | OpenGate =>
          go (Joining 0) (set_start true (mem c)) (threadVector c) (out c)
            [EOpen s (length (threadVector c))]
      | Joining k =>
          match threadVector c !! k with
          | Some th =>
              if is_returned th
              then go (Joining (S k)) (mem c) (threadVector c) (out c)
                     [EJoin s k]
              else c
          | None =>
              go (if is_local s then Reducing else StopClock)
                (mem c) (threadVector c) (out c) []
          end
      | Reducing =>
          go StopClock (reduce (mem c)) (threadVector c) (out c) [EReduce s]
      | StopClock =>
          go Printing (mem c) (threadVector c) (out c) [EClockEnd s]
      | Printing =>
          go Resetting (mem c) (threadVector c)
            (out c ++ [report s (t c) (mem c)]) [EPrint s]
      | Resetting =>
          Config (t c) (i c) rest (Spawning 0) (reset s (mem c)) [] (out c)
            (EReset s :: trace c)
      end
  end.

(** One step of the thread at index [j] of the vector, if there is one
    and it can move. *)
Definition worker_step (j : nat) (c : config) : config :=
  match threadVector c !! j with
  | Some th =>
      match thread_step j (i c) th (mem c) with
      | Some (m, p, a) =>
          Config (t c) (i c) (todo c) (at_phase c) m
            (<[j := Thread (fn th) (iterator th) p]> (threadVector c))
            (out c)
            (match a with
             | Some a => EDid (fn th) j a :: trace c
             | None => trace c
             end)
      | None => c
      end
  | None => c
  end.

(** Who runs next. *)
Inductive actor := Main | Worker (j : nat).

Definition step (a : actor) (c : config) : config :=
  match a with
  | Main => main_step c
  | Worker j => worker_step j c
  end.

(** An execution: the steps of a schedule, one after the other.  A step
    of someone who cannot move changes nothing. *)
Definition run (schedule : list actor) (c : config) : config :=
  fold_left (λ c a, step a c) schedule c.

Definition exited (c : config) : Prop := todo c = [].

(** What happened, oldest first. *)
Definition history (c : config) : list event := rev (trace c).

#[global] Instance action_eq_dec : EqDecision action.
Proof. solve_decision. Defined.
#[global] Instance strategy_eq_dec : EqDecision strategy.
Proof. solve_decision. Defined.
#[global] Instance point_eq_dec : EqDecision point.
Proof. solve_decision. Defined.
#[global] Instance event_eq_dec : EqDecision event.
Proof. solve_decision. Defined.

End Machine.

Import Machine.

(** ** What holds in every reachable configuration *)

Module Invariant.

(** The increments a worker at point [p] has completed. *)
Definition done_by (i : Z) (p : point) : Z :=
  match p with
  | AtGate | AtLock => 0
  | AtTest k | AtLoad k | AtStore k _ | AtFetchAdd k => k
  | AtUnlock | AtScopeExit | Returned => Z.max i 0
  end.

(** The increments all workers together have completed. *)
Definition total (i : Z) (ths : list thread) : Z :=
  foldr (λ th acc, done_by i (pc th) + acc) 0 ths.

(** The points the function of strategy [s] passes through, with the
    loop counter in its range. *)
Definition point_ok (s : strategy) (i : Z) (p : point) : Prop :=
  match p with
  | AtGate | Returned => True
  | AtLock => s = MutexLock ∨ s = LockGuard
  | AtTest k => 0 ≤ k ≤ Z.max i 0
  | AtLoad k | AtStore k _ => 0 ≤ k < i ∧ s ≠ Atomic
  | AtFetchAdd k => 0 ≤ k < i ∧ s = Atomic
  | AtUnlock => s = MutexLock
  | AtScopeExit => s = LockGuard
  end.

(** The points between taking and giving back the mutex. *)
Definition holds_lock (p : point) : bool :=
  match p with
  | AtTest _ | AtLoad _ | AtStore _ _ | AtUnlock | AtScopeExit => true
  | _ => false
  end.

Definition uses_mutex (s : strategy) : bool :=
  match s with MutexLock | LockGuard => true | _ => false end.

(** The mutex is held by exactly the worker inside its critical section. *)
Definition lock_ok (s : strategy) (m : memory) (ths : list thread) : Prop :=
  (∀ j th, ths !! j = Some th →
     (uses_mutex s && holds_lock (pc th) = true
      ↔ sharedCounter_mtx m = Some j)) ∧
  (∀ o, sharedCounter_mtx m = Some o → is_Some (ths !! o)).

(** [v] is what an [int] shows of some count between 0 and [n]. *)
Definition bounded (n v : Z) : Prop := ∃ c, 0 ≤ c ≤ n ∧ v = wrap c.

(** No increment was lost: the counter shows all of them, and a worker
    about to write has read the current value. *)
Definition exact (i : Z) (m : memory) (ths : list thread) : Prop :=
  sharedCounter m = wrap (total i ths) ∧
  ∀ j th k x, ths !! j = Some th → pc th = AtStore k x →
              x = sharedCounter m.

(** Increments may be lost but none is invented. *)
Definition racy (i : Z) (m : memory) (ths : list thread) : Prop :=
  bounded (total i ths) (sharedCounter m) ∧
  ∀ j th k x, ths !! j = Some th → pc th = AtStore k x →
              bounded (total i ths) x.

Definition slot_of (i : Z) (th : thread) : Z := wrap (done_by i (pc th)).

(** The slot appended for a thread that is not created yet. *)
Definition pending (ph : phase) : list Z :=
  match ph with Pushed _ => [0] | _ => [] end.

(** Every worker owns the slot of its index, which shows its count. *)
Definition slots_ok (i : Z) (ph : phase) (m : memory) (ths : list thread)
    : Prop :=
  localCounterVector m = (slot_of i <$> ths) ++ pending ph ∧
  ∀ j th, ths !! j = Some th →
    iterator th = Z.of_nat j ∧ ∀ k x, pc th = AtStore k x → x = wrap k.

Definition reduced (ph : phase) : bool :=
  match ph with StopClock | Printing | Resetting => true | _ => false end.

(** The counters and the vector in a trial of strategy [s]. *)
Definition counters_ok (s : strategy) (t i : Z) (ph : phase) (m : memory)
    (ths : list thread) : Prop :=
  match s with
  | RaceCondition =>
      racy i m ths ∧ (t ≤ 1 → exact i m ths) ∧
      sharedCounterAtomic m = 0 ∧ localCounterVector m = []
  | MutexLock | LockGuard =>
      exact i m ths ∧
      sharedCounterAtomic m = 0 ∧ localCounterVector m = []
  | Atomic =>
      sharedCounterAtomic m = wrap (total i ths) ∧
      sharedCounter m = 0 ∧ localCounterVector m = []
  | LocalCounter =>
      slots_ok i ph m ths ∧
      sharedCounter m = (if reduced ph then wrap (total i ths) else 0) ∧
      sharedCounterAtomic m = 0
  end.

Definition all_returned (ths : list thread) : Prop :=
  Forall (λ th, pc th = Returned) ths.

Definition spawned (t : Z) (ths : list thread) : Prop :=
  Z.of_nat (length ths) = Z.max t 0.

(** Where [main] is tells the flag, the number of threads and which of
    them have returned. *)
Definition shape (s : strategy) (t : Z) (ph : phase) (m : memory)
    (ths : list thread) : Prop :=
  match ph with
  | Spawning k =>
      start m = false ∧ k = Z.of_nat (length ths) ∧ k ≤ Z.max t 0
  | Pushed k =>
      start m = false ∧ k = Z.of_nat (length ths) ∧ k < t ∧
      s = LocalCounter
  | StartClock | OpenGate => start m = false ∧ spawned t ths
  | Joining k =>
      start m = true ∧ spawned t ths ∧ (k ≤ length ths)%nat ∧
      ∀ j th, (j < k)%nat → ths !! j = Some th → pc th = Returned
  | Reducing =>
      start m = true ∧ spawned t ths ∧ all_returned ths ∧
      s = LocalCounter
  | StopClock | Printing | Resetting =>
      start m = true ∧ spawned t ths ∧ all_returned ths
  end.

Definition threads_ok (s : strategy) (i : Z) (m : memory)
    (ths : list thread) : Prop :=
  Forall (λ th, fn th = s ∧ point_ok s i (pc th)) ths ∧
  (start m = false → Forall (λ th, pc th = AtGate) ths).

Record trial_ok (s : strategy) (c : config) : Prop := TrialOk {
  ok_shape : shape s (t c) (at_phase c) (mem c) (threadVector c);
  ok_threads : threads_ok s (i c) (mem c) (threadVector c);
  ok_lock : lock_ok s (mem c) (threadVector c);
  ok_counters :
    counters_ok s (t c) (i c) (at_phase c) (mem c) (threadVector c)
}.

(** The value a trial of [t] workers and [i] rounds may print. *)
Definition final_ok (s : strategy) (t i v : Z) : Prop :=
  match s with
  | RaceCondition =>
      bounded (Z.max t 0 * Z.max i 0) v ∧
      (t ≤ 1 → v = wrap (Z.max t 0 * Z.max i 0))
  | _ => v = wrap (Z.max t 0 * Z.max i 0)
  end.

Definition row_ok (t i : Z) (s : strategy) (l : line) : Prop :=
  match l with
  | Header _ => False
  | Row name final threads times1000 =>
      name = function_name s ∧ threads = t ∧
      times1000 = times_1000 final ∧ final_ok s t i final
  end.

(** The trials whose line is on the output. *)
Definition printed (done : list strategy) (c : config) : list strategy :=
  match todo c, at_phase c with
  | s :: _, Resetting => done ++ [s]
  | _, _ => done
  end.

Record inv (prog : list strategy) (t0 i0 : Z) (c : config) : Prop := Inv {
  inv_t : t c = t0;
  inv_i : i c = i0;
  inv_out : ∃ done rows,
    prog = done ++ todo c ∧ out c = header :: rows ∧
    Forall2 (row_ok t0 i0) (printed done c) rows;
  inv_trial :
    match todo c with
    | s :: _ => trial_ok s c
    | [] => at_phase c = Spawning 0 ∧ mem c = fresh ∧ threadVector c = []
    end
}.

End Invariant.

Import Invariant.

(** ** The moves of a worker *)

Module Moves.

Definition uses_atomic (s : strategy) : bool :=
  match s with Atomic => true | _ => false end.

Definition is_plain (s : strategy) : bool :=
  match s with RaceCondition | MutexLock | LockGuard => true | _ => false end.

(** The moves of a worker of strategy [s], whatever its function. *)
Inductive move (s : strategy) (me : nat) (i it : Z) (m : memory)
    : point → memory → point → option action → Prop :=
| MvWait :
    start m = false → move s me i it m AtGate m AtGate None
| MvPass :
    start m = true →
    move s me i it m AtGate m (if uses_mutex s then AtLock else AtTest 0) None
| MvAcquire :
    uses_mutex s = true → sharedCounter_mtx m = None →
    move s me i it m AtLock (set_mtx (Some me) m) (AtTest 0) (Some Acquire)
| MvEnter k :
    0 ≤ k < i →
    move s me i it m (AtTest k) m
      (match s with Atomic => AtFetchAdd k | _ => AtLoad k end) None
| MvLeave k :
    k = Z.max i 0 →
    move s me i it m (AtTest k) m
      (match s with
       | MutexLock => AtUnlock | LockGuard => AtScopeExit | _ => Returned
       end) None
| MvLoad k x :
    0 ≤ k < i → s ≠ Atomic →
    (if is_local s then localCounterVector m !! Z.to_nat it = Some x
     else x = sharedCounter m) →
    move s me i it m (AtLoad k) m (AtStore k x) None
| MvStore k x :
    0 ≤ k < i → s ≠ Atomic →
    move s me i it m (AtStore k x)
      (if is_local s
       then set_localCounterVector
              (<[Z.to_nat it := wrap (x + 1)]> (localCounterVector m)) m
       else set_sharedCounter (wrap (x + 1)) m)
      (AtTest (k + 1)) (Some Increment)
| MvFetchAdd k :
    0 ≤ k < i → s = Atomic →
    move s me i it m (AtFetchAdd k)
      (set_sharedCounterAtomic (wrap (sharedCounterAtomic m + 1)) m)
      (AtTest (k + 1)) (Some Increment)
| MvRelease p :
    uses_mutex s = true → p = AtUnlock ∨ p = AtScopeExit →
    move s me i it m p (set_mtx None m) Returned (Some Release).

End Moves.

Import Moves.

(** ** How far the program is from its end *)

Module Measure.

(** The steps of the loop body and of what follows the loop. *)
Definition body (s : strategy) : Z := if uses_atomic s then 2 else 3.
Definition after_loop (s : strategy) : Z := if uses_mutex s then 2 else 1.

(** The steps a worker at [p] still takes once the flag is up. *)
Definition left (s : strategy) (i : Z) (p : point) : Z :=
  let n := Z.max i 0 in
  match p with
  | AtGate => (if uses_mutex s then 2 else 1) + body s * n + after_loop s
  | AtLock => 1 + body s * n + after_loop s
  | AtTest k => body s * (n - k) + after_loop s
  | AtLoad k => body s * (n - k) - 1 + after_loop s
  | AtStore k _ | AtFetchAdd k => body s * (n - k) - (body s - 1) + after_loop s
  | AtUnlock | AtScopeExit => 1
  | Returned => 0
  end.

Definition left_all (s : strategy) (i : Z) (ths : list thread) : Z :=
  foldr (λ th acc, left s i (pc th) + acc) 0 ths.

(** The steps [main] still takes in a trial, with those of the workers
    it has not created yet. *)
Definition main_left (s : strategy) (t i : Z) (ph : phase) : Z :=
  let w := Z.max t 0 in
  let per_thread := (if is_local s then 2 else 1) + left s i AtGate in
  let after_join := (if is_local s then 1 else 0) + 3 in
  match ph with
  | Spawning k => (w - k) * per_thread + 1 + (2 + w + 1 + after_join)
  | Pushed k => (w - k) * per_thread + (2 + w + 1 + after_join)
  | StartClock => 2 + w + 1 + after_join
  | OpenGate => 1 + w + 1 + after_join
  | Joining k => (w - Z.of_nat k) + 1 + after_join
  | Reducing => 4
  | StopClock => 3
  | Printing => 2
  | Resetting => 1
  end.

Definition trial_cost (t i : Z) (s : strategy) : Z :=
  main_left s t i (Spawning 0).

Definition later (t i : Z) (rest : list strategy) : Z :=
  foldr (λ s acc, trial_cost t i s + acc) 0 rest.

(** The steps the whole program still takes. *)
Definition measure (c : config) : Z :=
  match todo c with
  | [] => 0
  | s :: rest =>
      left_all s (i c) (threadVector c)
      + main_left s (t c) (i c) (at_phase c)
      + later (t c) (i c) rest
  end.

End Measure.

Import Measure.

(** ** What the trace tells *)

Module History.

(** The events of [main]; the others are those of the workers. *)
Definition by_main (e : event) : bool :=
  match e with EDid _ _ _ => false | _ => true end.

Definition strategy_of (e : event) : strategy :=
  match e with
  | EPush s _ | ESpawn s _ | EClockStart s | EOpen s _ | EJoin s _
  | EReduce s | EClockEnd s | EPrint s | EReset s | EDid s _ _ => s
  end.

(** The newest event of [main] in a trace. *)
Fixpoint last_main (tr : list event) : option event :=
  match tr with
  | [] => None
  | e :: earlier => if by_main e then Some e else last_main earlier
  end.

(** Whether the flag is up after the events of a trace. *)
Fixpoint gate_open (tr : list event) : bool :=
  match tr with
  | [] => false
  | EOpen _ _ :: _ => true
  | EReset _ :: _ => false
  | _ :: earlier => gate_open earlier
  end.

(** Who holds the mutex after the events of a trace. *)
Fixpoint holder (tr : list event) : option nat :=
  match tr with
  | [] => None
  | EDid _ j Acquire :: _ => Some j
  | EDid _ _ Release :: _ => None
  | _ :: earlier => holder earlier
  end.

(** The increments since the mutex was last taken. *)
Fixpoint held_increments (tr : list event) : Z :=
  match tr with
  | [] => 0
  | EDid _ _ Acquire :: _ => 0
  | EDid _ _ Increment :: earlier => held_increments earlier + 1
  | _ :: earlier => held_increments earlier
  end.

Fixpoint count (f : event → bool) (tr : list event) : nat :=
  match tr with
  | [] => 0
  | e :: earlier => (if f e then 1 else 0) + count f earlier
  end.

Definition is_spawn (s : strategy) (e : event) : bool :=
  match e with ESpawn s' _ => bool_decide (s' = s) | _ => false end.

Definition is_push (s : strategy) (e : event) : bool :=
  match e with EPush s' _ => bool_decide (s' = s) | _ => false end.

Definition is_open (s : strategy) (e : event) : bool :=
  match e with EOpen s' _ => bool_decide (s' = s) | _ => false end.

(** Whether worker [j] of trial [s] has taken the mutex. *)
Definition acquired (s : strategy) (j : nat) (tr : list event) : bool :=
  existsb (λ e, bool_decide (e = EDid s j Acquire)) tr.

Arguments acquired : simpl never.

(** The event that ends the join loop of a trial: the join of the last
    worker, or the raising of the flag when there is no worker. *)
Definition joined (t : Z) (s : strategy) (e : event) : Prop :=
  (1 ≤ t ∧ e = EJoin s (Z.to_nat t - 1)) ∨ (t ≤ 0 ∧ e = EOpen s 0).

(** What holds of an event, given the events before it. *)
Definition event_ok (t i : Z) (e : event) (earlier : list event) : Prop :=
  match e with
  | EDid s j Increment =>
      gate_open earlier = true ∧ count (is_open s) earlier = 1%nat ∧
      (uses_mutex s = true → holder earlier = Some j)
  | EDid s j Acquire =>
      gate_open earlier = true ∧ holder earlier = None ∧
      acquired s j earlier = false
  | EDid s j Release =>
      holder earlier = Some j ∧ held_increments earlier = Z.max i 0
  | EPush s k =>
      gate_open earlier = false ∧ count (is_open s) earlier = 0%nat ∧
      k = Z.of_nat (count (is_push s) earlier) ∧
      count (is_spawn s) earlier = count (is_push s) earlier
  | ESpawn s j =>
      gate_open earlier = false ∧ count (is_open s) earlier = 0%nat ∧
      j = count (is_spawn s) earlier ∧
      (is_local s = true → last_main earlier = Some (EPush s (Z.of_nat j)))
  | EOpen s n =>
      gate_open earlier = false ∧ count (is_open s) earlier = 0%nat ∧
      Z.of_nat n = Z.max t 0 ∧ count (is_spawn s) earlier = n ∧
      (is_local s = true → count (is_push s) earlier = n)
  | EReduce s =>
      ∃ e', last_main earlier = Some e' ∧ joined t s e'
  | EClockEnd s =>
      ∃ e', last_main earlier = Some e' ∧
            if is_local s then e' = EReduce s else joined t s e'
  | _ => True
  end.

Fixpoint history_ok (t i : Z) (tr : list event) : Prop :=
  match tr with
  | [] => True
  | e :: earlier => event_ok t i e earlier ∧ history_ok t i earlier
  end.

Definition unseen (s : strategy) (tr : list event) : Prop :=
  Forall (λ e, strategy_of e ≠ s) tr.

(** What the newest event of [main] is, by where [main] is. *)
Definition recent (s : strategy) (t : Z) (ph : phase) (n : nat)
    (e : option event) : Prop :=
  match ph with
  | Pushed k => e = Some (EPush s k)
  | Joining k =>
      e = Some (match k with O => EOpen s n | S k' => EJoin s k' end)
  | Reducing => ∃ e', e = Some e' ∧ joined t s e'
  | StopClock =>
      ∃ e', e = Some e' ∧ if is_local s then e' = EReduce s else joined t s e'
  | _ => True
  end.

Record trace_trial (s : strategy) (c : config) : Prop := TraceTrial {
  tt_spawns : count (is_spawn s) (trace c) = length (threadVector c);
  tt_opens :
    count (is_open s) (trace c) = if start (mem c) then 1%nat else 0%nat;
  tt_pushes :
    is_local s = true →
    count (is_push s) (trace c) = length (localCounterVector (mem c));
  tt_acquired : ∀ j,
    (∀ th, threadVector c !! j = Some th → pc th = AtGate ∨ pc th = AtLock) →
    acquired s j (trace c) = false;
  tt_recent :
    recent s (t c) (at_phase c) (length (threadVector c))
      (last_main (trace c))
}.

Record trace_ok (c : config) : Prop := TraceOk {
  to_nodup : NoDup (todo c);
  to_gate : gate_open (trace c) = start (mem c);
  to_holder : holder (trace c) = sharedCounter_mtx (mem c);
  to_held : ∀ o th,
    sharedCounter_mtx (mem c) = Some o → threadVector c !! o = Some th →
    held_increments (trace c) = done_by (i c) (pc th);
  to_unseen : ∀ s, s ∈ tail (todo c) → unseen s (trace c);
  to_events : history_ok (t c) (i c) (trace c);
  to_trial : match todo c with [] => True | s :: _ => trace_trial s c end
}.

(** The trace after a move of worker [j] of trial [s]. *)
Definition extend (s : strategy) (j : nat) (a : option action)
    (tr : list event) : list event :=
  match a with Some a => EDid s j a :: tr | None => tr end.

End History.

Import History.

(** ** MutexLock and LockGuard exchanged *)

Module Exchange.

(** Exchanging the explicit [unlock()] and the guard's destructor, the two
    functions, their names, and with them whole configurations. *)
Definition swap_point (p : point) : point :=
  match p with
  | AtUnlock => AtScopeExit
  | AtScopeExit => AtUnlock
  | p => p
  end.

Definition swap_strategy (s : strategy) : strategy :=
  match s with
  | MutexLock => LockGuard
  | LockGuard => MutexLock
  | s => s
  end.

Definition swap_outcome (r : outcome) : outcome :=
  match r with
  | Some (m, p, a) => Some (m, swap_point p, a)
  | None => None
  end.

Definition swap_thread (th : thread) : thread :=
  Thread (swap_strategy (fn th)) (iterator th) (swap_point (pc th)).

Definition swap_event (e : event) : event :=
  match e with
  | EPush s k => EPush (swap_strategy s) k
  | ESpawn s j => ESpawn (swap_strategy s) j
  | EClockStart s => EClockStart (swap_strategy s)
  | EOpen s n => EOpen (swap_strategy s) n
  | EJoin s j => EJoin (swap_strategy s) j
  | EReduce s => EReduce (swap_strategy s)
  | EClockEnd s => EClockEnd (swap_strategy s)
  | EPrint s => EPrint (swap_strategy s)
  | EReset s => EReset (swap_strategy s)
  | EDid s j a => EDid (swap_strategy s) j a
  end.

Definition swap_name (name : string) : string :=
  if String.eqb name (function_name MutexLock) then function_name LockGuard
  else if String.eqb name (function_name LockGuard)
       then function_name MutexLock
       else name.

Definition swap_line (l : line) : line :=
  match l with
  | Header columns => Header columns
  | Row name final threads times1000 =>
      Row (swap_name name) final threads times1000
  end.

Definition swap_config (c : config) : config :=
  Config (t c) (i c) (swap_strategy <$> todo c) (at_phase c) (mem c)
    (swap_thread <$> threadVector c) (swap_line <$> out c)
    (swap_event <$> trace c).

End Exchange.

Import Exchange.

(** ** Two schedules to try things on *)

Module Orders.

(** A schedule that lets one worker run the whole program, and one that
    lets two workers run it, each in blocks: [main] first, then the
    workers one after the other. *)
Definition solo : list actor :=
  concat (repeat (repeat Main 6 ++ repeat (Worker 0) 7) 11).

Definition duo : list actor :=
  concat (repeat (repeat Main 8 ++ repeat (Worker 0) 7
                    ++ repeat (Worker 1) 7) 11).

End Orders.

Import Orders.

(** ** The command line, read with care *)

Module Argv.

(** The loop of lines 122-132 once more, reading [argv] through a lookup
    that fails outside [argv[0] .. argv[argc - 1]]: the result is [None]
    when the loop reads past the end of the vector, or when the fuel
    runs out before the loop ends. *)
Fixpoint parse_loop_checked (fuel : nat) (argv : list string)
    (argcIterator : nat) (t i : Z) : option (Z * Z) :=
  match fuel with
  | O => None
  | S fuel =>
      let lastIndexToCheck := Z.of_nat (length argv) - 1 in
      if Z.of_nat argcIterator <? lastIndexToCheck then
        x ← argv !! argcIterator;
        if String.eqb x "-t" then
          let argcIterator := (argcIterator + 1)%nat in
          v ← argv !! argcIterator;
          parse_loop_checked fuel argv (argcIterator + 1)%nat (atoi v) i
        else if String.eqb x "-i" then
          let argcIterator := (argcIterator + 1)%nat in
          v ← argv !! argcIterator;
          parse_loop_checked fuel argv (argcIterator + 1)%nat t (atoi v)
        else parse_loop_checked fuel argv (argcIterator + 1)%nat t i
      else Some (t, i)
  end.

(** The decimal numeral of [n] as the Standard Library writes it:
    ["0"], ["42"], ["-7"]. *)
Definition numeral (n : Z) : string :=
  DecimalString.NilZero.string_of_int (Z.to_int n).

(** A text at which a run of digits ends: the empty text, or one that
    begins with a character that is no digit. *)
Definition stops (rest : string) : Prop :=
  match rest with
  | String a _ => isdigit a = false
  | EmptyString => True
  end.

End Argv.

Import Argv.

(** ** Steps and the events they add *)

Module Events.

(** The event a step of [main] adds to the trace, if any. *)
Definition main_event (c : config) : option event :=
  match todo c with
  | [] => None
  | s :: _ =>
      match at_phase c with
      | Spawning k =>
          if k <? t c then
            if is_local s then Some (EPush s k)
            else Some (ESpawn s (length (threadVector c)))
          else None
      | Pushed k => Some (ESpawn s (length (threadVector c)))
      | StartClock => Some (EClockStart s)
      | OpenGate => Some (EOpen s (length (threadVector c)))
      | Joining k =>
          match threadVector c !! k with
          | Some th => if is_returned th then Some (EJoin s k) else None
          | None => None
          end
      | Reducing => Some (EReduce s)
      | StopClock => Some (EClockEnd s)
      | Printing => Some (EPrint s)
      | Resetting => Some (EReset s)
      end
  end.

(** The event a step of worker [j] adds to the trace, if any. *)
Definition worker_event (j : nat) (c : config) : option event :=
  match threadVector c !! j with
  | Some th =>
      match thread_step j (i c) th (mem c) with
      | Some (_, _, Some a) => Some (EDid (fn th) j a)
      | _ => None
      end
  | None => None
  end.

Definition event_of (a : actor) (c : config) : option event :=
  match a with
  | Main => main_event c
  | Worker j => worker_event j c
  end.

(** With [main] about to raise the flag, its newest event is the
    reading of the clock. *)
Definition clock_read (c : config) : Prop :=
  at_phase c = OpenGate →
  ∃ s rest, todo c = s :: rest ∧ last_main (trace c) = Some (EClockStart s).

Definition is_increment (s : strategy) (j : nat) (e : event) : bool :=
  bool_decide (e = EDid s j Increment).

(** The trace shows as many increments of a worker of the current trial
    as the worker has completed. *)
Definition counted (c : config) : Prop :=
  ∀ s rest j, todo c = s :: rest →
    Z.of_nat (count (is_increment s j) (trace c))
    = match threadVector c !! j with
      | Some th => done_by (i c) (pc th)
      | None => 0
      end.

(** The increments of all workers of trial [s]. *)
Definition is_increment_of (s : strategy) (e : event) : bool :=
  match e with
  | EDid s' _ Increment => bool_decide (s' = s)
  | _ => false
  end.

(** The trace shows as many increments of the current trial as its
    workers together have completed. *)
Definition tallied (c : config) : Prop :=
  ∀ s rest, todo c = s :: rest →
    Z.of_nat (count (is_increment_of s) (trace c))
    = total (i c) (threadVector c).

End Events.

Import Events.

(** ** Counting the work *)

Module Work.

#[global] Instance memory_eq_dec : EqDecision memory.
Proof. solve_decision. Defined.
#[global] Instance thread_eq_dec : EqDecision thread.
Proof. solve_decision. Defined.
#[global] Instance phase_eq_dec : EqDecision phase.
Proof. solve_decision. Defined.
#[global] Instance line_eq_dec : EqDecision line.
Proof. solve_decision. Defined.
#[global] Instance config_eq_dec : EqDecision config.
Proof. solve_decision. Defined.

(** The steps of a schedule that change the configuration; the others
    are those of an actor that is blocked, spins at the closed gate or
    does not exist. *)
Fixpoint moves (schedule : list actor) (c : config) : nat :=
  match schedule with
  | [] => 0
  | a :: schedule =>
      (if decide (step a c = c) then 0 else 1) + moves schedule (step a c)
  end.

(** A stretch of a schedule in which [main] and each of the first [n]
    workers get a turn. *)
Definition fair (n : nat) (segment : list actor) : Prop :=
  Main ∈ segment ∧ ∀ j, (j < n)%nat → Worker j ∈ segment.

(** Where a worker at [p] and the memory are after a step with outcome
    [r]: a worker that cannot move stays. *)
Definition after (r : outcome) (m : memory) (p : point) : memory * point :=
  match r with
  | Some (m', p', _) => (m', p')
  | None => (m, p)
  end.

(** The lines of the trials [ss] that ended with the counter values
    [vs]. *)
Definition rows (t : Z) (ss : list strategy) (vs : list Z) : list line :=
  zip_with (λ s v, Row (function_name s) v t (times_1000 v)) ss vs.

(** The RaceCondition trial keeps at least one increment: once a worker
    has completed an increment the counter is at least 1, and so is the
    counter value on a line of the trial. *)
Definition kept (c : config) : Prop :=
  (∀ rest, todo c = RaceCondition :: rest →
     1 ≤ total (i c) (threadVector c) → 1 ≤ sharedCounter (mem c)) ∧
  (∀ v th n, Row (function_name RaceCondition) v th n ∈ out c → 1 ≤ v).

(** Two configurations in the same trial that differ at most in the
    trials still to come, the output and the trace. *)
Definition same_trial (s : strategy) (c c' : config) : Prop :=
  (∃ rest, todo c = s :: rest) ∧ (∃ rest', todo c' = s :: rest') ∧
  t c' = t c ∧ i c' = i c ∧ at_phase c' = at_phase c ∧ mem c' = mem c ∧
  threadVector c' = threadVector c.

End Work.

Import Work.

(** ** Workers side by side *)

Module Lockstep.

(** Every worker of the vector takes one step, in the order of the
    vector. *)
Definition sweep (n : nat) : list actor := Worker <$> seq 0 n.

(** The workers pass the gate together, go through [rounds] rounds of
    the loop side by side (all test, all read, all write) and leave the
    loop together. *)
Definition lockstep (n rounds : nat) : list actor :=
  sweep n ++ concat (repeat (sweep n ++ sweep n ++ sweep n) rounds)
  ++ sweep n.

(** A whole trial of [n] workers in lockstep: [main] creates them, takes
    the time and raises the flag, the workers run, [main] joins them,
    takes the time and prints. *)
Definition race_in_lockstep (n rounds : nat) : list actor :=
  repeat Main (n + 3) ++ lockstep n rounds ++ repeat Main (n + 3).

End Lockstep.

Import Lockstep.

(** ** A worker on its own *)

Module Sequential.

(** One worker running with nobody else touching the memory: up to
    [steps] steps of thread [me], giving the memory and the thread at the
    end and what the worker did, in order.  A worker that cannot move
    stays where it is. *)
Fixpoint run_worker (steps : nat) (me : nat) (i : Z) (th : thread)
    (m : memory) : memory * thread * list action :=
  match steps with
  | O => (m, th, [])
  | S steps =>
      match thread_step me i th m with
      | Some (m', p, a) =>
          let '(m'', th', did) :=
            run_worker steps me i (Thread (fn th) (iterator th) p) m' in
          (m'', th', match a with Some a => a :: did | None => did end)
      | None => (m, th, [])
      end
  end.

End Sequential.

Import Sequential.

(** ** Facts about [wrap] *)

Module Int32Facts.

Lemma wrap_range z : is_int (wrap z).
Proof.
  unfold is_int, wrap, INT_MIN, INT_MAX, modulus.
  pose proof (Z.mod_pos_bound (z + 2 ^ 31) (2 ^ 32)). lia.
Qed.

Lemma wrap_small z : is_int z → wrap z = z.
Proof.
  unfold is_int, wrap, INT_MIN, INT_MAX, modulus. intros Hz.
  rewrite Z.mod_small; lia.
Qed.

Lemma wrap_add_l a b : wrap (wrap a + b) = wrap (a + b).
Proof.
  unfold wrap, modulus.
  replace ((a + 2 ^ 31) `mod` 2 ^ 32 - 2 ^ 31 + b + 2 ^ 31)
    with ((a + 2 ^ 31) `mod` 2 ^ 32 + b) by lia.
  rewrite Zplus_mod_idemp_l. do 2 f_equal. lia.
Qed.

Lemma wrap_add_r a b : wrap (a + wrap b) = wrap (a + b).
Proof. rewrite (Z.add_comm a), wrap_add_l. f_equal. lia. Qed.

(** Wrapping never makes a number from [INT_MIN] upwards larger. *)
Lemma wrap_le z : INT_MIN ≤ z → wrap z ≤ z.
Proof.
  unfold wrap, INT_MIN, modulus. intros Hz.
  pose proof (Z.mod_le (z + 2 ^ 31) (2 ^ 32)). lia.
Qed.

Lemma wrap_0 : wrap 0 = 0.
Proof. reflexivity. Qed.

End Int32Facts.

Import Int32Facts.

(** ** The command line: proofs *)

Module CliFacts.

Lemma arg_drop argv k n :
  arg argv (k + n) = default EmptyString (drop k argv !! n).
Proof. unfold arg. by rewrite lookup_drop. Qed.

(** The loop with enough fuel follows [scan] on the rest of [argv]. *)
Lemma parse_loop_scan fuel : ∀ argv k t i,
  (length argv - k ≤ fuel)%nat →
  parse_loop fuel argv k t i = scan t i (drop k argv).
Proof.
  induction fuel as [|fuel IH]; intros argv k t i Hfuel.
  - assert (Hd : drop k argv = []) by (apply drop_ge; lia).
    by rewrite Hd.
  - simpl.
    pose proof (length_drop argv k) as Hlen.
    pose proof (arg_drop argv k 0) as H0.
    pose proof (arg_drop argv k 1) as H1.
    rewrite Nat.add_0_r in H0.
    destruct (drop k argv) as [|x [|y rest]] eqn:Hd; simpl in *.
    + case_match; [lia | done].
    + case_match; [lia | done].
    + assert (Hrest : drop (k + 1 + 1) argv = rest).
      { replace (k + 1 + 1)%nat with (k + 2)%nat by lia.
        by rewrite <- drop_drop, Hd. }
      assert (Htl : drop (k + 1) argv = y :: rest).
      {           by rewrite <- drop_drop, Hd. }
      case_match; [|lia].
      rewrite H0, H1.
      destruct (String.eqb x "-t").
      { rewrite IH by lia. by rewrite Hrest. }
      destruct (String.eqb x "-i").
      { rewrite IH by lia. by rewrite Hrest. }
      rewrite IH by lia. by rewrite Htl.
Qed.

Lemma parse_args_scan prog tokens :
  parse_args (prog :: tokens) = scan 4 10000 tokens.
Proof.
  unfold parse_args. rewrite parse_loop_scan by (simpl; lia). done.
Qed.

Lemma scan_given t i f v rest :
  scan t i (flag_name f :: v :: rest) = 
  let '(t', i') := apply_item (t, i) (Given f v) in scan t' i' rest.
Proof. by destruct f. Qed.

Lemma scan_other t i x y rest :
  is_flag x = false → scan t i (x :: y :: rest) = scan t i (y :: rest).
Proof.
  unfold is_flag. intros [Ht Hi]%orb_false_iff. simpl. by rewrite Ht, Hi.
Qed.

(** [scan] on a rendered command line applies the items one after the
    other; a token left over at the end changes nothing. *)
Lemma render_given f v items :
  render (Given f v :: items) = flag_name f :: v :: render items.
Proof. done. Qed.

Lemma render_other x items : render (Other x :: items) = x :: render items.
Proof. done. Qed.

Lemma scan_render items : ∀ t i last,
  Forall item_ok items →
  scan t i (render items ++ trailing last)
  = fold_left apply_item items (t, i).
Proof.
  induction items as [|it items IH]; intros t i last Hok.
  - by destruct last.
  - apply Forall_cons in Hok as [Hit Hok].
    destruct it as [f v|x].
    + rewrite render_given, <- !app_comm_cons, scan_given.
      destruct f; cbn [apply_item fold_left]; by rewrite IH.
    + rewrite render_other, <- app_comm_cons.
      cbn [fold_left apply_item]. rewrite <- (IH t i last) by done.
      destruct (render items ++ trailing last) as [|y rest] eqn:Htl.
      * apply app_eq_nil in Htl as [Hc Hl]. done.
      * by apply scan_other.
Qed.

Lemma fold_apply_keeps f post : ∀ p,
  forallb (λ it, negb (gives f it)) post = true →
  value_of f (fold_left apply_item post p) = value_of f p.
Proof.
  induction post as [|it post IH]; intros p Hno; [done|].
  simpl in Hno. apply andb_true_iff in Hno as [Hit Hno].
  simpl. rewrite IH by done.
  destruct it as [[] ?|?], f; simpl in *; done.
Qed.

(** A flag that no item gives keeps its default. *)
Lemma parse_args_default f prog items last :
  Forall item_ok items →
  forallb (λ it, negb (gives f it)) items = true →
  value_of f (parse_args (prog :: render items ++ trailing last))
  = default_of f.
Proof.
  intros Hok Hno. rewrite parse_args_scan, scan_render by done.
  rewrite fold_apply_keeps by done. by destruct f.
Qed.

(** Every command line is a rendered list of items and at most one
    token left over. *)
Lemma render_complete tokens :
  ∃ items last, Forall item_ok items ∧ tokens = render items ++ trailing last.
Proof.
  remember (length tokens) as n eqn:Hn.
  revert tokens Hn.
  induction n as [n IH] using lt_wf_ind. intros tokens Hn.
  destruct tokens as [|x [|y rest]].
  - by exists [], None.
  - by exists [], (Some x).
  - destruct (is_flag x) eqn:Hx.
    + destruct (IH (length rest)) with (tokens := rest)
        as (items & last & Hok & ->); [simpl in Hn; lia | done |].
      assert (∃ f, x = flag_name f) as [f ->].
      { unfold is_flag in Hx. apply orb_true_iff in Hx as [H|H];
          apply String.eqb_eq in H; [by exists FlagT | by exists FlagI]. }
      exists (Given f y :: items), last. split; [by constructor|done].
    + destruct (IH (length (y :: rest))) with (tokens := y :: rest)
        as (items & last & Hok & Heq); [simpl in *; lia | done |].
      exists (Other x :: items), last. split; [by constructor|].
      unfold render in *. simpl. by rewrite <- Heq.
Qed.

Lemma render_app xs ys : render (xs ++ ys) = render xs ++ render ys.
Proof. unfold render. by rewrite map_app, concat_app. Qed.

(** A command line ends in a complete item or in a flag without a value. *)
Lemma render_ends tokens :
  (∃ items, Forall item_ok items ∧ tokens = render items) ∨
  (∃ items g,
      Forall item_ok items ∧ tokens = render items ++ [flag_name g]).
Proof.
  destruct (render_complete tokens) as (items & [x|] & Hok & ->).
  - destruct (is_flag x) eqn:Hx.
    + right. exists items.
      assert (∃ g, x = flag_name g) as [g ->]; [|by exists g].
      unfold is_flag in Hx. apply orb_true_iff in Hx as [H|H];
        apply String.eqb_eq in H; [by exists FlagT | by exists FlagI].
    + left. exists (items ++ [Other x]). split.
      * apply Forall_app. split; [done|]. by repeat constructor.
      * by rewrite render_app.
  - left. exists items. simpl. by rewrite app_nil_r.
Qed.

Lemma atoi_flag_name f : atoi (flag_name f) = 0.
Proof. by destruct f. Qed.

(** C6.  Without a flag on the command line [t] is 4 and [i] is 10000;
    the value after the last [-t] (or [-i]) that the loop reads as a flag
    is the one that counts; a [-t] or [-i] that is the last token and
    that the loop reads as a flag changes nothing: the result is that of
    the line without it; a [-t] or [-i] that is the last token and
    follows a flag without a value is taken as the value of that flag,
    which becomes 0, the other one staying as it was; and every command
    line that ends in [-t] or [-i] is of one of these two kinds. *)
Theorem parse_args_flags :
  (∀ prog tokens,
      Forall (λ x, is_flag x = false) tokens →
      parse_args (prog :: tokens) = (4, 10000)) ∧
  (∀ f prog before v after last,
      Forall item_ok (before ++ Given f v :: after) →
      forallb (λ it, negb (gives f it)) after = true →
      value_of f
        (parse_args
           (prog :: render (before ++ Given f v :: after) ++ trailing last))
      = atoi v) ∧
  (∀ f prog items,
      Forall item_ok items →
      parse_args (prog :: render items ++ [flag_name f])
      = parse_args (prog :: render items)) ∧
  (∀ f g prog items,
      Forall item_ok items →
      parse_args (prog :: (render items ++ [flag_name g]) ++ [flag_name f])
      = match g with
        | FlagT => (0, (parse_args (prog :: render items)).2)
        | FlagI => ((parse_args (prog :: render items)).1, 0)
        end) ∧
  (∀ tokens,
      (∃ items, Forall item_ok items ∧ tokens = render items) ∨
      (∃ items g,
          Forall item_ok items ∧ tokens = render items ++ [flag_name g])).
Proof.
  split; [|split; [|split; [|split]]].
  - intros prog tokens Hno. rewrite parse_args_scan.
    generalize 4 10000.
    induction tokens as [|x [|y rest] IH]; intros t i; try done.
    apply Forall_cons in Hno as [Hx Hno].
    rewrite scan_other by done. by apply IH.
  - intros f prog before v after last Hok Hno.
    rewrite parse_args_scan, scan_render by done.
    rewrite fold_left_app. simpl.
    rewrite fold_apply_keeps by done.
    by destruct f.
  - intros f prog items Hok.
    rewrite !parse_args_scan.
    pose proof (scan_render items 4 10000 (Some (flag_name f)) Hok) as Hf.
    pose proof (scan_render items 4 10000 None Hok) as Hn.
    cbn [trailing] in Hf, Hn. rewrite app_nil_r in Hn. congruence.
  - intros f g prog items Hok.
    rewrite !parse_args_scan.
    assert (Forall item_ok (items ++ [Given g (flag_name f)])) as Hok'.
    { apply Forall_app. split; [done|]. by repeat constructor. }
    pose proof (scan_render _ 4 10000 None Hok') as Hc.
    pose proof (scan_render items 4 10000 None Hok) as Hn.
    cbn [trailing] in Hc, Hn. rewrite app_nil_r in Hc, Hn.
    rewrite render_app in Hc. unfold render at 2 in Hc. simpl in Hc.
    rewrite <- app_assoc. simpl. rewrite Hc, Hn, fold_left_app. simpl.
    rewrite atoi_flag_name. by destruct g.
  - apply render_ends.
Qed.

(** C6 as written fails: a [-t] that is the last token is not ignored
    when the token before it is read as a flag.  [parcount -t -t] gives
    [t = 0], not the default 4 of [parcount -t]; [parcount -t 7 -i -t]
    gives [i = 0], not the default 10000 of [parcount -t 7 -i]; and in
    [parcount -t -t 5] the value after the last [-t] is 5, yet [t] is 0. *)
Lemma trailing_flag_as_value :
  parse_args ["parcount"; "-t"; "-t"] = (0, 10000) ∧
  parse_args ["parcount"; "-t"] = (4, 10000) ∧
  parse_args ["parcount"; "-t"; "7"; "-i"; "-t"] = (7, 0) ∧
  parse_args ["parcount"; "-t"; "7"; "-i"] = (7, 10000) ∧
  parse_args ["parcount"; "-t"; "-t"; "5"] = (0, 10000).
Proof. by vm_compute. Qed.

Lemma parse_args_flags_witness :
  parse_args ["parcount"; "x"; "y"] = (4, 10000) ∧
  (parse_args ["parcount"; "-t"; "3"; "-i"; "7"; "-t"; "5"; "x"; "-i"]).1 = 5 ∧
  parse_args ["parcount"; "-t"; "3"; "-i"; "7"; "-t"]
  = parse_args ["parcount"; "-t"; "3"; "-i"; "7"] ∧
  parse_args ["parcount"; "-t"; "3"; "-i"; "-t"]
  = (3, 0).
Proof.
  destruct parse_args_flags as (Hnone & Hlast & Htrail & Hvalue & _).
  split; [|split; [|split]].
  - apply (Hnone "parcount" ["x"; "y"]). repeat constructor.
  - apply (Hlast FlagT "parcount" [Given FlagT "3"; Given FlagI "7"] "5"
             [Other "x"] (Some "-i")); [repeat constructor | reflexivity].
  - apply (Htrail FlagT "parcount" [Given FlagT "3"; Given FlagI "7"]).
    repeat constructor.
  - apply (Hvalue FlagT FlagI "parcount" [Given FlagT "3"]).
    repeat constructor.
Defined.

End CliFacts.

Import CliFacts.

(** ** Steps keep the invariant *)

Module Steps.

Lemma total_cons i th ths : total i (th :: ths) = done_by i (pc th) + total i ths.
Proof. done. Qed.

Lemma total_app i ths1 ths2 : total i (ths1 ++ ths2) = total i ths1 + total i ths2.
Proof.
  induction ths1 as [|th ths1 IH]; [done|].
  rewrite <- app_comm_cons, !total_cons, IH. lia.
Qed.

Lemma total_insert i ths : ∀ j th th',
  ths !! j = Some th →
  total i (<[j := th']> ths)
  = total i ths - done_by i (pc th) + done_by i (pc th').
Proof.
  unfold total.
  induction ths as [|x ths IH]; intros [|j] th th' Hj; try done.
  - simpl in Hj. injection Hj as ->. simpl. lia.
  - simpl in *. rewrite (IH _ _ _ Hj). lia.
Qed.

Lemma total_returned i ths :
  all_returned ths → total i ths = Z.of_nat (length ths) * Z.max i 0.
Proof.
  induction 1 as [|th ths Hth _ IH]; [done|].
  rewrite total_cons, IH, Hth. simpl length. simpl done_by. lia.
Qed.

(** While the flag is down a worker only polls it. *)
Lemma thread_step_closed me i th m :
  start m = false → pc th = AtGate →
  thread_step me i th m = Some (m, AtGate, None).
Proof.
  unfold thread_step. intros Hs ->. destruct (fn th); simpl; by rewrite Hs.
Qed.

Ltac ltb_to_prop :=
  repeat match goal with
    | H : (_ <? _) = true |- _ => apply Z.ltb_lt in H
    | H : (_ <? _) = false |- _ => apply Z.ltb_ge in H
    end.

Ltac release_cases :=
  match goal with
  | H : _ = AtUnlock ∨ _ = AtScopeExit |- _ => destruct H as [-> | ->]
  end.

Lemma thread_step_move s me i th m m' p' a :
  fn th = s → point_ok s i (pc th) →
  thread_step me i th m = Some (m', p', a) →
  move s me i (iterator th) m (pc th) m' p' a.
Proof.
  unfold thread_step. destruct th as [f it p]. simpl. intros -> Hp Hstep.
  destruct s, p; simpl in *; repeat case_match; simplify_eq; ltb_to_prop;
    try done;
    match goal with
    | |- move ?s ?me ?i ?it ?m _ _ _ _ =>
        first
          [ by apply (MvWait s me i it m)
          | by apply (MvPass s me i it m)
          | by apply (MvAcquire s me i it m)
          | by (apply (MvEnter s me i it m); lia)
          | by (apply (MvLeave s me i it m); lia)
          | by (apply (MvLoad s me i it m); simpl; try done; lia)
          | by (apply (MvStore s me i it m); try done; lia)
          | by (apply (MvFetchAdd s me i it m); try done; lia)
          | by (apply (MvRelease s me i it m); auto) ]
    end.
Qed.

Lemma move_start s me i it m p m' p' a :
  move s me i it m p m' p' a → start m' = start m.
Proof. destruct 1; try done; by destruct (is_local s). Qed.

Lemma move_not_returned s me i it m p m' p' a :
  move s me i it m p m' p' a → p ≠ Returned.
Proof. destruct 1; try done. release_cases; done. Qed.

Lemma move_point s me i it m p m' p' a :
  move s me i it m p m' p' a → point_ok s i p'.
Proof.
  destruct 1; destruct s; simpl in *; try done; try lia; auto.
Qed.

Lemma move_done s me i it m p m' p' a :
  move s me i it m p m' p' a →
  done_by i p' =
  done_by i p + match a with Some Increment => 1 | _ => 0 end.
Proof.
  destruct 1; destruct s; simpl in *; try done; try lia.
  all: release_cases; simpl; lia.
Qed.

(** A move takes the mutex, gives it back, or leaves it alone. *)
Lemma move_mutex s me i it m p m' p' a :
  move s me i it m p m' p' a →
  (sharedCounter_mtx m = None ∧ sharedCounter_mtx m' = Some me ∧
   uses_mutex s && holds_lock p = false ∧
   uses_mutex s && holds_lock p' = true) ∨
  (sharedCounter_mtx m' = None ∧
   uses_mutex s && holds_lock p = true ∧
   uses_mutex s && holds_lock p' = false) ∨
  (sharedCounter_mtx m' = sharedCounter_mtx m ∧
   uses_mutex s && holds_lock p' = uses_mutex s && holds_lock p).
Proof.
  destruct 1; destruct s; simpl in *; try done; auto 10.
  all: release_cases; auto 10.
Qed.

(** What a move does to the counters. *)
Lemma move_atomic s me i it m p m' p' a :
  move s me i it m p m' p' a →
  sharedCounterAtomic m' =
  if uses_atomic s then
    match a with
    | Some Increment => wrap (sharedCounterAtomic m + 1)
    | _ => sharedCounterAtomic m
    end
  else sharedCounterAtomic m.
Proof.
  destruct 1; destruct s; simpl in *; try done.
Qed.

Lemma move_vector s me i it m p m' p' a :
  move s me i it m p m' p' a → is_local s = false →
  localCounterVector m' = localCounterVector m.
Proof. destruct 1; destruct s; simpl in *; try done. Qed.

Lemma move_counter_kept s me i it m p m' p' a :
  move s me i it m p m' p' a → is_plain s = false →
  sharedCounter m' = sharedCounter m.
Proof. destruct 1; destruct s; simpl in *; try done. Qed.

Lemma move_counter s me i it m p m' p' a :
  move s me i it m p m' p' a → is_plain s = true →
  match a with
  | Some Increment =>
      ∃ k x, p = AtStore k x ∧ p' = AtTest (k + 1) ∧
             sharedCounter m' = wrap (x + 1)
  | _ =>
      sharedCounter m' = sharedCounter m ∧
      ∀ k x, p' = AtStore k x → x = sharedCounter m ∧ holds_lock p = true
  end.
Proof.
  destruct 1; destruct s; simpl in *; try done; eauto.
  all: try (split; [done|]; intros ? ? [= <- <-]; done).
  all: try (split; [done|]; intros ? ? ?; done).
Qed.

Lemma move_slot s me i it m p m' p' a :
  move s me i it m p m' p' a → is_local s = true →
  match a with
  | Some Increment =>
      ∃ k x, p = AtStore k x ∧ p' = AtTest (k + 1) ∧
             localCounterVector m' =
             <[Z.to_nat it := wrap (x + 1)]> (localCounterVector m)
  | _ =>
      localCounterVector m' = localCounterVector m ∧
      ∀ k x, p' = AtStore k x →
             p = AtLoad k ∧ localCounterVector m !! Z.to_nat it = Some x
  end.
Proof.
  destruct 1; destruct s; simpl in *; try done; eauto.
  all: try (split; [done|]; intros ? ? [= <- <-]; done).
Qed.

(** *** A move of worker [j] keeps the invariant of the trial *)

Lemma shape_move s t ph m m' ths j th th' :
  shape s t ph m ths → start m = true → start m' = true →
  ths !! j = Some th → pc th ≠ Returned →
  shape s t ph m' (<[j := th']> ths).
Proof.
  intros Hshape Hopen Hopen' Hj Hnot.
  assert (all_returned ths → False) as Hsome.
  { intros Hall. eapply Forall_lookup_1 in Hall; [|done]. done. }
  destruct ph; simpl in *; unfold spawned in *;
    rewrite ?length_insert; try (destruct_and?; congruence).
  - destruct Hshape as (_ & Hlen & Hk & Hret). repeat split; try done.
    intros j' th'' Hlt Hj'.
    apply list_lookup_insert_Some in Hj' as [(-> & _ & _)|[Hne Hj']].
    + specialize (Hret _ _ Hlt Hj). done.
    + by eapply Hret.
Qed.

Lemma lock_move s me i it m p m' p' a ths th :
  move s me i it m p m' p' a →
  ths !! me = Some th → pc th = p →
  lock_ok s m ths →
  lock_ok s m' (<[me := Thread (fn th) (iterator th) p']> ths).
Proof.
  intros Hmove Hme Hp [Hiff Hown].
  pose proof (lookup_lt_Some _ _ _ Hme) as Hlt.
  pose proof (Hiff _ _ Hme) as Hmine. rewrite Hp in Hmine.
  destruct (move_mutex _ _ _ _ _ _ _ _ _ Hmove)
    as [(Hfree & Htaken & Hout & Hin)|[(Hfree & Hin & Hout)|(Hsame & Hkeep)]].
  - split.
    + intros j th' Hj. rewrite Htaken.
      apply list_lookup_insert_Some in Hj as [(<- & <- & _)|[Hne Hj]].
      * simpl. by rewrite Hin.
      * specialize (Hiff _ _ Hj). rewrite Hfree in Hiff.
        split; [intros H; by apply Hiff in H | intros [= ->]; done].
    + intros o. rewrite Htaken. intros [= <-].
      apply lookup_lt_is_Some. by rewrite length_insert.
  - split.
    + intros j th' Hj. rewrite Hfree.
      apply list_lookup_insert_Some in Hj as [(<- & <- & _)|[Hne Hj]].
      * simpl. by rewrite Hout.
      * specialize (Hiff _ _ Hj).
        apply Hmine in Hin.
        split; [|done]. intros H. apply Hiff in H. congruence.
    + intros o. by rewrite Hfree.
  - split.
    + intros j th' Hj. rewrite Hsame.
      apply list_lookup_insert_Some in Hj as [(<- & <- & _)|[Hne Hj]].
      * simpl. by rewrite Hkeep.
      * by apply Hiff.
    + intros o. rewrite Hsame. intros Ho.
      apply lookup_lt_is_Some. rewrite length_insert.
      by apply lookup_lt_is_Some, Hown.
Qed.

Lemma bounded_mono n n' v : n ≤ n' → bounded n v → bounded n' v.
Proof. intros Hle (c & Hc & ->). exists c. split; [lia|done]. Qed.

Lemma bounded_succ n v : bounded n v → bounded (n + 1) (wrap (v + 1)).
Proof.
  intros (c & Hc & ->). exists (c + 1). split; [lia|].
  apply wrap_add_l.
Qed.

Lemma racy_move s me i it m p m' p' a ths th :
  move s me i it m p m' p' a → is_plain s = true →
  ths !! me = Some th → pc th = p →
  racy i m ths →
  racy i m' (<[me := Thread (fn th) (iterator th) p']> ths).
Proof.
  intros Hmove Hplain Hme Hp [Hcnt Hread].
  pose proof (move_done _ _ _ _ _ _ _ _ _ Hmove) as Hdone.
  pose proof (move_counter _ _ _ _ _ _ _ _ _ Hmove Hplain) as Heff.
  pose proof (total_insert i ths me th (Thread (fn th) (iterator th) p') Hme)
    as Htot.
  simpl in Htot. rewrite Hp, Hdone in Htot. unfold racy.
  destruct (decide (a = Some Increment)) as [->|Hquiet].
  - destruct Heff as (k & x & -> & -> & Hm').
    replace (total i (<[me:=Thread (fn th) (iterator th) (AtTest (k + 1))]> ths))
      with (total i ths + 1) by lia.
    rewrite Hm'. split.
    + apply bounded_succ. by eapply Hread.
    + intros j th' k' x' Hj Hpc.
      apply list_lookup_insert_Some in Hj as [(<- & <- & _)|[Hne Hj]];
        [done|].
      eapply bounded_mono; [|by eapply Hread]. lia.
  - assert (sharedCounter m' = sharedCounter m ∧
            ∀ k x, p' = AtStore k x → x = sharedCounter m) as [Hm' Hload].
    { destruct a as [[]|]; try done; destruct Heff as [? Hl];
        (split; [done|]); intros k x Hk; by apply Hl in Hk as [? _]. }
    replace (total i (<[me:=Thread (fn th) (iterator th) p']> ths))
      with (total i ths) by (destruct a as [[]|]; try done; lia).
    rewrite Hm'. split; [done|].
    intros j th' k' x' Hj Hpc.
    apply list_lookup_insert_Some in Hj as [(<- & <- & _)|[Hne Hj]].
    + simpl in Hpc. by apply Hload in Hpc as ->.
    + by eapply Hread.
Qed.

Lemma exact_move s me i it m p m' p' a ths th :
  move s me i it m p m' p' a → is_plain s = true →
  ths !! me = Some th → pc th = p →
  (∀ j th' k x, ths !! j = Some th' → pc th' = AtStore k x →
                a = Some Increment → j = me) →
  exact i m ths →
  exact i m' (<[me := Thread (fn th) (iterator th) p']> ths).
Proof.
  intros Hmove Hplain Hme Hp Halone [Hcnt Hread].
  pose proof (move_done _ _ _ _ _ _ _ _ _ Hmove) as Hdone.
  pose proof (move_counter _ _ _ _ _ _ _ _ _ Hmove Hplain) as Heff.
  pose proof (total_insert i ths me th (Thread (fn th) (iterator th) p') Hme)
    as Htot.
  simpl in Htot. rewrite Hp, Hdone in Htot. unfold exact.
  destruct (decide (a = Some Increment)) as [->|Hquiet].
  - destruct Heff as (k & x & -> & -> & Hm').
    replace (total i (<[me:=Thread (fn th) (iterator th) (AtTest (k + 1))]> ths))
      with (total i ths + 1) by lia.
    rewrite Hm'. split.
    + rewrite (Hread _ _ _ _ Hme Hp), Hcnt. apply wrap_add_l.
    + intros j th' k' x' Hj Hpc.
      apply list_lookup_insert_Some in Hj as [(<- & <- & _)|[Hne Hj]];
        [done|].
      by specialize (Halone _ _ _ _ Hj Hpc eq_refl).
  - assert (sharedCounter m' = sharedCounter m ∧
            ∀ k x, p' = AtStore k x → x = sharedCounter m) as [Hm' Hload].
    { destruct a as [[]|]; try done; destruct Heff as [? Hl];
        (split; [done|]); intros k x Hk; by apply Hl in Hk as [? _]. }
    replace (total i (<[me:=Thread (fn th) (iterator th) p']> ths))
      with (total i ths) by (destruct a as [[]|]; try done; lia).
    rewrite Hm'. split; [done|].
    intros j th' k' x' Hj Hpc.
    apply list_lookup_insert_Some in Hj as [(<- & <- & _)|[Hne Hj]].
    + simpl in Hpc. by apply Hload in Hpc as ->.
    + by eapply Hread.
Qed.

Lemma slots_move s me i it m p m' p' a ths th ph :
  move s me i it m p m' p' a → is_local s = true →
  ths !! me = Some th → pc th = p → iterator th = it →
  slots_ok i ph m ths →
  slots_ok i ph m' (<[me := Thread (fn th) (iterator th) p']> ths).
Proof.
  intros Hmove Hlocal Hme Hp Hit [Hvec Hown].
  pose proof (move_done _ _ _ _ _ _ _ _ _ Hmove) as Hdone.
  pose proof (move_slot _ _ _ _ _ _ _ _ _ Hmove Hlocal) as Heff.
  pose proof (lookup_lt_Some _ _ _ Hme) as Hlt.
  destruct (Hown _ _ Hme) as [Hidx Hread].
  assert (Z.to_nat it = me) as Hnat by lia.
  assert (localCounterVector m !! me = Some (slot_of i th)) as Hslot.
  { rewrite Hvec, lookup_app_l by (by rewrite length_fmap).
    by rewrite list_lookup_fmap, Hme. }
  rewrite Hnat in Heff. unfold slots_ok.
  rewrite list_fmap_insert.
  assert (∀ j th', <[me:=Thread (fn th) (iterator th) p']> ths !! j = Some th' →
            iterator th' = Z.of_nat j) as Hidx'.
  { intros j th' Hj.
    apply list_lookup_insert_Some in Hj as [(<- & <- & _)|[Hne Hj]];
      [done | by apply Hown]. }
  destruct (decide (a = Some Increment)) as [->|Hquiet].
  - destruct Heff as (k & x & -> & -> & Hm'). split.
    + rewrite Hm', Hvec, insert_app_l by (by rewrite length_fmap).
      do 2 f_equal. unfold slot_of. simpl.
      rewrite (Hread _ _ Hp). apply wrap_add_l.
    + intros j th' Hj. split; [by eapply Hidx'|].
      apply list_lookup_insert_Some in Hj as [(<- & <- & _)|[Hne Hj]];
        [done | by apply (Hown _ _ Hj)].
  - assert (localCounterVector m' = localCounterVector m ∧
            ∀ k x, p' = AtStore k x →
              p = AtLoad k ∧ localCounterVector m !! me = Some x)
      as [Hm' Hload].
    { destruct a as [[]|]; done. }
    assert (done_by i p' = done_by i p) as Hsame.
    { destruct a as [[]|]; try done; lia. }
    split.
    + rewrite Hm', Hvec. f_equal. symmetry. apply list_insert_id.
      rewrite list_lookup_fmap, Hme. simpl. unfold slot_of. simpl.
      by rewrite Hsame, Hp.
    + intros j th' Hj. split; [by eapply Hidx'|].
      apply list_lookup_insert_Some in Hj as [(<- & <- & _)|[Hne Hj]];
        [|by apply (Hown _ _ Hj)].
      simpl. intros k x Hk. apply Hload in Hk as [-> Hx].
      rewrite Hslot in Hx. injection Hx as <-.
      unfold slot_of. by rewrite Hp.
Qed.

Lemma shape_open s t ph m ths :
  shape s t ph m ths → start m = true →
  spawned t ths ∧ (reduced ph = true → all_returned ths).
Proof.
  destruct ph; simpl; intros; destruct_and?; try congruence; done.
Qed.

Lemma total_move s me i it m p m' p' a ths th :
  move s me i it m p m' p' a → ths !! me = Some th → pc th = p →
  total i (<[me := Thread (fn th) (iterator th) p']> ths)
  = total i ths + match a with Some Increment => 1 | _ => 0 end.
Proof.
  intros Hmove Hme Hp.
  rewrite (total_insert i ths me th) by done. simpl.
  rewrite (move_done _ _ _ _ _ _ _ _ _ Hmove), Hp. lia.
Qed.

Lemma counters_move s t i ph m m' ths me th p' a :
  move s me i (iterator th) m (pc th) m' p' a →
  ths !! me = Some th → start m = true →
  shape s t ph m ths → lock_ok s m ths →
  counters_ok s t i ph m ths →
  counters_ok s t i ph m' (<[me := Thread (fn th) (iterator th) p']> ths).
Proof.
  intros Hmove Hme Hopen Hshape [Hiff _] Hcnt.
  pose proof (move_atomic _ _ _ _ _ _ _ _ _ Hmove) as Hatomic.
  pose proof (move_vector _ _ _ _ _ _ _ _ _ Hmove) as Hvector.
  pose proof (move_counter_kept _ _ _ _ _ _ _ _ _ Hmove) as Hkept.
  pose proof (total_move _ _ _ _ _ _ _ _ _ _ _ Hmove Hme eq_refl) as Htot.
  destruct (shape_open _ _ _ _ _ Hshape Hopen) as [Hlen Hred].
  pose proof (lookup_lt_Some _ _ _ Hme) as Hlt.
  assert (uses_mutex s = true →
          ∀ j th' k x, ths !! j = Some th' → pc th' = AtStore k x →
                       a = Some Increment → j = me) as Halone.
  { intros Hmutex j th' k x Hj Hpc ->.
    destruct (move_counter _ _ _ _ _ _ _ _ _ Hmove) as (k' & x' & Hp & _).
    { by destruct s. }
    pose proof (Hiff _ _ Hj) as [Hj' _]. pose proof (Hiff _ _ Hme) as [Hme' _].
    rewrite Hmutex, Hpc in Hj'. rewrite Hmutex, Hp in Hme'.
    specialize (Hj' eq_refl). specialize (Hme' eq_refl). congruence. }
  destruct s; simpl in *.
  - destruct Hcnt as (Hracy & Hexact & Ha & Hv).
    split; [by eapply racy_move|]. split; [|by rewrite Hatomic, Hvector].
    intros Hone. eapply exact_move; eauto.
    intros j th' k x Hj _ _. apply lookup_lt_Some in Hj.
    unfold spawned in Hlen. lia.
  - destruct Hcnt as (Hexact & Ha & Hv).
    split; [|by rewrite Hatomic, Hvector].
    eapply exact_move; eauto.
  - destruct Hcnt as (Hexact & Ha & Hv).
    split; [|by rewrite Hatomic, Hvector].
    eapply exact_move; eauto.
  - destruct Hcnt as (Ha & Hc & Hv).
    split; [|by rewrite Hkept, Hvector].
    rewrite Hatomic, Htot, Ha.
    destruct a as [[]|]; rewrite ?Z.add_0_r; try done. apply wrap_add_l.
  - destruct Hcnt as (Hslots & Hc & Ha).
    split; [by eapply slots_move|]. split; [|by rewrite Hatomic].
    rewrite Hkept, Hc by done.
    destruct (reduced ph) eqn:Hph; [|done].
    specialize (Hred eq_refl). eapply Forall_lookup_1 in Hred; [|done].
    by apply move_not_returned in Hmove.
Qed.

Lemma worker_step_trial_ok s j c :
  trial_ok s c → trial_ok s (worker_step j c).
Proof.
  intros [Hshape [Hths Hgate] Hlock Hcnt]. unfold worker_step.
  destruct (threadVector c !! j) as [th|] eqn:Hj; [|done].
  destruct (thread_step j (i c) th (mem c)) as [[[m' p'] a]|] eqn:Hstep;
    [|done].
  pose proof (Forall_lookup_1 _ _ _ _ Hths Hj) as [Hfn Hpoint].
  destruct (start (mem c)) eqn:Hstart.
  - pose proof (thread_step_move _ _ _ _ _ _ _ _ Hfn Hpoint Hstep) as Hmove.
    pose proof (move_start _ _ _ _ _ _ _ _ _ Hmove) as Hstart'.
    rewrite Hstart in Hstart'.
    split; simpl.
    + eapply shape_move; eauto. by eapply move_not_returned.
    + split; [|by rewrite Hstart'].
      apply Forall_insert; [done|]. simpl. split; [done|].
      by eapply move_point.
    + eapply lock_move; eauto.
    + eapply counters_move; eauto.
  - specialize (Hgate eq_refl).
    pose proof (Forall_lookup_1 _ _ _ _ Hgate Hj) as Hat.
    rewrite thread_step_closed in Hstep by done.
    injection Hstep as <- <- <-.
    rewrite <- Hat.
    replace (Thread (fn th) (iterator th) (pc th)) with th by by destruct th.
    rewrite list_insert_id by done.
    by split.
Qed.

(** *** A step of [main] keeps the invariant *)

Lemma trial_ok_fresh s t i prog o tr :
  trial_ok s (Config t i prog (Spawning 0) fresh [] o tr).
Proof.
  split; simpl.
  - repeat split; lia.
  - split; [constructor | by constructor].
  - split; [intros j th Hj; done | done].
  - destruct s; simpl; unfold racy, exact, slots_ok, bounded; simpl;
      repeat split; try done.
    all: try (exists 0; done).
Qed.

Lemma fold_slots i ths : ∀ acc,
  fold_left (λ acc localCounter, wrap (acc + localCounter))
    (slot_of i <$> ths) (wrap acc)
  = wrap (acc + total i ths).
Proof.
  induction ths as [|th ths IH]; intros acc.
  - simpl. unfold total. simpl. f_equal. lia.
  - rewrite fmap_cons. cbn [fold_left]. unfold slot_of at 2.
    rewrite wrap_add_l, wrap_add_r, IH, total_cons. f_equal. lia.
Qed.

(** A new thread waits at the gate and has counted nothing. *)
Lemma total_snoc i ths s it :
  total i (ths ++ [Thread s it AtGate]) = total i ths.
Proof. rewrite total_app. unfold total at 2. simpl. lia. Qed.

Lemma threads_spawn s i m ths it :
  threads_ok s i m ths → threads_ok s i m (ths ++ [Thread s it AtGate]).
Proof.
  intros [Hths Hgate]. split.
  - apply Forall_app. split; [done|]. by repeat constructor.
  - intros Hclosed. apply Forall_app. split; [auto|]. by repeat constructor.
Qed.

Lemma lock_spawn s m ths it :
  lock_ok s m ths → lock_ok s m (ths ++ [Thread s it AtGate]).
Proof.
  intros [Hiff Hown]. split.
  - intros j th [[Hlt Hj]|[-> <-]]%lookup_snoc_Some; [auto|].
    simpl. rewrite andb_false_r. split; [done|].
    intros Ho. apply Hown, lookup_lt_is_Some in Ho. lia.
  - intros o Ho. apply lookup_lt_is_Some. rewrite length_app.
    apply Hown, lookup_lt_is_Some in Ho. lia.
Qed.

Lemma racy_spawn s i m ths it :
  racy i m ths → racy i m (ths ++ [Thread s it AtGate]).
Proof.
  intros [Hc Hread]. unfold racy. rewrite total_snoc. split; [done|].
  intros j th k x [[Hlt Hj]|[-> <-]]%lookup_snoc_Some Hpc; [eauto|done].
Qed.

Lemma exact_spawn s i m ths it :
  exact i m ths → exact i m (ths ++ [Thread s it AtGate]).
Proof.
  intros [Hc Hread]. unfold exact. rewrite total_snoc. split; [done|].
  intros j th k x [[Hlt Hj]|[-> <-]]%lookup_snoc_Some Hpc; [eauto|done].
Qed.

Lemma slots_spawn i k m ths s :
  k = Z.of_nat (length ths) →
  slots_ok i (Pushed k) m ths →
  slots_ok i (Spawning (k + 1)) m (ths ++ [Thread s k AtGate]).
Proof.
  intros Hk [Hvec Hown]. split.
  - rewrite Hvec, fmap_app. simpl. by rewrite app_nil_r.
  - intros j th [[Hlt Hj]|[-> <-]]%lookup_snoc_Some; [auto|done].
Qed.

Lemma counters_spawn s t i k m ths :
  is_local s = false →
  counters_ok s t i (Spawning k) m ths →
  counters_ok s t i (Spawning (k + 1)) m (ths ++ [Thread s 0 AtGate]).
Proof.
  destruct s; simpl; try done; intros _ Hcnt; destruct_and!;
    rewrite ?total_snoc.
  - split; [by apply racy_spawn|]. split; [|done].
    intros Hone. by apply exact_spawn; auto.
  - split; [by apply exact_spawn | done].
  - split; [by apply exact_spawn | done].
  - done.
Qed.

(** With the mutex-holding workers all returned the mutex is free. *)
Lemma lock_free s m ths :
  lock_ok s m ths → all_returned ths → sharedCounter_mtx m = None.
Proof.
  intros [Hiff Hown] Hall.
  destruct (sharedCounter_mtx m) as [o|] eqn:Ho; [|done].
  destruct (Hown _ eq_refl) as [th Hth].
  pose proof (Forall_lookup_1 _ _ _ _ Hall Hth) as Hret.
  apply Hiff in Hth. rewrite Hret in Hth. simpl in Hth.
  rewrite andb_false_r in Hth. by destruct Hth as [_ Hth]; specialize (Hth eq_refl).
Qed.

Lemma all_returned_below ths k :
  ths !! k = None →
  (∀ j th, (j < k)%nat → ths !! j = Some th → pc th = Returned) →
  all_returned ths.
Proof.
  intros Hk Hret. apply Forall_lookup. intros j th Hj.
  apply lookup_ge_None in Hk. apply lookup_lt_Some in Hj as Hlt.
  eapply Hret; [|done]. lia.
Qed.

(** What a trial prints once all its workers have returned. *)
Lemma final_value s t i m ths :
  spawned t ths → all_returned ths →
  counters_ok s t i Printing m ths →
  final_ok s t i (observed s m).
Proof.
  intros Hlen Hall Hcnt.
  pose proof (total_returned i ths Hall) as Htot.
  unfold spawned in Hlen. rewrite Hlen in Htot.
  destruct s; simpl in *; rewrite <- ?Htot.
  - destruct Hcnt as ([Hb _] & Hexact & _). split; [done|].
    intros Hone. by destruct (Hexact Hone).
  - by destruct Hcnt as ([Hc _] & _).
  - by destruct Hcnt as ([Hc _] & _).
  - by destruct Hcnt as (Ha & _).
  - by destruct Hcnt as (_ & Hc & _).
Qed.

Lemma reset_fresh s t i ph m ths :
  start m = true → all_returned ths →
  lock_ok s m ths → counters_ok s t i ph m ths →
  reset s m = fresh.
Proof.
  intros Hopen Hall Hlock Hcnt.
  pose proof (lock_free _ _ _ Hlock Hall) as Hfree.
  destruct m as [st mtx sc sa v]. simpl in *. subst.
  destruct s; simpl in *; unfold reset, set_start, set_sharedCounter,
    set_sharedCounterAtomic, set_localCounterVector, fresh; simpl;
    destruct_and!; by subst.
Qed.

Lemma main_step_inv prog t0 i0 c :
  inv prog t0 i0 c → inv prog t0 i0 (main_step c).
Proof.
  intros [Ht Hi Hout Htrial]. unfold main_step.
  destruct c as [t i todo ph m ths o tr]. simpl in *. subst.
  destruct todo as [|s rest]; [by split|].
  destruct Htrial as [Hshape Hths Hlock Hcnt]. simpl in *.
  destruct Hout as (done & rows & Hprog & Ho & Hrows).
  unfold printed in Hrows. simpl in Hrows.
  destruct ph as [k|k| | |k| | | |]; simpl in *.
  - (* the creation loop *)
    destruct Hshape as (Hclosed & Hk & Hle).
    destruct (k <? t0) eqn:Hlt; ltb_to_prop.
    + destruct (is_local s) eqn:Hlocal.
      * split; simpl; [done|done|by exists done, rows|].
        destruct s; try done. split; simpl; [done|done|done|].
        destruct Hcnt as ([Hvec Hown] & Hc & Ha).
        split; [|done]. split; [|done].
        simpl. rewrite Hvec. simpl. by rewrite app_nil_r.
      * split; simpl; [done|done|by exists done, rows|].
        split; simpl.
        -- rewrite length_app. simpl. repeat split; [done|lia|lia].
        -- by apply threads_spawn.
        -- by apply lock_spawn.
        -- by apply counters_spawn.
    + split; simpl; [done|done|by exists done, rows|].
      split; simpl; [|done|done|by destruct s].
      split; [done|]. unfold spawned. lia.
  - (* the thread for the slot just appended *)
    destruct Hshape as (Hclosed & Hk & Hlt & ->).
    split; simpl; [done|done|by exists done, rows|].
    split; simpl.
    + rewrite length_app. simpl. repeat split; [done|lia|lia].
    + by apply threads_spawn.
    + by apply lock_spawn.
    + destruct Hcnt as (Hslots & Hc & Ha).
      split; [by apply slots_spawn|done].
  - (* t1 *)
    split; simpl; [done|done|by exists done, rows|].
    split; simpl; [done|done|done|by destruct s].
  - (* start = true *)
    destruct Hshape as (Hclosed & Hlen).
    split; simpl; [done|done|by exists done, rows|].
    split; simpl.
    + repeat split; try done; [lia|]. intros j th Hj. lia.
    + destruct Hths as [Hths _]. by split.
    + done.
    + by destruct s.
  - (* the join loop *)
    destruct Hshape as (Hopen & Hlen & Hle & Hret).
    destruct (ths !! k) as [th|] eqn:Hk.
    + destruct (is_returned th) eqn:Hth.
      * split; simpl; [done|done|by exists done, rows|].
        split; simpl; [|done|done|by destruct s].
        repeat split; try done; [by apply lookup_lt_Some in Hk|].
        intros j th' Hj Hth'.
        destruct (decide (j = k)) as [->|Hne].
        -- unfold is_returned in Hth. rewrite Hk in Hth'.
           injection Hth' as <-. by destruct (pc th).
        -- eapply Hret; [|done]. lia.
      * by split; simpl; [| |exists done, rows|split].
    + pose proof (all_returned_below _ _ Hk Hret) as Hall.
      split; simpl; [done|done| |].
      { exists done, rows. by destruct (is_local s). }
      destruct s; simpl; by split.
  - (* the summing loop *)
    destruct Hshape as (Hopen & Hlen & Hall & ->).
    split; simpl; [done|done|by exists done, rows|].
    split; simpl; [done|done|done|].
    destruct Hcnt as ([Hvec Hown] & Hc & Ha).
    split; [by split|]. split; [|done].
    rewrite Hvec, Hc. simpl. rewrite app_nil_r.
    rewrite <- wrap_0 at 1. by rewrite fold_slots.
  - (* t2 *)
    split; simpl; [done|done|by exists done, rows|].
    split; simpl; [done|done|done|by destruct s].
  - (* the line *)
    destruct Hshape as (Hopen & Hlen & Hall).
    split; simpl; [done|done| |].
    + exists done, (rows ++ [report s t0 m]).
      split; [done|]. split; [by rewrite Ho|].
      unfold printed. simpl. apply Forall2_app; [done|].
      repeat constructor. simpl. repeat split.
      by eapply final_value.
    + split; simpl; [done|done|done|by destruct s].
  - (* back to the start *)
    destruct Hshape as (Hopen & Hlen & Hall).
    split; simpl; [done|done| |].
    + exists (done ++ [s]), rows.
      split; [by rewrite <- app_assoc|]. split; [done|].
      unfold printed. simpl. by destruct rest.
    + rewrite (reset_fresh _ _ _ _ _ _ Hopen Hall Hlock Hcnt).
      destruct rest; [done|]. apply trial_ok_fresh.
Qed.

Lemma worker_step_frame j c :
  t (worker_step j c) = t c ∧ i (worker_step j c) = i c ∧
  todo (worker_step j c) = todo c ∧
  at_phase (worker_step j c) = at_phase c ∧
  out (worker_step j c) = out c.
Proof.
  unfold worker_step. repeat case_match; done.
Qed.

Lemma worker_step_inv prog t0 i0 j c :
  inv prog t0 i0 c → inv prog t0 i0 (worker_step j c).
Proof.
  intros [Ht Hi Hout Htrial].
  destruct (worker_step_frame j c) as (Ht' & Hi' & Htodo & Hph & Ho).
  split.
  - congruence.
  - congruence.
  - unfold printed. by rewrite Htodo, Hph, Ho.
  - rewrite Htodo. destruct (todo c) as [|s rest] eqn:Hc.
    + destruct Htrial as (Hp & Hm & Hv). unfold worker_step.
      rewrite Hv. simpl. by rewrite Hv.
    + by apply worker_step_trial_ok.
Qed.

Lemma step_inv prog t0 i0 a c :
  inv prog t0 i0 c → inv prog t0 i0 (step a c).
Proof.
  destruct a; [apply main_step_inv | apply worker_step_inv].
Qed.

Lemma boot_inv prog t0 i0 : inv prog t0 i0 (boot_with prog t0 i0).
Proof.
  split; simpl; try done.
  - exists [], []. repeat split; try done.
    unfold printed. simpl. destruct prog; constructor.
  - destruct prog; [done|]. apply trial_ok_fresh.
Qed.

Lemma run_app sched1 sched2 c :
  run (sched1 ++ sched2) c = run sched2 (run sched1 c).
Proof. apply fold_left_app. Qed.

Lemma run_inv prog t0 i0 sched : ∀ c,
  inv prog t0 i0 c → inv prog t0 i0 (run sched c).
Proof.
  induction sched as [|a sched IH]; intros c Hc; [done|].
  simpl. by apply IH, step_inv.
Qed.

(** Every configuration the program can reach satisfies the invariant. *)
Lemma reachable_inv prog t0 i0 sched :
  inv prog t0 i0 (run sched (boot_with prog t0 i0)).
Proof. apply run_inv, boot_inv. Qed.

End Steps.

Import Steps.

(** ** The program can always finish *)

Module Progress.

Lemma left_nonneg s i p : point_ok s i p → 0 ≤ left s i p.
Proof.
  unfold left, body, after_loop.
  destruct p, s; simpl; intros; nia.
Qed.

Lemma left_all_nonneg s i ths :
  Forall (λ th, fn th = s ∧ point_ok s i (pc th)) ths →
  0 ≤ left_all s i ths.
Proof.
  induction 1 as [|th ths [_ Hth] _ IH]; [done|].
  unfold left_all in *. simpl. pose proof (left_nonneg _ _ _ Hth). lia.
Qed.

Lemma left_gate_nonneg s i : 0 ≤ left s i AtGate.
Proof. by apply left_nonneg. Qed.

Lemma trial_cost_pos t i s : 0 < trial_cost t i s.
Proof.
  unfold trial_cost, main_left. pose proof (left_gate_nonneg s i).
  destruct (is_local s); nia.
Qed.

Lemma later_nonneg t i rest : 0 ≤ later t i rest.
Proof.
  induction rest as [|s rest IH]; [done|].
  unfold later in *. simpl. pose proof (trial_cost_pos t i s). lia.
Qed.

Lemma left_all_insert s i ths : ∀ j th th',
  ths !! j = Some th →
  left_all s i (<[j := th']> ths)
  = left_all s i ths - left s i (pc th) + left s i (pc th').
Proof.
  unfold left_all.
  induction ths as [|x ths IH]; intros [|j] th th' Hj; try done.
  - simpl in Hj. injection Hj as ->. simpl. lia.
  - simpl in *. rewrite (IH _ _ _ Hj). lia.
Qed.

Lemma left_all_snoc s i ths th :
  left_all s i (ths ++ [th]) = left_all s i ths + left s i (pc th).
Proof.
  unfold left_all. induction ths as [|x ths IH]; simpl; lia.
Qed.

Lemma left_all_returned s i ths : all_returned ths → left_all s i ths = 0.
Proof.
  unfold left_all. induction 1 as [|th ths Hth _ IH]; [done|].
  simpl. rewrite Hth, IH. done.
Qed.

(** A move with the flag up is one step less to go. *)
Lemma move_left s me i it m p m' p' a :
  move s me i it m p m' p' a → start m = true →
  left s i p' = left s i p - 1.
Proof.
  unfold left, body, after_loop.
  destruct 1; destruct s; simpl in *; intros; try congruence; try lia.
  all: release_cases; simpl; lia.
Qed.

(** With the flag up, a worker that has not returned can move, unless
    it waits for the mutex. *)
Lemma thread_enabled s i ph m ths j th :
  threads_ok s i m ths →
  (is_local s = true → slots_ok i ph m ths) →
  ths !! j = Some th → pc th ≠ Returned →
  is_Some (thread_step j i th m) ∨
  (pc th = AtLock ∧ is_Some (sharedCounter_mtx m)).
Proof.
  intros [Hths _] Hslots Hj Hnot.
  pose proof (Forall_lookup_1 _ _ _ _ Hths Hj) as [Hfn Hpoint].
  unfold thread_step. rewrite Hfn.
  destruct s, (pc th) eqn:Hpc; simpl in *; try done;
    try (left; by eexists); try (by destruct Hpoint as [? ?]);
    try (by destruct Hpoint as [?|?]).
  - destruct (sharedCounter_mtx m); [right|left]; done.
  - destruct (sharedCounter_mtx m); [right|left]; done.
  - left. destruct (Hslots eq_refl) as [Hvec Hown].
    destruct (Hown _ _ Hj) as [-> _].
    rewrite Nat2Z.id, Hvec.
    rewrite lookup_app_l by (rewrite length_fmap; by eapply lookup_lt_Some).
    by rewrite list_lookup_fmap, Hj.
Qed.

Lemma measure_pos prog t0 i0 c :
  inv prog t0 i0 c → todo c ≠ [] → 0 < measure c.
Proof.
  intros [_ _ _ Htrial] Hrun. unfold measure.
  destruct (todo c) as [|s rest]; [done|].
  destruct Htrial as [Hshape [Hths _] _ _].
  pose proof (left_all_nonneg _ _ _ Hths).
  pose proof (later_nonneg (t c) (i c) rest).
  pose proof (left_gate_nonneg s (i c)).
  enough (0 < main_left s (t c) (i c) (at_phase c)) by lia.
  unfold main_left, spawned in *.
  generalize dependent (left s (i c) AtGate). intros per Hper.
  destruct (at_phase c) as [k|k| | |k| | | |]; simpl in *; destruct_and?;
    unfold spawned in *; try (destruct (is_local s); lia).
  - assert (0 ≤ (t c `max` 0 - k) * ((if is_local s then 2 else 1) + per))
      by (apply Z.mul_nonneg_nonneg; destruct (is_local s); lia).
    destruct (is_local s); lia.
  - assert (0 ≤ (t c `max` 0 - k) * ((if is_local s then 2 else 1) + per))
      by (apply Z.mul_nonneg_nonneg; destruct (is_local s); lia).
    destruct (is_local s); lia.
Qed.

Lemma worker_progress s rest j c th r :
  todo c = s :: rest → trial_ok s c → start (mem c) = true →
  threadVector c !! j = Some th →
  thread_step j (i c) th (mem c) = Some r →
  measure (worker_step j c) = measure c - 1.
Proof.
  intros Htodo [_ [Hths _] _ _] Hopen Hj Hstep.
  destruct r as [[m' p'] a].
  pose proof (Forall_lookup_1 _ _ _ _ Hths Hj) as [Hfn Hpoint].
  pose proof (thread_step_move _ _ _ _ _ _ _ _ Hfn Hpoint Hstep) as Hmove.
  pose proof (move_left _ _ _ _ _ _ _ _ _ Hmove Hopen) as Hleft.
  unfold worker_step, measure. rewrite Hj, Hstep. simpl. rewrite Htodo.
  rewrite (left_all_insert _ _ _ _ _ _ Hj). simpl. lia.
Qed.

Lemma main_progress prog t0 i0 c :
  inv prog t0 i0 c → todo c ≠ [] →
  (∀ k th, at_phase c = Joining k → threadVector c !! k = Some th →
           pc th = Returned) →
  measure (main_step c) = measure c - 1.
Proof.
  intros [_ _ _ Htrial] Hrun Hjoin. unfold measure, main_step.
  destruct c as [t i todo ph m ths o tr]. simpl in *.
  destruct todo as [|s rest]; [done|].
  destruct Htrial as [Hshape _ _ _]. simpl in *.
  destruct ph as [k|k| | |k| | | |]; simpl in *; unfold spawned in *.
  - destruct Hshape as (Hclosed & Hk & Hle).
    destruct (k <? t) eqn:Hlt; ltb_to_prop.
    + destruct (is_local s) eqn:Hlocal; simpl; rewrite ?Hlocal.
      * lia.
      * rewrite left_all_snoc. simpl. lia.
    + simpl. replace (t `max` 0 - k) with 0 by lia. lia.
  - destruct Hshape as (Hclosed & Hk & Hlt & ->). simpl.
    rewrite left_all_snoc. simpl. lia.
  - simpl. lia.
  - simpl. lia.
  - destruct Hshape as (Hopen & Hlen & Hle & Hret).
    destruct (ths !! k) as [th|] eqn:Hk.
    + unfold is_returned. rewrite (Hjoin k th eq_refl Hk). simpl. lia.
    + apply lookup_ge_None in Hk.
      destruct (is_local s); simpl; lia.
  - destruct Hshape as (_ & _ & _ & ->). simpl. lia.
  - simpl. lia.
  - simpl. lia.
  - destruct Hshape as (_ & _ & Hall).
    rewrite (left_all_returned _ _ _ Hall).
    destruct rest as [|s' rest]; simpl.
    + lia.
    + unfold left_all, trial_cost. simpl. lia.
Qed.

(** Whatever has happened so far, someone can take a step that brings
    the end of the program nearer. *)
Lemma progress prog t0 i0 c :
  inv prog t0 i0 c → todo c ≠ [] →
  ∃ a, measure (step a c) = measure c - 1.
Proof.
  intros Hinv Hrun.
  destruct (at_phase c) as [| | | |k| | | |] eqn:Hph;
    try (exists Main; eapply main_progress; [done|done|];
         intros ? ? ?; congruence).
  destruct (threadVector c !! k) as [th|] eqn:Hk;
    [|exists Main; eapply main_progress; [done|done|];
      intros ? ? ?; congruence].
  destruct (decide (pc th = Returned)) as [Hret|Hnot].
  { exists Main. eapply main_progress; [done|done|].
    intros ? ? ? ?. congruence. }
  pose proof Hinv as [_ _ _ Htrial].
  destruct (todo c) as [|s rest] eqn:Htodo; [done|].
  pose proof Htrial as [Hshape Hths Hlock Hcnt].
  rewrite Hph in Hshape. destruct Hshape as (Hopen & _).
  assert (is_local s = true →
          slots_ok (i c) (at_phase c) (mem c) (threadVector c)) as Hslots.
  { intros Hl. destruct s; try done. by destruct Hcnt. }
  destruct (thread_enabled _ _ _ _ _ _ _ Hths Hslots Hk Hnot)
    as [[r Hr]|[Hat [o Ho]]].
  { exists (Worker k). simpl. by eapply worker_progress. }
  destruct Hlock as [Hiff Hown].
  destruct (Hown _ Ho) as [th' Ho'].
  pose proof (proj2 (Hiff _ _ Ho') Ho) as Hholds.
  apply andb_true_iff in Hholds as [_ Hholds].
  destruct (thread_enabled _ _ _ _ _ _ _ Hths Hslots Ho')
    as [[r Hr]|[Hat' _]].
  { intros Hret. by rewrite Hret in Hholds. }
  - exists (Worker o). simpl. by eapply worker_progress.
  - by rewrite Hat' in Hholds.
Qed.

Lemma can_exit_from prog t0 i0 (n : nat) : ∀ c,
  inv prog t0 i0 c → measure c ≤ Z.of_nat n →
  ∃ sched, exited (run sched c).
Proof.
  induction n as [|n IH]; intros c Hinv Hn.
  - exists []. simpl. unfold exited.
    destruct (todo c) eqn:Htodo; [done|].
    assert (0 < measure c); [|lia].
    eapply measure_pos; [done|]. by rewrite Htodo.
  - destruct (todo c) as [|s rest] eqn:Htodo.
    { by exists []. }
    destruct (progress _ _ _ _ Hinv) as [a Ha]; [by rewrite Htodo|].
    destruct (IH (step a c)) as [sched Hsched].
    + by apply step_inv.
    + lia.
    + by exists (a :: sched).
Qed.

(** From every configuration the program can reach there is a way to
    its end. *)
Lemma can_exit prog t0 i0 sched :
  ∃ more, exited (run (sched ++ more) (boot_with prog t0 i0)).
Proof.
  pose proof (reachable_inv prog t0 i0 sched) as Hinv.
  destruct (can_exit_from prog t0 i0
              (Z.to_nat (measure (run sched (boot_with prog t0 i0)))) _ Hinv)
    as [more Hmore]; [lia|].
  exists more. by rewrite run_app.
Qed.

End Progress.

Import Progress.

(** ** What is on the output *)

Module Output.

Lemma function_name_inj s s' : function_name s = function_name s' → s = s'.
Proof. destruct s, s'; simpl; intros H; try done; discriminate H. Qed.

(** A data line on the output is the line of a trial, and its counter
    value is one the trial may end with. *)
Lemma row_printed prog t i sched name v th n :
  Row name v th n ∈ out (run sched (boot_with prog t i)) →
  ∃ s, s ∈ prog ∧ name = function_name s ∧ th = t ∧
       n = times_1000 v ∧ final_ok s t i v.
Proof.
  intros Hin.
  destruct (reachable_inv prog t i sched) as [_ _ Hout _].
  destruct Hout as (done & rows & Hprog & Ho & Hrows).
  rewrite Ho in Hin. apply elem_of_cons in Hin as [Hin|Hin]; [done|].
  apply list_elem_of_lookup in Hin as [k Hk].
  destruct (Forall2_lookup_r _ _ _ _ _ Hrows Hk) as (s & Hs & Hrow).
  simpl in Hrow. destruct Hrow as (-> & -> & -> & Hfinal).
  exists s. repeat split; try done.
  apply list_elem_of_lookup_2 in Hs. rewrite Hprog.
  unfold printed in Hs.
  apply elem_of_app.
  destruct (todo (run sched (boot_with prog t i))) as [|s' rest];
    [by left|].
  destruct (at_phase (run sched (boot_with prog t i))); try by left.
  apply elem_of_app in Hs as [Hs|Hs]; [by left|right].
  apply list_elem_of_singleton in Hs as ->. apply elem_of_cons. by left.
Qed.

(** The output of a finished program. *)
Lemma exited_out t i sched :
  exited (run sched (boot t i)) →
  ∃ v1 v2 v3 v4 v5,
    out (run sched (boot t i)) =
      [header;
       Row (function_name RaceCondition) v1 t (times_1000 v1);
       Row (function_name MutexLock) v2 t (times_1000 v2);
       Row (function_name LockGuard) v3 t (times_1000 v3);
       Row (function_name Atomic) v4 t (times_1000 v4);
       Row (function_name LocalCounter) v5 t (times_1000 v5)] ∧
    final_ok RaceCondition t i v1 ∧ final_ok MutexLock t i v2 ∧
    final_ok LockGuard t i v3 ∧ final_ok Atomic t i v4 ∧
    final_ok LocalCounter t i v5.
Proof.
  unfold exited. intros Hexit.
  destruct (reachable_inv trials t i sched) as [_ _ Hout _].
  destruct Hout as (done & rows & Hprog & Ho & Hrows).
  change (boot_with trials t i) with (boot t i) in *.
  unfold printed in Hrows. rewrite Hexit in Hrows, Hprog.
  rewrite app_nil_r in Hprog. subst done. unfold trials in Hrows.
  repeat match goal with
    | H : Forall2 _ (_ :: _) _ |- _ =>
        apply Forall2_cons_inv_l in H as (? & ? & ? & H & ->)
    | H : Forall2 _ [] _ |- _ => apply Forall2_nil_inv_l in H as ->
    | H : row_ok _ _ _ ?l |- _ =>
        destruct l; simpl in H; [done|destruct H as (-> & -> & -> & ?)]
    end.
  rewrite Ho. eauto 20.
Qed.

Lemma can_finish t i : ∃ sched, exited (run sched (boot t i)).
Proof.
  destruct (can_exit trials t i []) as [more Hmore]. by exists more.
Qed.

Lemma atoi_int x : is_int (atoi x).
Proof.
  unfold atoi. repeat case_match; apply wrap_range.
Qed.

Lemma parse_args_int argv t i :
  parse_args argv = (t, i) → is_int t ∧ is_int i.
Proof.
  assert (is_int 4 ∧ is_int 10000) as Hdefault.
  { unfold is_int, INT_MIN, INT_MAX. lia. }
  destruct argv as [|prog tokens]; [by intros [= <- <-]|].
  rewrite parse_args_scan.
  destruct (render_complete tokens) as (items & last & Hok & ->).
  rewrite scan_render by done.
  pose (good := λ p : Z * Z, is_int p.1 ∧ is_int p.2).
  assert (∀ p, good p → good (fold_left apply_item items p)) as Hfold.
  { clear. induction items as [|it items IH]; intros p Hp; [done|].
    simpl. apply IH. destruct Hp as [H1 H2].
    destruct it as [[] v|x]; split; simpl; auto using atoi_int. }
  intros Heq. specialize (Hfold (4, 10000) Hdefault).
  by rewrite Heq in Hfold.
Qed.

Lemma shape_threads s t ph m ths :
  shape s t ph m ths → Z.of_nat (length ths) ≤ Z.max t 0.
Proof.
  unfold spawned. destruct ph; simpl; intros; destruct_and?;
    unfold spawned in *; lia.
Qed.

Lemma trial_start_fresh s c :
  trial_ok s c → at_phase c = Spawning 0 →
  mem c = fresh ∧ threadVector c = [].
Proof.
  intros [Hshape Hths [_ Hown] Hcnt] Hph. rewrite Hph in *.
  destruct c as [t i todo ph m ths o tr]. simpl in *.
  destruct Hshape as (Hclosed & Hlen & _).
  destruct ths; [|done]. split; [|done].
  destruct m as [st mtx sc sa v]. simpl in *. subst.
  assert (mtx = None) as ->.
  { destruct mtx as [x|]; [|done]. by destruct (Hown x eq_refl) as [? ?]. }
  unfold fresh.
  destruct s; simpl in *; unfold racy, exact, slots_ok, bounded in *;
    simpl in *; destruct_and?; subst; try done.
  match goal with
  | H : ∃ c : Z, 0 ≤ c ≤ 0 ∧ _ = wrap c |- _ => destruct H as (c & Hc & ->)
  end.
  by replace c with 0 by lia.
Qed.

End Output.

Import Output.

(** ** What the trials print *)

Module Trials.

(** C1, as the program has it.  With at least one worker, no negative
    number of rounds and [t * i] within [int], the program can run to
    its end; whenever the line of MutexLock, LockGuard, Atomic or
    LocalCounter is on the output its counter value is [t * i]; and
    once the program has ended all four lines are there. *)
Theorem synchronized_final t i :
  1 ≤ t → 0 ≤ i → t * i ≤ INT_MAX →
  (∃ sched, exited (run sched (boot t i))) ∧
  ∀ sched,
    (∀ s v th n,
       s ≠ RaceCondition →
       Row (function_name s) v th n ∈ out (run sched (boot t i)) →
       v = t * i) ∧
    (exited (run sched (boot t i)) →
     ∀ s, s ≠ RaceCondition →
       Row (function_name s) (t * i) t (times_1000 (t * i))
         ∈ out (run sched (boot t i))).
Proof.
  intros Ht Hi Hfit.
  assert (wrap (Z.max t 0 * Z.max i 0) = t * i) as Hwrap.
  { rewrite !Z.max_l by lia. apply wrap_small.
    unfold is_int, INT_MIN. nia. }
  split; [apply can_finish|]. intros sched. split.
  - intros s v th n Hs Hin.
    apply row_printed in Hin as (s' & _ & Hname & _ & _ & Hfinal).
    apply function_name_inj in Hname as <-.
    destruct s; simpl in Hfinal; congruence.
  - intros Hexit s Hs.
    destruct (exited_out _ _ _ Hexit)
      as (v1 & v2 & v3 & v4 & v5 & -> & _ & H2 & H3 & H4 & H5).
    simpl in H2, H3, H4, H5. rewrite Hwrap in *. subst.
    destruct s; try done; set (r := Row _ _ _ _);
      repeat first [ apply list_elem_of_here | apply list_elem_of_further ].
Qed.

Lemma synchronized_final_witness :
  (∃ sched, exited (run sched (boot 2 3))) ∧
  ∀ sched,
    (∀ s v th n,
       s ≠ RaceCondition →
       Row (function_name s) v th n ∈ out (run sched (boot 2 3)) →
       v = 2 * 3) ∧
    (exited (run sched (boot 2 3)) →
     ∀ s, s ≠ RaceCondition →
       Row (function_name s) (2 * 3) 2 (times_1000 (2 * 3))
         ∈ out (run sched (boot 2 3))).
Proof.
  apply (synchronized_final 2 3); [lia | lia | unfold INT_MAX; lia].
Defined.

(** C1 as written fails where [t * i] leaves [int]: with 4 workers and
    1000000000 rounds the Atomic trial, whose counter wraps by
    definition, ends at -294967296. *)
Lemma synchronized_final_overflow :
  (∀ sched v th n,
     Row (function_name Atomic) v th n ∈ out (run sched (boot 4 1000000000)) →
     v = -294967296 ∧ v ≠ 4 * 1000000000) ∧
  ∃ sched,
    exited (run sched (boot 4 1000000000)) ∧
    Row (function_name Atomic) (-294967296) 4 (times_1000 (-294967296))
      ∈ out (run sched (boot 4 1000000000)).
Proof.
  assert (wrap (4 `max` 0 * 1000000000 `max` 0) = -294967296) as Hw
    by reflexivity.
  split.
  - intros sched v th n Hin.
    apply row_printed in Hin as (s' & _ & Hname & _ & _ & Hfinal).
    apply function_name_inj in Hname as <-. simpl in Hfinal.
    rewrite Hw in Hfinal. by subst.
  - destruct (can_finish 4 1000000000) as [sched Hexit].
    exists sched. split; [done|].
    destruct (exited_out _ _ _ Hexit)
      as (v1 & v2 & v3 & v4 & v5 & -> & _ & _ & _ & H4 & _).
    simpl in H4. rewrite Hw in H4. subst v4.
    repeat first [ apply list_elem_of_here | apply list_elem_of_further ].
Qed.

Lemma main_boot argv t i : parse_args argv = (t, i) → main argv = boot t i.
Proof. unfold main. by intros ->. Qed.

(** C2.  On a command line that gives at least one worker and no
    negative number of rounds the program can run to its end; whenever
    the line of RaceCondition is on the output its counter value is at
    most [t * i], and exactly [i] with a single worker; and once the
    program has ended the line is there. *)
Theorem race_final argv t i :
  parse_args argv = (t, i) → 1 ≤ t → 0 ≤ i →
  (∃ sched, exited (run sched (main argv))) ∧
  ∀ sched,
    (∀ v th n,
       Row (function_name RaceCondition) v th n
         ∈ out (run sched (main argv)) →
       v ≤ t * i ∧ (t = 1 → v = i)) ∧
    (exited (run sched (main argv)) →
     ∃ v, Row (function_name RaceCondition) v t (times_1000 v)
            ∈ out (run sched (main argv))).
Proof.
  intros Hparse Ht Hi.
  destruct (parse_args_int _ _ _ Hparse) as [_ Hint].
  rewrite (main_boot _ _ _ Hparse).
  split; [apply can_finish|]. intros sched. split.
  - intros v th n Hin.
    apply row_printed in Hin as (s' & _ & Hname & _ & _ & Hfinal).
    apply function_name_inj in Hname as <-.
    destruct Hfinal as [(c & Hc & ->) Hone].
    rewrite !Z.max_l in * by lia. split.
    + pose proof (wrap_le c). unfold INT_MIN in *. lia.
    + intros ->. rewrite Hone by lia. rewrite Z.mul_1_l.
      by apply wrap_small.
  - intros Hexit.
    destruct (exited_out _ _ _ Hexit)
      as (v1 & v2 & v3 & v4 & v5 & -> & _).
    exists v1. apply list_elem_of_further, list_elem_of_here.
Qed.

Lemma race_final_witness :
  (∃ sched, exited (run sched (main ["parcount"; "-t"; "1"; "-i"; "5"]))) ∧
  ∀ sched,
    (∀ v th n,
       Row (function_name RaceCondition) v th n
         ∈ out (run sched (main ["parcount"; "-t"; "1"; "-i"; "5"])) →
       v ≤ 1 * 5 ∧ (1 = 1 → v = 5)) ∧
    (exited (run sched (main ["parcount"; "-t"; "1"; "-i"; "5"])) →
     ∃ v, Row (function_name RaceCondition) v 1 (times_1000 v)
            ∈ out (run sched (main ["parcount"; "-t"; "1"; "-i"; "5"]))).
Proof.
  apply (race_final ["parcount"; "-t"; "1"; "-i"; "5"] 1 5);
    [reflexivity | lia | lia].
Defined.

(** C10.  With [t] at most 0 the program can run to its end, never has
    a worker, and ends with the header and five lines in the order of
    the trials, each with counter value 0. *)
Theorem no_workers t i :
  t ≤ 0 →
  (∃ sched, exited (run sched (boot t i))) ∧
  ∀ sched,
    threadVector (run sched (boot t i)) = [] ∧
    (exited (run sched (boot t i)) →
     out (run sched (boot t i)) =
       [header;
        Row "incrementiTimesRaceCondition" 0 t 0;
        Row "incrementiTimesMutexLock" 0 t 0;
        Row "incrementiTimesLockGuard" 0 t 0;
        Row "incrementiTimesAtomic" 0 t 0;
        Row "incrementiTimesLocalCounter" 0 t 0]).
Proof.
  intros Ht. split; [apply can_finish|]. intros sched. split.
  - destruct (reachable_inv trials t i sched) as [Ht' _ _ Htrial].
    change (boot_with trials t i) with (boot t i) in *.
    destruct (todo (run sched (boot t i))) as [|s rest].
    + by destruct Htrial as (_ & _ & ->).
    + destruct Htrial as [Hshape _ _ _].
      apply shape_threads in Hshape. rewrite Ht' in Hshape.
      destruct (threadVector (run sched (boot t i))); [done|].
      simpl in Hshape. lia.
  - intros Hexit.
    destruct (exited_out _ _ _ Hexit)
      as (v1 & v2 & v3 & v4 & v5 & -> & H1 & H2 & H3 & H4 & H5).
    simpl in *. destruct H1 as [(c & Hc & ->) _].
    rewrite (Z.max_r t 0) in * by lia. rewrite Z.mul_0_l in *.
    replace c with 0 by lia. by subst.
Qed.

Lemma no_workers_witness :
  (∃ sched, exited (run sched (boot (-3) 10000))) ∧
  ∀ sched,
    threadVector (run sched (boot (-3) 10000)) = [] ∧
    (exited (run sched (boot (-3) 10000)) →
     out (run sched (boot (-3) 10000)) =
       [header;
        Row "incrementiTimesRaceCondition" 0 (-3) 0;
        Row "incrementiTimesMutexLock" 0 (-3) 0;
        Row "incrementiTimesLockGuard" 0 (-3) 0;
        Row "incrementiTimesAtomic" 0 (-3) 0;
        Row "incrementiTimesLocalCounter" 0 (-3) 0]).
Proof. apply (no_workers (-3) 10000). lia. Defined.

(** A [-t] value that is negative or no number gives such a [t]. *)
Example parse_no_workers :
  parse_args ["parcount"; "-t"; "-3"] = (-3, 10000) ∧
  parse_args ["parcount"; "-t"; "four"] = (0, 10000).
Proof. done. Qed.

(** C8.  A trial is about to begin, or the program has ended, only with
    the memory as at the start and no thread in the vector; and when
    [main] has printed the line of a trial, its next step puts the
    memory back to the start, empties the thread vector and moves on to
    the next trial. *)
Theorem shared_state_restored t i sched :
  (at_phase (run sched (boot t i)) = Spawning 0 →
   mem (run sched (boot t i)) = fresh ∧
   threadVector (run sched (boot t i)) = []) ∧
  (at_phase (run sched (boot t i)) = Resetting →
   ∃ s rest v,
     todo (run sched (boot t i)) = s :: rest ∧
     last (out (run sched (boot t i)))
       = Some (Row (function_name s) v t (times_1000 v)) ∧
     start (mem (run sched (boot t i))) = true ∧
     todo (step Main (run sched (boot t i))) = rest ∧
     at_phase (step Main (run sched (boot t i))) = Spawning 0 ∧
     mem (step Main (run sched (boot t i))) = fresh ∧
     threadVector (step Main (run sched (boot t i))) = [] ∧
     out (step Main (run sched (boot t i))) = out (run sched (boot t i))).
Proof.
  pose proof (reachable_inv trials t i sched) as Hinv.
  change (boot_with trials t i) with (boot t i) in *.
  pose proof (step_inv _ _ _ Main _ Hinv) as Hinv'.
  set (c := run sched (boot t i)) in *.
  destruct Hinv as [Ht Hi Hout Htrial]. split.
  - intros Hph. destruct (todo c) as [|s rest].
    + by destruct Htrial as (_ & -> & ->).
    + by eapply trial_start_fresh.
  - intros Hph. destruct (todo c) as [|s rest] eqn:Htodo.
    { destruct Htrial as (Hph' & _). congruence. }
    destruct Hout as (done & rows & Hprog & Ho & Hrows).
    unfold printed in Hrows. rewrite Htodo, Hph in Hrows.
    apply Forall2_app_inv_l in Hrows as (rows' & r & Hrows' & Hr & ->).
    apply Forall2_cons_inv_l in Hr as (l & ? & Hrow & Hnil & ->).
    apply Forall2_nil_inv_l in Hnil as ->.
    destruct l as [|name v th n]; [done|].
    destruct Hrow as (-> & -> & -> & _).
    exists s, rest, v. split; [done|]. split.
    { rewrite Ho, app_comm_cons. apply last_snoc. }
    destruct Htrial as [Hshape _ _ _]. rewrite Hph in Hshape.
    destruct Hshape as (Hopen & _). split; [done|].
    assert (todo (step Main c) = rest ∧
            at_phase (step Main c) = Spawning 0 ∧
            threadVector (step Main c) = [] ∧
            out (step Main c) = out c) as (Htodo' & Hph' & Hths' & Hout').
    { simpl. unfold main_step. by rewrite Htodo, Hph. }
    repeat split; try done.
    destruct Hinv' as [_ _ _ Htrial']. rewrite Htodo' in Htrial'.
    destruct rest as [|s' rest].
    + by destruct Htrial' as (_ & -> & _).
    + by eapply trial_start_fresh.
Qed.

Lemma shared_state_restored_witness :
  let sched := repeat Main 4 ++ repeat (Worker 0) 5 ++ repeat Main 4 in
  at_phase (run sched (boot 1 1)) = Resetting ∧
  start (mem (run sched (boot 1 1))) = true ∧
  sharedCounter (mem (run sched (boot 1 1))) = 1 ∧
  length (threadVector (run sched (boot 1 1))) = 1%nat ∧
  mem (step Main (run sched (boot 1 1))) = fresh ∧
  threadVector (step Main (run sched (boot 1 1))) = [] ∧
  at_phase (step Main (run sched (boot 1 1))) = Spawning 0.
Proof.
  intros sched.
  destruct (shared_state_restored 1 1 sched) as [_ Hreset].
  destruct Hreset as (s & rest & v & _ & _ & _ & _ & Hph & Hmem & Hths & _);
    [reflexivity|].
  repeat split; try reflexivity; assumption.
Defined.

Lemma throughput_negative counter seconds :
  times_1000 counter < 0 → (0 < seconds)%Q →
  (throughput counter seconds < 0)%Q.
Proof.
  intros Hn Hs. unfold throughput, Qdiv.
  assert (inject_Z (times_1000 counter) < 0)%Q as Hq
    by (unfold Qlt, inject_Z; simpl; lia).
  pose proof (Qinv_lt_0_compat _ Hs) as Hinv.
  pose proof (Qmult_lt_compat_r _ _ _ Hinv Hq) as H.
  by rewrite Qmult_0_l in H.
Qed.

(** Where [counter * 1000] stays within [int] the throughput is what
    the formula says, and positive. *)
Lemma throughput_positive counter seconds :
  0 < counter → counter * 1000 ≤ INT_MAX → (0 < seconds)%Q →
  times_1000 counter = counter * 1000 ∧
  (0 < throughput counter seconds)%Q.
Proof.
  intros Hn Hfit Hs.
  assert (times_1000 counter = counter * 1000) as Heq.
  { apply wrap_small. unfold is_int, INT_MIN. lia. }
  split; [done|]. unfold throughput, Qdiv. rewrite Heq.
  apply Qmult_lt_0_compat; [unfold Qlt, inject_Z; simpl; lia|].
  by apply Qinv_lt_0_compat.
Qed.

(** C9 on [parcount -t 4 -i 1000000].  The Atomic trial can only print
    the counter value 4000000 with -294967296 for [counter * 1000], it
    does print that line in a run to the end, and for any positive
    number of seconds the throughput it shows is negative. *)
Theorem throughput_overflow :
  (∀ sched v th n,
     Row (function_name Atomic) v th n
       ∈ out (run sched (main ["parcount"; "-t"; "4"; "-i"; "1000000"])) →
     v = 4000000 ∧ n = -294967296) ∧
  (∃ sched,
     exited (run sched (main ["parcount"; "-t"; "4"; "-i"; "1000000"])) ∧
     Row (function_name Atomic) 4000000 4 (-294967296)
       ∈ out (run sched (main ["parcount"; "-t"; "4"; "-i"; "1000000"]))) ∧
  (∀ seconds, (0 < seconds)%Q → (throughput 4000000 seconds < 0)%Q).
Proof.
  assert (main ["parcount"; "-t"; "4"; "-i"; "1000000"] = boot 4 1000000)
    as -> by reflexivity.
  assert (wrap (4 `max` 0 * 1000000 `max` 0) = 4000000) as Hw
    by reflexivity.
  split; [|split].
  - intros sched v th n Hin.
    apply row_printed in Hin as (s' & _ & Hname & _ & -> & Hfinal).
    apply function_name_inj in Hname as <-. simpl in Hfinal.
    rewrite Hw in Hfinal. by subst.
  - destruct (can_finish 4 1000000) as [sched Hexit].
    exists sched. split; [done|].
    destruct (exited_out _ _ _ Hexit)
      as (v1 & v2 & v3 & v4 & v5 & -> & _ & _ & _ & H4 & _).
    simpl in H4. rewrite Hw in H4. subst v4.
    repeat first [ apply list_elem_of_here | apply list_elem_of_further ].
  - intros seconds Hs. by apply throughput_negative.
Qed.

Lemma throughput_overflow_witness : (throughput 4000000 (1 # 2) < 0)%Q.
Proof.
  destruct throughput_overflow as (_ & _ & Hneg).
  apply Hneg. reflexivity.
Defined.

End Trials.

Import Trials.

(** ** The trace of every run is in order *)

Module HistoryFacts.

(** What a move shows tells what it did to the mutex and to the count of
    the worker. *)
Lemma move_action s me i it m p m' p' a :
  move s me i it m p m' p' a →
  match a with
  | None =>
      sharedCounter_mtx m' = sharedCounter_mtx m ∧
      done_by i p' = done_by i p ∧
      (p' = AtGate ∨ p' = AtLock → p = AtGate)
  | Some Acquire =>
      p = AtLock ∧ p' = AtTest 0 ∧
      sharedCounter_mtx m = None ∧ sharedCounter_mtx m' = Some me
  | Some Increment =>
      sharedCounter_mtx m' = sharedCounter_mtx m ∧
      done_by i p' = done_by i p + 1 ∧ p ≠ AtGate ∧
      p' ≠ AtGate ∧ p' ≠ AtLock ∧
      (uses_mutex s = true → holds_lock p = true)
  | Some Release =>
      uses_mutex s = true ∧ holds_lock p = true ∧
      done_by i p = Z.max i 0 ∧
      sharedCounter_mtx m' = None ∧ p' = Returned
  end.
Proof.
  destruct 1; destruct s; simpl in *; try done; repeat split;
    try done; try lia; try (intros [|]; done).
  all: try (release_cases; done).
  all: release_cases; simpl; lia.
Qed.

Lemma acquired_cons s j e tr :
  acquired s j (e :: tr) = bool_decide (e = EDid s j Acquire) || acquired s j tr.
Proof. done. Qed.

Lemma move_vector_length s me i it m p m' p' a :
  move s me i it m p m' p' a →
  length (localCounterVector m') = length (localCounterVector m).
Proof.
  destruct 1; try done. destruct (is_local s); simpl; [|done].
  by rewrite length_insert.
Qed.

Lemma unseen_cons s e tr :
  strategy_of e ≠ s → unseen s tr → unseen s (e :: tr).
Proof. intros. by constructor. Qed.

Lemma count_unseen_spawn s tr : unseen s tr → count (is_spawn s) tr = 0%nat.
Proof.
  induction 1 as [|e tr He _ IH]; [done|]. simpl. rewrite IH.
  destruct e; simpl in *; try done. by rewrite bool_decide_eq_false_2.
Qed.

Lemma count_unseen_push s tr : unseen s tr → count (is_push s) tr = 0%nat.
Proof.
  induction 1 as [|e tr He _ IH]; [done|]. simpl. rewrite IH.
  destruct e; simpl in *; try done. by rewrite bool_decide_eq_false_2.
Qed.

Lemma count_unseen_open s tr : unseen s tr → count (is_open s) tr = 0%nat.
Proof.
  induction 1 as [|e tr He _ IH]; [done|]. simpl. rewrite IH.
  destruct e; simpl in *; try done. by rewrite bool_decide_eq_false_2.
Qed.

Lemma acquired_unseen s j tr : unseen s tr → acquired s j tr = false.
Proof.
  induction 1 as [|e tr He _ IH]; [done|]. rewrite acquired_cons, IH.
  rewrite bool_decide_eq_false_2; [done|]. by intros ->.
Qed.

Lemma extend_gate s j a tr : gate_open (extend s j a tr) = gate_open tr.
Proof. by destruct a. Qed.

Lemma extend_last_main s j a tr : last_main (extend s j a tr) = last_main tr.
Proof. by destruct a. Qed.

Lemma extend_count_spawn s' s j a tr :
  count (is_spawn s') (extend s j a tr) = count (is_spawn s') tr.
Proof. by destruct a. Qed.

Lemma extend_count_push s' s j a tr :
  count (is_push s') (extend s j a tr) = count (is_push s') tr.
Proof. by destruct a. Qed.

Lemma extend_count_open s' s j a tr :
  count (is_open s') (extend s j a tr) = count (is_open s') tr.
Proof. by destruct a. Qed.

Lemma extend_unseen s' s j a tr :
  s ≠ s' → unseen s' tr → unseen s' (extend s j a tr).
Proof. intros. destruct a; [by apply unseen_cons|done]. Qed.

Lemma extend_acquired_other s j j' a tr :
  j' ≠ j → acquired s j' (extend s j a tr) = acquired s j' tr.
Proof.
  intros Hne. destruct a as [a|]; [|done]. simpl.
  rewrite acquired_cons, bool_decide_eq_false_2; [done|].
  intros [= ? ?]. done.
Qed.

Lemma move_to_gate s me i it m p m' p' a :
  move s me i it m p m' p' a →
  p' = AtGate ∨ p' = AtLock → a = None ∧ p = AtGate.
Proof. destruct 1; destruct s; simpl; intros [|]; done. Qed.

Lemma worker_step_trace prog t0 i0 j c :
  inv prog t0 i0 c → trace_ok c → trace_ok (worker_step j c).
Proof.
  intros [_ _ _ Htrial] Htr. unfold worker_step.
  destruct (threadVector c !! j) as [th|] eqn:Hj; [|done].
  destruct (thread_step j (i c) th (mem c)) as [[[m' p'] a]|] eqn:Hstep;
    [|done].
  destruct c as [t i todo ph m ths ou tr]. simpl in *.
  destruct todo as [|s rest]; [by destruct Htrial as (_ & _ & ->)|].
  destruct Htrial as [Hshape [Hths Hclosed] [Hiff Hown] Hcnt]. simpl in *.
  destruct Htr as [Hnd Hg Hh Hheld Hun Hev [Hsp Hop Hpu Hacq Hrec]]. simpl in *.
  pose proof (Forall_lookup_1 _ _ _ _ Hths Hj) as [Hfn Hpoint].
  pose proof (thread_step_move _ _ _ _ _ _ _ _ Hfn Hpoint Hstep) as Hmove.
  pose proof (move_action _ _ _ _ _ _ _ _ _ Hmove) as Hact.
  pose proof (move_start _ _ _ _ _ _ _ _ _ Hmove) as Hstart.
  pose proof (move_vector_length _ _ _ _ _ _ _ _ _ Hmove) as Hvec.
  pose proof (move_to_gate _ _ _ _ _ _ _ _ _ Hmove) as Hback.
  pose proof (Hiff _ _ Hj) as Hmine.
  pose proof (lookup_lt_Some _ _ _ Hj) as Hlt.
  apply NoDup_cons in Hnd as Hfresh. destruct Hfresh as [Hfresh _].
  assert (pc th ≠ AtGate → gate_open tr = true) as Hpassed.
  { intros Hnot. rewrite Hg. destruct (start m) eqn:Hs; [done|].
    specialize (Hclosed eq_refl).
    by pose proof (Forall_lookup_1 _ _ _ _ Hclosed Hj). }
  change (match a with
          | Some a0 => EDid (fn th) j a0 :: tr
          | None => tr
          end) with (extend (fn th) j a tr).
  rewrite Hfn. split; simpl.
  - done.
  - by rewrite extend_gate, Hstart.
  - destruct a as [[]|]; simpl.
    + by destruct Hact as (_ & _ & _ & ->).
    + destruct Hact as (-> & _). done.
    + by destruct Hact as (_ & _ & _ & -> & _).
    + by destruct Hact as (-> & _).
  - intros o th' Ho Hth'.
    destruct a as [[]|]; simpl.
    + destruct Hact as (_ & -> & _ & Htaken).
      rewrite Htaken in Ho. injection Ho as <-.
      rewrite list_lookup_insert_eq in Hth' by done. by injection Hth' as <-.
    + destruct Hact as (Hmtx & Hdone & _ & _ & _ & Hholds).
      rewrite Hmtx in Ho. destruct (Hown _ Ho) as [tho Htho].
      pose proof (proj2 (Hiff _ _ Htho) Ho) as Hho.
      apply andb_true_iff in Hho as [Hmutex _].
      pose proof (proj1 Hmine) as Hme.
      rewrite Hmutex, (Hholds Hmutex) in Hme. specialize (Hme eq_refl).
      assert (o = j) as -> by congruence.
      rewrite list_lookup_insert_eq in Hth' by done.
      injection Hth' as <-. simpl. rewrite Hdone.
      by rewrite (Hheld _ _ Ho Hj).
    + destruct Hact as (_ & _ & _ & Hfree & _). by rewrite Hfree in Ho.
    + destruct Hact as (Hmtx & Hdone & _). rewrite Hmtx in Ho.
      apply list_lookup_insert_Some in Hth' as [(<- & <- & _)|[Hne Hth']].
      * simpl. rewrite Hdone. by eapply Hheld.
      * by eapply Hheld.
  - intros s' Hs'. apply extend_unseen; [by intros ->|by apply Hun].
  - destruct a as [[]|]; simpl; [| | |done]; (split; [|done]).
    + destruct Hact as (Hp & _ & Hfree & _). repeat split.
      * apply Hpassed. by rewrite Hp.
      * by rewrite Hh.
      * apply Hacq. intros th' Hth'. right. congruence.
    + destruct Hact as (_ & _ & Hnot & _ & _ & Hholds).
      pose proof (Hpassed Hnot) as Hup. split; [done|]. split.
      * rewrite Hop. by rewrite <- Hg, Hup.
      * intros Hmutex. rewrite Hh. apply Hmine. by rewrite Hmutex, Hholds.
    + destruct Hact as (Hmutex & Hholds & Hdone & _).
      pose proof (proj1 Hmine) as Hme. rewrite Hmutex, Hholds in Hme.
      specialize (Hme eq_refl). split; [by rewrite Hh|].
      by rewrite (Hheld _ _ Hme Hj).
  - split; simpl; rewrite ?length_insert.
    + by rewrite extend_count_spawn.
    + by rewrite extend_count_open, Hstart.
    + intros Hl. by rewrite extend_count_push, Hvec, Hpu.
    + intros j' Hj'. destruct (decide (j' = j)) as [->|Hne].
      * specialize (Hj' (Thread s (iterator th) p')).
        rewrite list_lookup_insert_eq in Hj' by done.
        destruct (Hback (Hj' eq_refl)) as [-> Hp]. simpl.
        apply Hacq. intros th' Hth'. left. congruence.
      * rewrite extend_acquired_other by done. apply Hacq.
        intros th' Hth'. apply Hj'. by rewrite list_lookup_insert_ne.
    + by rewrite extend_last_main.
Qed.

Lemma acquired_main s j e tr :
  by_main e = true → acquired s j (e :: tr) = acquired s j tr.
Proof.
  intros He. rewrite acquired_cons, bool_decide_eq_false_2; [done|].
  by intros ->.
Qed.

Lemma held_app_threads (ths : list thread) x o th :
  is_Some (ths !! o) → (ths ++ [x]) !! o = Some th → ths !! o = Some th.
Proof.
  intros Ho%lookup_lt_is_Some Hth. by rewrite lookup_app_l in Hth.
Qed.

Lemma main_step_trace prog t0 i0 c :
  inv prog t0 i0 c → trace_ok c → trace_ok (main_step c).
Proof.
  intros [_ _ _ Htrial] Htr. unfold main_step.
  destruct c as [t i todo ph m ths ou tr]. simpl in *.
  destruct todo as [|s rest]; [done|].
  destruct Htrial as [Hshape [Hths Hclosed] Hlock Hcnt]. simpl in *.
  pose proof Hlock as [Hiff Hown].
  destruct Htr as [Hnd Hg Hh Hheld Hun Hev [Hsp Hop Hpu Hacq Hrec]].
  simpl in *.
  apply NoDup_cons in Hnd as Hfresh. destruct Hfresh as [Hfresh Hnd'].
  assert (∀ e, strategy_of e = s → ∀ s', s' ∈ rest → unseen s' (e :: tr))
    as Hun'.
  { intros e He s' Hs'. apply unseen_cons; [|by apply Hun].
    rewrite He. by intros ->. }
  assert (∀ e x, by_main e = true → ∀ j,
            (∀ th, (ths ++ [x]) !! j = Some th → pc th = AtGate ∨ pc th = AtLock) →
            acquired s j (e :: tr) = false) as Hacq_snoc.
  { intros e x He j Hj. rewrite acquired_main by done.
    apply Hacq. intros th Hth. apply Hj. by apply lookup_app_l_Some. }
  assert (∀ e, by_main e = true → ∀ j,
            (∀ th, ths !! j = Some th → pc th = AtGate ∨ pc th = AtLock) →
            acquired s j (e :: tr) = false) as Hacq_main.
  { intros e He j Hj. rewrite acquired_main by done. by apply Hacq. }
  assert (∀ x o th, sharedCounter_mtx m = Some o →
            (ths ++ [x]) !! o = Some th →
            held_increments tr = done_by i (pc th)) as Hheld_snoc.
  { intros x o th Ho Hth. eapply Hheld; [done|].
    eapply held_app_threads; [by apply Hown|done]. }
  destruct ph as [k|k| | |k| | | |]; simpl in *.
  - (* the creation loop *)
    destruct Hshape as (Hgate & Hk & Hle). pose proof Hop as Hop'. rewrite Hgate in Hop'.
    destruct (k <? t) eqn:Hlt; ltb_to_prop.
    + destruct (is_local s) eqn:Hlocal.
      * assert (length (localCounterVector m) = length ths) as Hslots.
        { destruct s; try done. destruct Hcnt as ([-> _] & _).
          simpl. by rewrite app_nil_r, length_fmap. }
        split; simpl; [done|done|done|done|by apply Hun'| |].
        { split; [|done]. rewrite Hg, Hop', Hpu, Hsp, Hslots by done.
          repeat split; try done. }
        split; simpl; [done|by rewrite Hgate| |by apply Hacq_main|done].
        intros _. rewrite bool_decide_eq_true_2 by done.
        rewrite length_app, Hpu by done. simpl. lia.
      * split; simpl; [done|done|done|by apply Hheld_snoc|by apply Hun'| |].
        { split; [|done]. rewrite Hg, Hop', Hsp, Hlocal.
          repeat split; try done. }
        split; simpl; [|by rewrite Hgate| |by apply Hacq_snoc|done].
        -- rewrite bool_decide_eq_true_2 by done.
           rewrite length_app, Hsp. simpl. lia.
        -- by rewrite Hlocal.
    + split; simpl; [done|done|done|done|done|done|].
      split; simpl; [done|by rewrite Hgate|done|done|done].
  - (* the thread for the slot just appended *)
    destruct Hshape as (Hgate & Hk & Hlt & ->). simpl in *.
    pose proof Hop as Hop'. rewrite Hgate in Hop'.
    split; simpl; [done|done|done|by apply Hheld_snoc|by apply Hun'| |].
    { split; [|done]. rewrite Hg, Hop', Hsp. repeat split; try done.
      intros _. by rewrite Hrec, Hk. }
    split; simpl; [|by rewrite Hgate|done|by apply Hacq_snoc|done].
    rewrite length_app, Hsp. simpl. lia.
  - (* t1 *)
    split; simpl; [done|done|done|done|by apply Hun'|done|].
    split; simpl; [done|done|done|by apply Hacq_main|done].
  - (* start = true *)
    destruct Hshape as (Hgate & Hlen). pose proof Hop as Hop'. rewrite Hgate in Hop'.
    split; simpl; [done|done|done|done|by apply Hun'| |].
    { split; [|done]. unfold spawned in Hlen.
      rewrite Hg, Hop'. repeat split; try done.
      intros Hl. rewrite Hpu by done.
      destruct s; try done. destruct Hcnt as ([-> _] & _).
      simpl. by rewrite app_nil_r, length_fmap. }
    split; simpl; [done| |done|by apply Hacq_main|done].
    by rewrite bool_decide_eq_true_2, Hop'.
  - (* the join loop *)
    destruct Hshape as (Hopen & Hlen & Hle & Hret).
    destruct (ths !! k) as [th|] eqn:Hk.
    + destruct (is_returned th) eqn:Hth.
      * split; simpl; [done|done|done|done|by apply Hun'|done|].
        split; simpl; [done|done|done|by apply Hacq_main|done].
      * by split.
    + apply lookup_ge_None in Hk. assert (k = length ths) as -> by lia.
      assert (∃ e', last_main tr = Some e' ∧ joined t s e') as Hjoined.
      { rewrite Hrec. eexists. split; [done|].
        unfold joined, spawned in *. destruct (length ths) as [|n]; [right|left].
        - split; [lia|done].
        - split; [lia|]. f_equal. lia. }
      split; simpl; [done|done|done|done|done|done|].
      split; simpl; [done|done|done|done|].
      destruct (is_local s) eqn:Hlocal; simpl; [done|]. by rewrite Hlocal.
  - (* the summing loop *)
    destruct Hshape as (Hopen & Hlen & Hall & ->). simpl in *.
    split; simpl; [done|done|done|done|by apply Hun'|done|].
    split; simpl; [done|done|done|by apply Hacq_main|by eexists].
  - (* t2 *)
    split; simpl; [done|done|done|done|by apply Hun'|done|].
    split; simpl; [done|done|done|by apply Hacq_main|done].
  - (* the line *)
    split; simpl; [done|done|done|done|by apply Hun'|done|].
    split; simpl; [done|done|done|by apply Hacq_main|done].
  - (* back to the start *)
    destruct Hshape as (Hopen & Hlen & Hall).
    rewrite (reset_fresh _ _ _ _ _ _ Hopen Hall Hlock Hcnt).
    pose proof (lock_free _ _ _ Hlock Hall) as Hfree.
    split; simpl; [done|done|by rewrite Hh|done| |done|].
    + intros s' Hs'. apply Hun'; [done|].
      destruct rest; [done|]. simpl in Hs'. apply elem_of_cons. by right.
    + destruct rest as [|s' rest']; [done|].
      assert (unseen s' tr) as Hs'.
      { apply Hun. apply elem_of_cons. by left. }
      split; simpl.
      * by apply count_unseen_spawn.
      * by apply count_unseen_open.
      * intros _. by apply count_unseen_push.
      * intros j _. rewrite acquired_main by done.
        by apply acquired_unseen.
      * done.
Qed.

Lemma step_trace prog t0 i0 a c :
  inv prog t0 i0 c → trace_ok c → trace_ok (step a c).
Proof.
  destruct a; [apply main_step_trace | apply worker_step_trace].
Qed.

Lemma run_trace prog t0 i0 sched : ∀ c,
  inv prog t0 i0 c → trace_ok c → trace_ok (run sched c).
Proof.
  induction sched as [|a sched IH]; intros c Hinv Htr; [done|].
  simpl. apply IH; [by apply step_inv | by eapply step_trace].
Qed.

Lemma boot_trace prog t0 i0 :
  NoDup prog → trace_ok (boot_with prog t0 i0).
Proof.
  intros Hnd. split; simpl; try done.
  - intros s Hs. constructor.
  - destruct prog; [done|]. by split.
Qed.

(** The trace of every configuration the program can reach is in order. *)
Lemma reachable_trace prog t0 i0 sched :
  NoDup prog → trace_ok (run sched (boot_with prog t0 i0)).
Proof.
  intros Hnd. eapply run_trace; [apply boot_inv | by apply boot_trace].
Qed.

Lemma trials_nodup : NoDup trials.
Proof. apply (bool_decide_unpack _). by vm_compute. Qed.

(** An event in a trace that is in order is in order itself. *)
Lemma history_ok_at t i later e earlier :
  history_ok t i (later ++ e :: earlier) → event_ok t i e earlier.
Proof.
  induction later as [|x later IH]; simpl; [by intros [? _]|].
  intros [_ H]. by apply IH.
Qed.

End HistoryFacts.

Import HistoryFacts.

(** ** Exchanging MutexLock and LockGuard changes nothing else *)

Module ExchangeFacts.

(** The two functions take the same steps, up to the name of the point
    where the mutex is given back. *)
Lemma lock_guard_as_mutex_lock me i m p :
  incrementiTimesLockGuard me i m (swap_point p)
  = swap_outcome (incrementiTimesMutexLock me i m p).
Proof.
  destruct p; simpl; try done.
  - by destruct (start m).
  - by destruct (sharedCounter_mtx m).
  - by destruct (_ <? _).
Qed.

Lemma mutex_lock_as_lock_guard me i m p :
  incrementiTimesMutexLock me i m (swap_point p)
  = swap_outcome (incrementiTimesLockGuard me i m p).
Proof.
  destruct p; simpl; try done.
  - by destruct (start m).
  - by destruct (sharedCounter_mtx m).
  - by destruct (_ <? _).
Qed.

Lemma thread_step_swap me i th m :
  thread_step me i (swap_thread th) m = swap_outcome (thread_step me i th m).
Proof.
  unfold thread_step. destruct th as [s it p]. simpl.
  destruct s; simpl.
  - destruct p; simpl; try done; by repeat case_match.
  - apply lock_guard_as_mutex_lock.
  - apply mutex_lock_as_lock_guard.
  - destruct p; simpl; try done; by repeat case_match.
  - destruct p; simpl; try done; by repeat case_match.
Qed.

Lemma is_local_swap s : is_local (swap_strategy s) = is_local s.
Proof. by destruct s. Qed.

Lemma reset_swap s m : reset (swap_strategy s) m = reset s m.
Proof. by destruct s. Qed.

Lemma report_swap s t m : report (swap_strategy s) t m = swap_line (report s t m).
Proof. by destruct s. Qed.

Lemma is_returned_swap th : is_returned (swap_thread th) = is_returned th.
Proof. unfold is_returned. destruct th as [s it p]. by destruct p. Qed.

Lemma main_step_swap c : main_step (swap_config c) = swap_config (main_step c).
Proof.
  unfold main_step, swap_config.
  destruct c as [t i todo ph m ths o tr]. simpl.
  destruct todo as [|s rest]; [done|]. simpl.
  destruct ph; simpl; rewrite ?is_local_swap, ?length_fmap.
  - destruct (_ <? _); [|done].
    destruct (is_local s); simpl; by rewrite ?fmap_app.
  - by rewrite fmap_app.
  - done.
  - done.
  - rewrite list_lookup_fmap. destruct (ths !! k) as [th|]; simpl.
    + rewrite is_returned_swap. by destruct (is_returned th).
    + by destruct (is_local s).
  - done.
  - done.
  - by rewrite fmap_app, report_swap.
  - by rewrite reset_swap.
Qed.

Lemma worker_step_swap j c :
  worker_step j (swap_config c) = swap_config (worker_step j c).
Proof.
  unfold worker_step, swap_config.
  destruct c as [t i todo ph m ths o tr]. simpl.
  rewrite list_lookup_fmap. destruct (ths !! j) as [th|]; [|done]. simpl.
  rewrite thread_step_swap.
  destruct (thread_step j i th m) as [[[m' p'] a]|]; [|done]. simpl.
  rewrite list_fmap_insert. by destruct a.
Qed.

Lemma step_swap a c : step a (swap_config c) = swap_config (step a c).
Proof. destruct a; [apply main_step_swap | apply worker_step_swap]. Qed.

Lemma run_swap sched : ∀ c,
  run sched (swap_config c) = swap_config (run sched c).
Proof.
  induction sched as [|a sched IH]; intros c; [done|].
  simpl. by rewrite step_swap, IH.
Qed.

End ExchangeFacts.

Import ExchangeFacts.

(** ** The order of events *)

Module OrderFacts.

Lemma event_in_order t i sched later e earlier :
  trace (run sched (boot t i)) = later ++ e :: earlier →
  event_ok t i e earlier ∧ history_ok t i earlier.
Proof.
  intros Htr.
  destruct (reachable_trace trials t i sched trials_nodup)
    as [_ _ _ _ _ Hev _].
  change (boot_with trials t i) with (boot t i) in Hev.
  assert (Machine.t (run sched (boot t i)) = t ∧
          Machine.i (run sched (boot t i)) = i)
    as [Ht Hi].
  { by destruct (reachable_inv trials t i sched) as [? ? _ _]. }
  rewrite Ht, Hi, Htr in Hev. clear Htr. split.
  - by eapply history_ok_at.
  - induction later as [|x later IH]; simpl in Hev; [by destruct Hev|].
    apply IH. by destruct Hev.
Qed.

(** The newest event of [main] in a trace, with only events of workers
    after it. *)
Lemma last_main_split tr e :
  last_main tr = Some e →
  ∃ mid before,
    tr = mid ++ e :: before ∧ Forall (λ x, by_main x = false) mid.
Proof.
  induction tr as [|x tr IH]; [done|]. simpl.
  destruct (by_main x) eqn:Hx.
  - intros [= ->]. by exists [], tr.
  - intros (mid & before & -> & Hmid)%IH.
    exists (x :: mid), before. split; [done|]. by constructor.
Qed.

Lemma history_ok_app t i later earlier :
  history_ok t i (later ++ earlier) → history_ok t i earlier.
Proof.
  induction later as [|x later IH]; [done|]. simpl. intros [_ H]. auto.
Qed.

(** C3, as the program has it.  In the trials of RaceCondition,
    MutexLock, LockGuard and Atomic the end time is the next thing [main]
    does after the join loop (after joining the last worker, or after
    raising the flag when there is no worker).  In the trial of
    LocalCounter the next thing after the join loop is the summing of
    the slots, and the end time is taken right after the sum: the sum is
    inside the measured time. *)
Theorem clock_end_order t i sched later s earlier :
  trace (run sched (boot t i)) = later ++ EClockEnd s :: earlier →
  ∃ e, last_main earlier = Some e ∧
    if is_local s then
      e = EReduce s ∧
      ∃ mid before e',
        earlier = mid ++ EReduce s :: before ∧
        Forall (λ x, by_main x = false) mid ∧
        last_main before = Some e' ∧ joined t s e'
    else joined t s e.
Proof.
  intros Htr. apply event_in_order in Htr as [(e & He & Hlast) Hearlier].
  exists e. split; [done|].
  destruct (is_local s); [|done]. subst e. split; [done|].
  destruct (last_main_split _ _ He) as (mid & before & -> & Hmid).
  apply history_ok_app in Hearlier. destruct Hearlier as [Hreduce _].
  destruct Hreduce as (e' & He' & Hjoined).
  by exists mid, before, e'.
Qed.

Lemma clock_end_order_witness :
  ∃ e, last_main (drop 3 (trace (run solo (boot 1 1)))) = Some e ∧
       e = EReduce LocalCounter ∧
       ∃ mid before e',
         drop 3 (trace (run solo (boot 1 1)))
           = mid ++ EReduce LocalCounter :: before ∧
         Forall (λ x, by_main x = false) mid ∧
         last_main before = Some e' ∧ joined 1 LocalCounter e'.
Proof.
  assert (trace (run solo (boot 1 1))
          = take 2 (trace (run solo (boot 1 1)))
              ++ EClockEnd LocalCounter
                   :: drop 3 (trace (run solo (boot 1 1)))) as Htr
    by (vm_compute; reflexivity).
  exact (clock_end_order 1 1 solo _ LocalCounter _ Htr).
Defined.

(** C3 as written fails: in a run of one worker and one round the sum of
    the slots comes before the end time of the LocalCounter trial, not
    after it. *)
Lemma reduction_before_clock_end :
  exited (run solo (boot 1 1)) ∧
  ∃ before after,
    history (run solo (boot 1 1))
    = before ++ [EJoin LocalCounter 0; EReduce LocalCounter;
                 EClockEnd LocalCounter] ++ after ∧
    EReduce LocalCounter ∉ after.
Proof.
  split; [by vm_compute|].
  exists (take 41 (history (run solo (boot 1 1)))),
         (drop 44 (history (run solo (boot 1 1)))).
  split; [by vm_compute|].
  apply (bool_decide_unpack _). by vm_compute.
Qed.

Lemma closed_zero t i sched :
  start (mem (run sched (boot t i))) = false →
  Forall (λ th, pc th = AtGate) (threadVector (run sched (boot t i))) ∧
  Forall (λ x, x = 0) (localCounterVector (mem (run sched (boot t i)))).
Proof.
  intros Hclosed.
  destruct (reachable_inv trials t i sched) as [_ Hi _ Htrial].
  change (boot_with trials t i) with (boot t i) in *.
  destruct (todo (run sched (boot t i))) as [|s rest].
  { destruct Htrial as (_ & -> & ->). by split. }
  destruct Htrial as [_ [_ Hgate] _ Hcnt].
  specialize (Hgate Hclosed). split; [done|].
  destruct s; simpl in Hcnt; destruct_and?;
    try match goal with
      | H : localCounterVector _ = [] |- _ => by rewrite H
      end.
  match goal with H : slots_ok _ _ _ _ |- _ => destruct H as [-> _] end.
  apply Forall_app. split.
  - apply Forall_fmap. eapply Forall_impl; [exact Hgate|].
    intros th Hth. unfold slot_of. simpl. by rewrite Hth.
  - destruct (at_phase _); by repeat constructor.
Qed.

(** C4, as the program has it.  In the trial of LocalCounter the slot of
    a worker is appended right before that worker is created, so after
    the workers before it were created; slots are appended only while the
    flag is down and has not been up in this trial; when the flag goes up
    there is a slot for each of the [t] workers; and while the flag is
    down every slot holds 0. *)
Theorem slots_before_gate t i sched :
  (∀ later j earlier,
     trace (run sched (boot t i)) = later ++ ESpawn LocalCounter j :: earlier →
     last_main earlier = Some (EPush LocalCounter (Z.of_nat j)) ∧
     j = count (is_spawn LocalCounter) earlier) ∧
  (∀ later k earlier,
     trace (run sched (boot t i)) = later ++ EPush LocalCounter k :: earlier →
     gate_open earlier = false ∧
     count (is_open LocalCounter) earlier = 0%nat ∧
     k = Z.of_nat (count (is_push LocalCounter) earlier) ∧
     count (is_spawn LocalCounter) earlier
       = count (is_push LocalCounter) earlier) ∧
  (∀ later n earlier,
     trace (run sched (boot t i)) = later ++ EOpen LocalCounter n :: earlier →
     Z.of_nat n = Z.max t 0 ∧
     count (is_push LocalCounter) earlier = n ∧
     count (is_spawn LocalCounter) earlier = n) ∧
  (start (mem (run sched (boot t i))) = false →
   Forall (λ x, x = 0) (localCounterVector (mem (run sched (boot t i))))).
Proof.
  split; [|split; [|split]].
  - intros later j earlier Htr.
    apply event_in_order in Htr as [(_ & _ & Hj & Hpush) _].
    split; [by apply Hpush|done].
  - intros later k earlier Htr.
    by apply event_in_order in Htr as [(? & ? & ? & ?) _].
  - intros later n earlier Htr.
    apply event_in_order in Htr as [(_ & _ & Hn & Hsp & Hpu) _].
    repeat split; auto.
  - intros Hclosed. by apply closed_zero.
Qed.

Lemma slots_before_gate_witness :
  last_main (drop 11 (trace (run duo (boot 2 1))))
  = Some (EPush LocalCounter (Z.of_nat 1)) ∧
  1%nat = count (is_spawn LocalCounter) (drop 11 (trace (run duo (boot 2 1)))).
Proof.
  assert (trace (run duo (boot 2 1))
          = take 10 (trace (run duo (boot 2 1)))
              ++ ESpawn LocalCounter 1
                   :: drop 11 (trace (run duo (boot 2 1)))) as Htr
    by (vm_compute; reflexivity).
  destruct (slots_before_gate 2 1 duo) as (Hspawn & _).
  exact (Hspawn _ _ _ Htr).
Defined.

(** C4 as written fails: with two workers the slot of the second worker
    is appended after the first worker was created. *)
Lemma slot_after_spawn :
  ∃ before after,
    history (run duo (boot 2 1))
    = before ++ [EPush LocalCounter 0; ESpawn LocalCounter 0;
                 EPush LocalCounter 1; ESpawn LocalCounter 1] ++ after.
Proof.
  exists (take 52 (history (run duo (boot 2 1)))),
         (drop 56 (history (run duo (boot 2 1)))).
  by vm_compute.
Qed.

(** C7.  A worker at the gate only reads the flag, and stays there while
    the flag is down; while the flag is down all workers are at the gate;
    an increment happens only with the flag up, raised once in that
    trial; and the flag is raised only when [t] workers (none if [t] is
    negative) have been created in the trial. *)
Theorem gate_semantics t i sched :
  (∀ s me it i' m,
     thread_step me i' (Thread s it AtGate) m
     = Some (m,
             if start m
             then if uses_mutex s then AtLock else AtTest 0
             else AtGate,
             None)) ∧
  (start (mem (run sched (boot t i))) = false →
   Forall (λ th, pc th = AtGate) (threadVector (run sched (boot t i)))) ∧
  (∀ later s j earlier,
     trace (run sched (boot t i)) = later ++ EDid s j Increment :: earlier →
     gate_open earlier = true ∧ count (is_open s) earlier = 1%nat) ∧
  (∀ later s n earlier,
     trace (run sched (boot t i)) = later ++ EOpen s n :: earlier →
     gate_open earlier = false ∧
     Z.of_nat n = Z.max t 0 ∧ count (is_spawn s) earlier = n).
Proof.
  split; [|split; [|split]].
  - intros s me it i' m. unfold thread_step.
    destruct s; simpl; by destruct (start m).
  - intros Hclosed. by apply closed_zero.
  - intros later s j earlier Htr.
    by apply event_in_order in Htr as [(? & ? & _) _].
  - intros later s n earlier Htr.
    by apply event_in_order in Htr as [(? & _ & ? & ? & _) _].
Qed.

Lemma gate_semantics_witness :
  gate_open (drop 8 (trace (run duo (boot 2 1)))) = true ∧
  count (is_open LocalCounter) (drop 8 (trace (run duo (boot 2 1)))) = 1%nat.
Proof.
  assert (trace (run duo (boot 2 1))
          = take 7 (trace (run duo (boot 2 1)))
              ++ EDid LocalCounter 0 Increment
                   :: drop 8 (trace (run duo (boot 2 1)))) as Htr
    by (vm_compute; reflexivity).
  destruct (gate_semantics 2 1 duo) as (_ & _ & Hinc & _).
  exact (Hinc _ _ _ _ Htr).
Defined.

End OrderFacts.

(** ** More on the command line *)

Module ArgvFacts.

Lemma parse_loop_checked_ok fuel : ∀ argv k t i,
  (length argv - k < fuel)%nat →
  parse_loop_checked fuel argv k t i = Some (parse_loop fuel argv k t i).
Proof.
  induction fuel as [|fuel IH]; intros argv k t i Hfuel; [lia|].
  simpl. destruct (Z.of_nat k <? Z.of_nat (length argv) - 1) eqn:Hlt; [|done].
  apply Z.ltb_lt in Hlt.
  destruct (lookup_lt_is_Some_2 argv k) as [x Hx]; [lia|].
  destruct (lookup_lt_is_Some_2 argv (k + 1)) as [v Hv]; [lia|].
  unfold arg. rewrite Hx, Hv. simpl.
  destruct (String.eqb x "-t"); [apply IH; lia|].
  destruct (String.eqb x "-i"); apply IH; lia.
Qed.

Lemma parse_loop_fuel fuel argv k t i :
  (length argv - k ≤ fuel)%nat →
  parse_loop fuel argv k t i = parse_loop (length argv) argv k t i.
Proof.
  intros Hfuel. rewrite !parse_loop_scan; [done|lia|done].
Qed.

(** X1.  The scan of the command line never reads outside [argv]: run
    with reads that fail past [argv[argc - 1]], the loop of [main] still
    ends with a result, the pair [parse_args] gives, on every command
    line, the empty one included; and [argv[0]] has no part in the
    result. *)
Theorem scan_stays_inside argv :
  parse_loop_checked (S (length argv)) argv 1 4 10000
  = Some (parse_args argv) ∧
  ∀ prog prog' tokens,
    parse_args (prog :: tokens) = parse_args (prog' :: tokens).
Proof.
  split.
  - rewrite parse_loop_checked_ok by lia. f_equal. unfold parse_args.
    apply parse_loop_fuel. lia.
  - intros prog prog' tokens. by rewrite !parse_args_scan.
Qed.

Lemma fold_only f items : ∀ p p',
  value_of f p = value_of f p' →
  value_of f (fold_left apply_item items p)
  = value_of f (fold_left apply_item (List.filter (gives f) items) p').
Proof.
  induction items as [|it items IH]; intros p p' Hp; simpl; [done|].
  destruct (gives f it) eqn:Hg; simpl; apply IH.
  - destruct it as [[] v|x], f; simpl in *; try done.
  - destruct it as [[] v|x], f; simpl in *; try done.
Qed.

Lemma gives_ok f items : Forall item_ok (List.filter (gives f) items).
Proof.
  induction items as [|[g v|x] items IH]; simpl; try done.
  destruct g, f; try done; by constructor.
Qed.

(** X2.  [t] depends on the [-t] items only and [i] on the [-i] items
    only: taking away every other item of a command line (the tokens
    that are no flag, the other flag with its value, the token left at
    the end) leaves the value as it was. *)
Theorem flags_do_not_interfere f prog items last :
  Forall item_ok items →
  value_of f (parse_args (prog :: render items ++ trailing last))
  = value_of f (parse_args (prog :: render (List.filter (gives f) items))).
Proof.
  intros Hok. rewrite !parse_args_scan.
  rewrite <- (app_nil_r (render (List.filter _ _))).
  change [] with (trailing None).
  rewrite !scan_render; [|apply gives_ok|done].
  by apply fold_only.
Qed.

Lemma flags_do_not_interfere_witness :
  value_of FlagT
    (parse_args
       ("parcount"
        :: render [Given FlagT "3"; Other "x"; Given FlagI "7";
                   Given FlagT "5"]
        ++ trailing (Some "-i")))
  = value_of FlagT
      (parse_args
         ("parcount"
          :: render (List.filter (gives FlagT)
                       [Given FlagT "3"; Other "x"; Given FlagI "7";
                        Given FlagT "5"]))).
Proof. apply flags_do_not_interfere. repeat constructor. Defined.

Lemma digits_stops acc rest : stops rest → digits acc rest = acc.
Proof. destruct rest as [|a r]; simpl; [done|]. by intros ->. Qed.

(** [digits] reads the digits of a [Decimal.uint] as the number they
    write. *)
Lemma digits_uint d : ∀ acc rest,
  stops rest →
  digits (Z.of_N (DecimalPos.Unsigned.of_lu acc))
    (DecimalString.NilEmpty.string_of_uint d +:+ rest)
  = Z.of_N (DecimalPos.Unsigned.of_lu (Decimal.revapp d acc)).
Proof.
  induction d; intros acc rest Hrest;
    [simpl; by apply digits_stops|..];
    simpl Decimal.revapp; rewrite <- (IHd _ rest) by done;
    simpl; f_equal;
    match goal with
    | |- context [nat_of_ascii ?a] =>
        let v := eval vm_compute in (nat_of_ascii a) in
        change (nat_of_ascii a) with v
    end; lia.
Qed.

Lemma digits_pos p rest :
  stops rest →
  digits 0 (DecimalString.NilEmpty.string_of_uint (Pos.to_uint p) +:+ rest)
  = Z.pos p.
Proof.
  intros Hrest.
  pose proof (digits_uint (Pos.to_uint p) Decimal.Nil rest Hrest) as H.
  simpl in H. rewrite H.
  change (Decimal.revapp (Pos.to_uint p) Decimal.Nil)
    with (Decimal.rev (Pos.to_uint p)).
  rewrite <- DecimalPos.Unsigned.of_uint_alt, DecimalPos.Unsigned.of_to.
  done.
Qed.

Lemma uint_head d :
  d ≠ Decimal.Nil →
  ∃ a r, DecimalString.NilEmpty.string_of_uint d = String a r ∧
         isdigit a = true.
Proof. destruct d; try done; intros _; simpl; by do 2 eexists. Qed.

Lemma digit_plain a :
  isdigit a = true → isspace a = false ∧ a ≠ "-"%char ∧ a ≠ "+"%char.
Proof.
  unfold isdigit, isspace. intros H.
  repeat split; [|intros ->; by vm_compute in H..].
  apply andb_true_iff in H as [H1 H2].
  apply Nat.leb_le in H1. apply Nat.leb_le in H2.
  apply orb_false_iff. split.
  - apply Nat.eqb_neq. lia.
  - apply andb_false_iff. right. apply Nat.leb_gt. lia.
Qed.

Lemma atoi_plain a r :
  isdigit a = true → atoi (String a r) = wrap (digits 0 (String a r)).
Proof.
  intros Ha. destruct (digit_plain a Ha) as (Hsp & Hm & Hp).
  unfold atoi. simpl skip_spaces. rewrite Hsp.
  destruct a as [[] [] [] [] [] [] [] []]; try done.
Qed.

Lemma nonnil_string d :
  d ≠ Decimal.Nil →
  DecimalString.NilZero.string_of_uint d
  = DecimalString.NilEmpty.string_of_uint d.
Proof. by destruct d. Qed.

(** [atoi] reads a numeral as the number it writes, whatever follows
    the digits. *)
Lemma atoi_numeral n rest :
  stops rest → atoi (numeral n +:+ rest) = wrap n.
Proof.
  intros Hrest. unfold numeral. destruct n as [|p|p]; simpl Z.to_int.
  - simpl. unfold atoi. simpl. by rewrite digits_stops.
  - unfold DecimalString.NilZero.string_of_int.
    pose proof (DecimalPos.Unsigned.to_uint_nonnil p) as Hnil.
    pose proof (digits_pos p rest Hrest) as Hd.
    rewrite nonnil_string by done.
    destruct (uint_head _ Hnil) as (a & r & Hs & Ha).
    rewrite Hs in *.
    change (String a r +:+ rest) with (String a (r +:+ rest)) in *.
    rewrite atoi_plain by done. by rewrite Hd.
  - unfold DecimalString.NilZero.string_of_int.
    pose proof (DecimalPos.Unsigned.to_uint_nonnil p) as Hnil.
    pose proof (digits_pos p rest Hrest) as Hd.
    rewrite nonnil_string by done.
    unfold atoi. simpl. by rewrite Hd.
Qed.

(** X3.  [parcount -t A -i B] with the decimal numerals of two [int]s
    gives [t = A] and [i = B]; text after the digits, as in [8x], is
    not looked at. *)
Theorem decimal_arguments prog a b rest_a rest_b :
  is_int a → is_int b → stops rest_a → stops rest_b →
  parse_args [prog; "-t"; numeral a +:+ rest_a; "-i"; numeral b +:+ rest_b]
  = (a, b).
Proof.
  intros Ha Hb Hra Hrb. rewrite parse_args_scan. simpl.
  by rewrite !atoi_numeral, !wrap_small.
Qed.

Lemma decimal_arguments_witness :
  parse_args
    ["parcount"; "-t"; numeral 8 +:+ "x"; "-i"; numeral (-500) +:+ ""]
  = (8, -500).
Proof.
  apply decimal_arguments;
    [unfold is_int, INT_MIN, INT_MAX; lia
    |unfold is_int, INT_MIN, INT_MAX; lia
    |reflexivity
    |exact I].
Defined.

(** X21.  The scan as a fold: every command line is a sequence of items
    (a flag with the token after it, or one token that is no flag) with
    at most one token left at its end, and [parse_args] is the result
    of applying the items one after the other to the defaults
    [(4, 10000)]. *)
Theorem parser_is_a_fold prog :
  (∀ items last,
     Forall item_ok items →
     parse_args (prog :: render items ++ trailing last)
     = fold_left apply_item items (4, 10000)) ∧
  (∀ tokens, ∃ items last,
     Forall item_ok items ∧ tokens = render items ++ trailing last).
Proof.
  split.
  - intros items last Hok. by rewrite parse_args_scan, scan_render.
  - apply render_complete.
Qed.

End ArgvFacts.

Import ArgvFacts.

(** ** Steps, events and the output *)

Module Reach.

(** The trace after a step. *)
Lemma step_trace_event a c :
  trace (step a c)
  = match event_of a c with Some e => e :: trace c | None => trace c end.
Proof.
  destruct a as [|j]; simpl.
  - unfold main_step, main_event. destruct (todo c) as [|s rest]; [done|].
    destruct (at_phase c) as [k|k| | |k| | | |]; simpl; try done.
    + by destruct (k <? t c); [destruct (is_local s)|].
    + destruct (threadVector c !! k) as [th|]; [|done].
      by destruct (is_returned th).
  - unfold worker_step, worker_event.
    destruct (threadVector c !! j) as [th|]; [|done].
    by destruct (thread_step j (i c) th (mem c)) as [[[m p] [a|]]|].
Qed.

(** Every event of a run was added by one of its steps, to the trace of
    the configuration the steps before it had led to. *)
Lemma event_origin sched c0 : ∀ later e earlier,
  trace c0 = [] →
  trace (run sched c0) = later ++ e :: earlier →
  ∃ before a after, sched = before ++ a :: after ∧
    trace (run before c0) = earlier ∧
    event_of a (run before c0) = Some e.
Proof.
  induction sched as [|a sched IH] using rev_ind; intros later e earlier H0 Htr.
  { simpl in Htr. rewrite H0 in Htr. by destruct later. }
  rewrite run_app in Htr. simpl in Htr. rewrite step_trace_event in Htr.
  destruct (event_of a (run sched c0)) as [e'|] eqn:He.
  - destruct later as [|e'' later]; simpl in Htr.
    + injection Htr as -> <-. by exists sched, a, [].
    + injection Htr as -> Htr.
      destruct (IH _ _ _ H0 Htr) as (before & a' & after & -> & ? & ?).
      exists before, a', (after ++ [a]). by rewrite <- app_assoc.
  - destruct (IH _ _ _ H0 Htr) as (before & a' & after & -> & ? & ?).
    exists before, a', (after ++ [a]). by rewrite <- app_assoc.
Qed.

(** Where [main] is when it adds an event. *)
Lemma main_event_phase c e :
  main_event c = Some e →
  ∃ rest, todo c = strategy_of e :: rest ∧
    match e with
    | EPush _ k => at_phase c = Spawning k
    | ESpawn _ j => j = length (threadVector c)
    | EClockStart _ => at_phase c = StartClock
    | EOpen _ n => at_phase c = OpenGate ∧ n = length (threadVector c)
    | EJoin _ k =>
        at_phase c = Joining k ∧
        ∃ th, threadVector c !! k = Some th ∧ pc th = Returned
    | EReduce _ => at_phase c = Reducing
    | EClockEnd _ => at_phase c = StopClock
    | EPrint _ => at_phase c = Printing
    | EReset _ => at_phase c = Resetting
    | EDid _ _ _ => False
    end.
Proof.
  unfold main_event. destruct (todo c) as [|s rest]; [done|].
  destruct (at_phase c) as [k|k| | |k| | | |]; simpl;
    try (intros [= <-]; by exists rest).
  - destruct (k <? t c); [destruct (is_local s)|]; try done;
      intros [= <-]; by exists rest.
  - destruct (threadVector c !! k) as [th|] eqn:Hk; [|done].
    destruct (is_returned th) eqn:Hret; [|done].
    intros [= <-]. exists rest. repeat split. exists th. split; [done|].
    unfold is_returned in Hret. by destruct (pc th).
Qed.

(** The move behind an event of a worker. *)
Lemma worker_event_move j c e :
  worker_event j c = Some e →
  ∃ th m p a, threadVector c !! j = Some th ∧
    thread_step j (i c) th (mem c) = Some (m, p, Some a) ∧
    e = EDid (fn th) j a.
Proof.
  unfold worker_event. destruct (threadVector c !! j) as [th|]; [|done].
  destruct (thread_step j (i c) th (mem c)) as [[[m p] [a|]]|] eqn:Hstep;
    try done.
  intros [= <-]. by exists th, m, p, a.
Qed.

(** While the flag is down a step of a worker changes nothing: the
    worker reads the flag and stays where it is. *)
Lemma worker_step_closed s j c :
  trial_ok s c → start (mem c) = false → worker_step j c = c.
Proof.
  intros [_ [_ Hgate] _ _] Hclosed. unfold worker_step.
  destruct (threadVector c !! j) as [th|] eqn:Hj; [|done].
  pose proof (Forall_lookup_1 _ _ _ _ (Hgate Hclosed) Hj) as Hpc.
  rewrite (thread_step_closed _ _ _ _ Hclosed Hpc).
  destruct th as [f it p]. simpl in *. subst p.
  rewrite (list_insert_id _ _ _ Hj). by destruct c.
Qed.

(** A step either changes nothing (the actor is blocked, spins at the
    closed gate, or does not exist) or brings the end one step nearer. *)
Lemma step_variant prog t0 i0 a c :
  inv prog t0 i0 c →
  step a c = c ∨ measure (step a c) = measure c - 1.
Proof.
  intros Hinv. destruct (todo c) as [|s rest] eqn:Htodo.
  { left. destruct a as [|j]; simpl.
    - unfold main_step. by rewrite Htodo.
    - destruct Hinv as [_ _ _ Htrial]. rewrite Htodo in Htrial.
      destruct Htrial as (_ & _ & Hths). unfold worker_step.
      by rewrite Hths, lookup_nil. }
  destruct a as [|j]; simpl.
  - destruct (at_phase c) as [| | | |k| | | |] eqn:Hph;
      try (right; eapply main_progress; [done|by rewrite Htodo|];
           intros ? ? ?; congruence).
    destruct (threadVector c !! k) as [th|] eqn:Hk;
      [|right; eapply main_progress; [done|by rewrite Htodo|];
        intros ? ? ? ?; congruence].
    destruct (is_returned th) eqn:Hret.
    + right. eapply main_progress; [done|by rewrite Htodo|].
      intros k' th' Hk' Hth'. unfold is_returned in Hret.
      assert (th' = th) as -> by congruence. by destruct (pc th).
    + left. unfold main_step. by rewrite Htodo, Hph, Hk, Hret.
  - pose proof Hinv as [_ _ _ Htrial]. rewrite Htodo in Htrial.
    destruct (start (mem c)) eqn:Hstart;
      [|left; by eapply worker_step_closed].
    destruct (threadVector c !! j) as [th|] eqn:Hj;
      [|left; unfold worker_step; by rewrite Hj].
    destruct (thread_step j (i c) th (mem c)) as [r|] eqn:Hstep;
      [|left; unfold worker_step; by rewrite Hj, Hstep].
    right. by eapply worker_progress.
Qed.

(** The output only grows, at its end. *)
Lemma step_out a c : out c `prefix_of` out (step a c).
Proof.
  destruct a as [|j]; simpl.
  - unfold main_step. destruct (todo c) as [|s rest]; [done|].
    destruct (at_phase c) as [k|k| | |k| | | |]; simpl; try done.
    + by destruct (k <? t c); [destruct (is_local s)|].
    + destruct (threadVector c !! k) as [th|]; [|done].
      by destruct (is_returned th).
    + by apply prefix_app_r.
  - by destruct (worker_step_frame j c) as (_ & _ & _ & _ & ->).
Qed.

Lemma run_out sched : ∀ c, out c `prefix_of` out (run sched c).
Proof.
  induction sched as [|a sched IH]; intros c; [done|]. simpl.
  etrans; [apply (step_out a)|apply IH].
Qed.

End Reach.

Import Reach.

(** ** What the workers do to the memory *)

Module Safety.

Lemma returned_stays me i th m :
  pc th = Returned → thread_step me i th m = None.
Proof. destruct th as [[] it p]; simpl; by intros ->. Qed.

(** X4.  Mutual exclusion, in every configuration the program can
    reach: the mutex is held by worker [j] exactly when worker [j] runs
    [incrementiTimesMutexLock] or [incrementiTimesLockGuard] and is
    between taking and giving back the mutex; so no two workers are in
    the critical section at once; and the mutex is free throughout the
    trials that do not use it and whenever the flag is down. *)
Theorem mutual_exclusion t i sched :
  (∀ j, sharedCounter_mtx (mem (run sched (boot t i))) = Some j ↔
        ∃ th, threadVector (run sched (boot t i)) !! j = Some th ∧
              uses_mutex (fn th) = true ∧ holds_lock (pc th) = true) ∧
  (∀ j1 j2 th1 th2,
     threadVector (run sched (boot t i)) !! j1 = Some th1 →
     threadVector (run sched (boot t i)) !! j2 = Some th2 →
     uses_mutex (fn th1) = true →
     holds_lock (pc th1) = true → holds_lock (pc th2) = true →
     j1 = j2) ∧
  (∀ s rest,
     todo (run sched (boot t i)) = s :: rest → uses_mutex s = false →
     sharedCounter_mtx (mem (run sched (boot t i))) = None) ∧
  (start (mem (run sched (boot t i))) = false →
   sharedCounter_mtx (mem (run sched (boot t i))) = None).
Proof.
  pose proof (reachable_inv trials t i sched) as [_ _ _ Htrial].
  change (boot_with trials t i) with (boot t i) in Htrial.
  set (c := run sched (boot t i)) in *.
  assert (∀ j, sharedCounter_mtx (mem c) = Some j ↔
        ∃ th, threadVector c !! j = Some th ∧
              uses_mutex (fn th) = true ∧ holds_lock (pc th) = true) as Hiff.
  { intros j. destruct (todo c) as [|s rest].
    { destruct Htrial as (_ & -> & ->). simpl. split; [done|].
      intros (th & Hth & _). by rewrite lookup_nil in Hth. }
    destruct Htrial as [_ [Hths _] [Hlock Hown] _]. split.
    - intros Hj. destruct (Hown _ Hj) as [th Hth]. exists th.
      pose proof (Forall_lookup_1 _ _ _ _ Hths Hth) as [-> _].
      split; [done|]. apply andb_true_iff. by apply (Hlock j th Hth).
    - intros (th & Hth & Hm & Hh).
      pose proof (Forall_lookup_1 _ _ _ _ Hths Hth) as [Hfn _].
      apply (Hlock j th Hth). rewrite <- Hfn. by rewrite Hm, Hh. }
  split; [done|]. split; [|split].
  - intros j1 j2 th1 th2 H1 H2 Hm Hh1 Hh2.
    assert (fn th2 = fn th1) as Hfn.
    { destruct (todo c) as [|s rest].
      { destruct Htrial as (_ & _ & Hnil).
        by rewrite Hnil, lookup_nil in H1. }
      destruct Htrial as [_ [Hths _] _ _].
      pose proof (Forall_lookup_1 _ _ _ _ Hths H1) as [-> _].
      by pose proof (Forall_lookup_1 _ _ _ _ Hths H2) as [-> _]. }
    assert (sharedCounter_mtx (mem c) = Some j1) as E1
      by (apply Hiff; by exists th1).
    assert (sharedCounter_mtx (mem c) = Some j2) as E2
      by (apply Hiff; exists th2; by rewrite Hfn).
    congruence.
  - intros s rest Htodo Hs. rewrite Htodo in Htrial.
    destruct (sharedCounter_mtx (mem c)) as [j|] eqn:Hj; [|done].
    destruct (proj1 (Hiff j) eq_refl) as (th & Hth & Hm & _).
    destruct Htrial as [_ [Hths _] _ _].
    pose proof (Forall_lookup_1 _ _ _ _ Hths Hth) as [Hfn _]. congruence.
  - intros Hclosed.
    destruct (sharedCounter_mtx (mem c)) as [j|] eqn:Hj; [|done].
    destruct (proj1 (Hiff j) eq_refl) as (th & Hth & _ & Hh).
    destruct (todo c) as [|s rest].
    { destruct Htrial as (_ & _ & Hnil).
      by rewrite Hnil, lookup_nil in Hth. }
    destruct Htrial as [_ [_ Hgate] _ _].
    pose proof (Forall_lookup_1 _ _ _ _ (Hgate Hclosed) Hth) as Hpc.
    by rewrite Hpc in Hh.
Qed.

(** X5.  [localCounterVector[iterator]] is always inside the vector: in
    every configuration the program can reach, the worker at index [j]
    of a LocalCounter trial was handed [iterator = j], the slot at that
    index exists and holds the number of increments the worker has
    completed (as an [int]), and unless it has returned the worker can
    take its next step. *)
Theorem slots_in_bounds t i sched j th :
  threadVector (run sched (boot t i)) !! j = Some th →
  fn th = LocalCounter →
  iterator th = Z.of_nat j ∧
  localCounterVector (mem (run sched (boot t i))) !! Z.to_nat (iterator th)
    = Some (wrap (done_by i (pc th))) ∧
  (pc th ≠ Returned →
   is_Some (thread_step j i th (mem (run sched (boot t i))))).
Proof.
  intros Hj Hfn.
  pose proof (reachable_inv trials t i sched) as [_ Hi _ Htrial].
  change (boot_with trials t i) with (boot t i) in *.
  set (c := run sched (boot t i)) in *.
  destruct (todo c) as [|s rest].
  { destruct Htrial as (_ & _ & Hnil). by rewrite Hnil, lookup_nil in Hj. }
  destruct Htrial as [_ Hths _ Hcnt].
  pose proof (Forall_lookup_1 _ _ _ _ (proj1 Hths) Hj) as [Hs _].
  rewrite Hfn in Hs. subst s. destruct Hcnt as ([Hvec Hown] & _ & _).
  destruct (Hown _ _ Hj) as [Hit _]. rewrite Hi in *.
  split; [done|]. split.
  - rewrite Hit, Nat2Z.id, Hvec.
    rewrite lookup_app_l by (rewrite length_fmap; by eapply lookup_lt_Some).
    by rewrite list_lookup_fmap, Hj.
  - intros Hnot.
    destruct (thread_enabled LocalCounter i (at_phase c) (mem c)
                (threadVector c) j th Hths) as [H|[Hat _]]; try done.
    pose proof (Forall_lookup_1 _ _ _ _ (proj1 Hths) Hj) as [_ Hp].
    rewrite Hat in Hp. simpl in Hp. by destruct Hp.
Qed.

Lemma slots_in_bounds_witness :
  iterator (Thread LocalCounter 0 (AtStore 0 0)) = Z.of_nat 0 ∧
  localCounterVector (mem (run (take 113 solo) (boot 1 1)))
    !! Z.to_nat (iterator (Thread LocalCounter 0 (AtStore 0 0)))
    = Some (wrap (done_by 1 (pc (Thread LocalCounter 0 (AtStore 0 0))))) ∧
  (pc (Thread LocalCounter 0 (AtStore 0 0)) ≠ Returned →
   is_Some (thread_step 0 1 (Thread LocalCounter 0 (AtStore 0 0))
              (mem (run (take 113 solo) (boot 1 1))))).
Proof.
  assert (threadVector (run (take 113 solo) (boot 1 1)) !! 0%nat
          = Some (Thread LocalCounter 0 (AtStore 0 0))) as Hj
    by (vm_compute; reflexivity).
  exact (slots_in_bounds 1 1 (take 113 solo) 0 _ Hj eq_refl).
Defined.

Lemma done_by_range s i p : point_ok s i p → 0 ≤ done_by i p ≤ Z.max i 0.
Proof. destruct p; simpl; lia. Qed.

Lemma total_range s i ths :
  Forall (λ th, fn th = s ∧ point_ok s i (pc th)) ths →
  0 ≤ total i ths ≤ Z.of_nat (length ths) * Z.max i 0.
Proof.
  induction 1 as [|th ths [_ Hp] _ IH]; [simpl; lia|].
  rewrite total_cons. pose proof (done_by_range _ _ _ Hp).
  simpl length. lia.
Qed.

(** With a thread that is inside its loop the count stays below the
    number of all rounds. *)
Lemma total_below s i ths j th :
  Forall (λ th, fn th = s ∧ point_ok s i (pc th)) ths →
  ths !! j = Some th →
  total i ths ≤ (Z.of_nat (length ths) - 1) * Z.max i 0 + done_by i (pc th).
Proof.
  intros Hths. revert j. induction Hths as [|th' ths [_ Hp] Hths IH];
    intros j Hj; [by rewrite lookup_nil in Hj|].
  rewrite total_cons. simpl length. destruct j as [|j]; simpl in Hj.
  - injection Hj as ->. pose proof (total_range _ _ _ Hths). lia.
  - pose proof (IH _ Hj). pose proof (done_by_range _ _ _ Hp). lia.
Qed.

Lemma sum_range n l :
  Forall (λ x, 0 ≤ x ≤ n) l →
  0 ≤ foldr Z.add 0 l ≤ Z.of_nat (length l) * n.
Proof. induction 1; simpl; lia. Qed.

(** X6.  With [max(t,0) * max(i,0)] within [int] no counter ever leaves
    the range of [int]: in every configuration the program can reach, a
    worker about to write [x + 1] or to fetch-and-add has a value below
    [INT_MAX] before it, both counters lie between 0 and
    [max(t,0) * max(i,0)], every slot lies between 0 and [max(i,0)], and
    the partial sums of the summing loop stay within the same bound. *)
Theorem increments_fit t i sched :
  Z.max t 0 * Z.max i 0 ≤ INT_MAX →
  (∀ j th k x,
     threadVector (run sched (boot t i)) !! j = Some th →
     pc th = AtStore k x → 0 ≤ x < INT_MAX ∧ wrap (x + 1) = x + 1) ∧
  (∀ j th k,
     threadVector (run sched (boot t i)) !! j = Some th →
     pc th = AtFetchAdd k →
     0 ≤ sharedCounterAtomic (mem (run sched (boot t i))) < INT_MAX) ∧
  0 ≤ sharedCounter (mem (run sched (boot t i))) ≤ Z.max t 0 * Z.max i 0 ∧
  0 ≤ sharedCounterAtomic (mem (run sched (boot t i)))
    ≤ Z.max t 0 * Z.max i 0 ∧
  Forall (λ x, 0 ≤ x ≤ Z.max i 0)
    (localCounterVector (mem (run sched (boot t i)))) ∧
  (at_phase (run sched (boot t i)) = Reducing →
   ∀ k, 0 ≤ sharedCounter (mem (run sched (boot t i)))
            + foldr Z.add 0
                (take k (localCounterVector (mem (run sched (boot t i)))))
          ≤ Z.max t 0 * Z.max i 0).
Proof.
  intros Hfit.
  enough ((∀ j th k x,
     threadVector (run sched (boot t i)) !! j = Some th →
     pc th = AtStore k x → 0 ≤ x < INT_MAX ∧ wrap (x + 1) = x + 1) ∧
  (∀ j th k,
     threadVector (run sched (boot t i)) !! j = Some th →
     pc th = AtFetchAdd k →
     0 ≤ sharedCounterAtomic (mem (run sched (boot t i))) < INT_MAX) ∧
  0 ≤ sharedCounter (mem (run sched (boot t i))) ≤ Z.max t 0 * Z.max i 0 ∧
  0 ≤ sharedCounterAtomic (mem (run sched (boot t i)))
    ≤ Z.max t 0 * Z.max i 0 ∧
  Forall (λ x, 0 ≤ x ≤ Z.max i 0)
    (localCounterVector (mem (run sched (boot t i))))) as Hmain.
  { destruct Hmain as (H1 & H2 & H3 & H4 & H5).
    repeat (split; [done|]). intros Hph k.
    pose proof (reachable_inv trials t i sched) as [Ht Hi _ Htrial].
    change (boot_with trials t i) with (boot t i) in *.
    set (c := run sched (boot t i)) in *.
    destruct (todo c) as [|s rest];
      [destruct Htrial as (Hph' & _); congruence|].
    destruct Htrial as [Hshape _ _ Hcnt]. rewrite Hph in Hshape, Hcnt.
    destruct Hshape as (_ & Hsp & _ & ->). destruct Hcnt as ([Hvec _] & Hc & _).
    simpl in Hvec, Hc. rewrite app_nil_r in Hvec. rewrite Hc.
    pose proof (f_equal length Hvec) as Hlen. rewrite length_fmap in Hlen.
    unfold spawned in Hsp. rewrite Ht in Hsp.
    assert (Forall (λ x, 0 ≤ x ≤ Z.max i 0)
              (take k (localCounterVector (mem c)))) as H5'
      by (by apply Forall_take).
    pose proof (sum_range _ _ H5') as Hsum.
    pose proof (length_take (localCounterVector (mem c)) k).
    assert (Z.of_nat (length (take k (localCounterVector (mem c))))
              * Z.max i 0 ≤ Z.max t 0 * Z.max i 0)
      by (apply Z.mul_le_mono_nonneg_r; lia).
    lia. }
  pose proof (reachable_inv trials t i sched) as [Ht Hi _ Htrial].
  change (boot_with trials t i) with (boot t i) in *.
  set (c := run sched (boot t i)) in *.
  assert (INT_MIN ≤ 0 ∧ 0 < INT_MAX) as Hint by (unfold INT_MIN, INT_MAX; lia).
  destruct (todo c) as [|s rest].
  { destruct Htrial as (_ & -> & ->). simpl.
    split; [intros ? ? ? ?; by rewrite lookup_nil|].
    split; [intros ? ? ?; by rewrite lookup_nil|].
    assert (0 ≤ Z.max t 0 * Z.max i 0) by nia.
    split; [lia|]. split; [lia|]. constructor. }
  destruct Htrial as [Hshape [Hths _] _ Hcnt]. rewrite Ht, Hi in *.
  pose proof (shape_threads _ _ _ _ _ Hshape) as Hlen.
  pose proof (total_range _ _ _ Hths) as Htot.
  assert (Z.of_nat (length (threadVector c)) * Z.max i 0
          ≤ Z.max t 0 * Z.max i 0) as Hall
    by (apply Z.mul_le_mono_nonneg_r; lia).
  assert (∀ n, 0 ≤ n ≤ total i (threadVector c) → wrap n = n) as Hsmall.
  { intros n Hn. apply wrap_small. unfold is_int. lia. }
  assert (∀ j th, threadVector c !! j = Some th →
            done_by i (pc th) < Z.max i 0 →
            total i (threadVector c) < Z.max t 0 * Z.max i 0) as Hbelow.
  { intros j th Hj Hlt. pose proof (total_below _ _ _ _ _ Hths Hj). lia. }
  assert (∀ j th k, threadVector c !! j = Some th → 0 ≤ k ≤ Z.max i 0 →
            wrap k = k) as Hround.
  { intros j th k Hj Hk. apply wrap_small. unfold is_int.
    apply lookup_lt_Some in Hj. nia. }
  assert (∀ x, bounded (total i (threadVector c)) x →
            0 ≤ x ≤ total i (threadVector c)) as Hbounded.
  { intros x (n & Hn & ->). rewrite Hsmall; lia. }
  assert (∀ j th k x, threadVector c !! j = Some th → pc th = AtStore k x →
            0 ≤ k < i ∧ s ≠ Atomic ∧
            total i (threadVector c) < Z.max t 0 * Z.max i 0) as Hstore.
  { intros j th k x Hj Hpc.
    pose proof (Forall_lookup_1 _ _ _ _ Hths Hj) as [_ Hp].
    rewrite Hpc in Hp. simpl in Hp. destruct Hp as [Hk Hs].
    repeat split; try done; try lia.
    apply (Hbelow j th Hj). rewrite Hpc. simpl. lia. }
  assert (∀ x, 0 ≤ x < INT_MAX → 0 ≤ x < INT_MAX ∧ wrap (x + 1) = x + 1)
    as Hnext.
  { intros x Hx. split; [done|]. apply wrap_small. unfold is_int. lia. }
  assert (Forall (λ x, 0 ≤ x ≤ Z.max i 0) (slot_of i <$> threadVector c))
    as Hslots.
  { apply Forall_fmap, Forall_lookup_2. intros j th Hj. simpl.
    pose proof (Forall_lookup_1 _ _ _ _ Hths Hj) as [_ Hp].
    pose proof (done_by_range _ _ _ Hp). unfold slot_of.
    rewrite (Hround j th); [lia|done|lia]. }
  assert (0 ≤ Z.max t 0 * Z.max i 0) as Hprod by nia.
  assert (∀ j th k, threadVector c !! j = Some th → pc th = AtFetchAdd k →
            s = Atomic ∧
            total i (threadVector c) < Z.max t 0 * Z.max i 0) as Hfetch.
  { intros j th k Hj Hpc.
    pose proof (Forall_lookup_1 _ _ _ _ Hths Hj) as [_ Hp].
    rewrite Hpc in Hp. simpl in Hp. destruct Hp as [Hk Hs].
    split; [done|]. apply (Hbelow j th Hj). rewrite Hpc. simpl. lia. }
  destruct s; simpl in Hcnt; (split; [|split; [|split; [|split]]]);
    try (intros j th k Hj Hpc; by destruct (Hfetch _ _ _ Hj Hpc)).
  - destruct Hcnt as ([Hc Hx] & _ & _ & _).
    intros j th k x Hj Hpc. apply Hnext.
    destruct (Hstore _ _ _ _ Hj Hpc) as (_ & _ & Hlt).
    pose proof (Hbounded _ (Hx _ _ _ _ Hj Hpc)). lia.
  - destruct Hcnt as ([Hc Hx] & _ & _ & _). apply Hbounded in Hc. lia.
  - destruct Hcnt as (_ & _ & -> & _). lia.
  - destruct Hcnt as (_ & _ & _ & ->). constructor.
  - destruct Hcnt as ([Hc Hx] & _ & _). rewrite Hsmall in Hc by lia.
    intros j th k x Hj Hpc. apply Hnext.
    destruct (Hstore _ _ _ _ Hj Hpc) as (_ & _ & Hlt).
    rewrite (Hx _ _ _ _ Hj Hpc), Hc. lia.
  - destruct Hcnt as ([Hc Hx] & _ & _). rewrite Hsmall in Hc by lia. lia.
  - destruct Hcnt as (_ & -> & _). lia.
  - destruct Hcnt as (_ & _ & ->). constructor.
  - destruct Hcnt as ([Hc Hx] & _ & _). rewrite Hsmall in Hc by lia.
    intros j th k x Hj Hpc. apply Hnext.
    destruct (Hstore _ _ _ _ Hj Hpc) as (_ & _ & Hlt).
    rewrite (Hx _ _ _ _ Hj Hpc), Hc. lia.
  - destruct Hcnt as ([Hc Hx] & _ & _). rewrite Hsmall in Hc by lia. lia.
  - destruct Hcnt as (_ & -> & _). lia.
  - destruct Hcnt as (_ & _ & ->). constructor.
  - intros j th k x Hj Hpc.
    by destruct (Hstore _ _ _ _ Hj Hpc) as (_ & ? & _).
  - intros j th k Hj Hpc. destruct Hcnt as (-> & _ & _).
    destruct (Hfetch _ _ _ Hj Hpc) as [_ Hlt]. rewrite Hsmall; lia.
  - destruct Hcnt as (_ & -> & _). lia.
  - destruct Hcnt as (-> & _ & _). rewrite Hsmall; lia.
  - destruct Hcnt as (_ & _ & ->). constructor.
  - destruct Hcnt as ([Hvec Hown] & Hc & _).
    intros j th k x Hj Hpc. apply Hnext.
    destruct (Hstore _ _ _ _ Hj Hpc) as (Hk & _ & _).
    destruct (Hown _ _ Hj) as [_ Hx]. rewrite (Hx _ _ Hpc).
    rewrite (Hround j th); [|done|lia].
    apply lookup_lt_Some in Hj. nia.
  - destruct Hcnt as (_ & -> & _).
    destruct (reduced (at_phase c)); [|lia]. rewrite Hsmall; lia.
  - destruct Hcnt as (_ & _ & ->). lia.
  - destruct Hcnt as ([-> _] & _ & _). apply Forall_app. split; [done|].
    destruct (at_phase c); simpl; try done.
    apply Forall_singleton. lia.
Qed.

Lemma increments_fit_witness :
  0 ≤ sharedCounter (mem (run (take 10 solo) (boot 1 1)))
    ≤ Z.max 1 0 * Z.max 1 0.
Proof.
  assert (Z.max 1 0 * Z.max 1 0 ≤ INT_MAX) as Hfit
    by (unfold INT_MAX; simpl; lia).
  exact (proj1 (proj2 (proj2 (increments_fit 1 1 (take 10 solo) Hfit)))).
Defined.

(** X7.  What a step of a worker leaves alone: no worker function
    writes the flag; only [incrementiTimesAtomic] writes the atomic
    counter; only the three functions on the plain counter write it;
    only MutexLock and LockGuard touch the mutex; only LocalCounter
    writes the vector, never changes its length and writes no slot but
    the one at [iterator]; a step that is no increment leaves all
    counters as they are, and a silent step leaves the whole memory. *)
Theorem worker_frame me i th m m' p' a :
  thread_step me i th m = Some (m', p', a) →
  start m' = start m ∧
  (fn th ≠ Atomic → sharedCounterAtomic m' = sharedCounterAtomic m) ∧
  (is_plain (fn th) = false → sharedCounter m' = sharedCounter m) ∧
  (uses_mutex (fn th) = false → sharedCounter_mtx m' = sharedCounter_mtx m) ∧
  (fn th ≠ LocalCounter → localCounterVector m' = localCounterVector m) ∧
  length (localCounterVector m') = length (localCounterVector m) ∧
  (∀ k, k ≠ Z.to_nat (iterator th) →
        localCounterVector m' !! k = localCounterVector m !! k) ∧
  (a ≠ Some Increment →
   sharedCounter m' = sharedCounter m ∧
   sharedCounterAtomic m' = sharedCounterAtomic m ∧
   localCounterVector m' = localCounterVector m) ∧
  (a = None → m' = m).
Proof.
  destruct th as [s it p], m as [st mtx cnt atm vec]. unfold thread_step.
  simpl fn. simpl pc. simpl iterator.
  destruct s, p; simpl; intros Hstep; try discriminate Hstep;
    repeat match goal with
      | H : match ?x with _ => _ end = _ |- _ => destruct x eqn:?; simpl in H
      end;
    try discriminate Hstep;
    injection Hstep as <- <- <-; simpl;
    repeat split; try done;
    try (by rewrite length_insert);
    try (intros k Hk; by rewrite list_lookup_insert_ne).
Qed.

Lemma worker_frame_witness :
  length (localCounterVector (Memory true None 0 0 [7; 6]))
  = length (localCounterVector (Memory true None 0 0 [7; 5])) ∧
  (∀ k, k ≠ Z.to_nat (iterator (Thread LocalCounter 1 (AtStore 0 5))) →
        localCounterVector (Memory true None 0 0 [7; 6]) !! k
        = localCounterVector (Memory true None 0 0 [7; 5]) !! k).
Proof.
  assert (thread_step 0 3 (Thread LocalCounter 1 (AtStore 0 5))
            (Memory true None 0 0 [7; 5])
          = Some (Memory true None 0 0 [7; 6], AtTest 1, Some Increment))
    as Hstep by reflexivity.
  pose proof (worker_frame _ _ _ _ _ _ _ Hstep) as H.
  exact (conj (proj1 (proj2 (proj2 (proj2 (proj2 (proj2 H))))))
           (proj1 (proj2 (proj2 (proj2 (proj2 (proj2 (proj2 H)))))))).
Defined.

Lemma worker_step_after j c th :
  threadVector c !! j = Some th →
  mem (worker_step j c)
    = (after (thread_step j (i c) th (mem c)) (mem c) (pc th)).1 ∧
  threadVector (worker_step j c)
    = <[j := Thread (fn th) (iterator th)
              (after (thread_step j (i c) th (mem c)) (mem c) (pc th)).2]>
        (threadVector c).
Proof.
  intros Hj. unfold worker_step. rewrite Hj.
  destruct (thread_step j (i c) th (mem c)) as [[[m p] a]|]; simpl; [done|].
  split; [done|]. destruct th. simpl. by rewrite list_insert_id.
Qed.

Lemma local_apart i m itj itk pj pk :
  Z.to_nat itj ≠ Z.to_nat itk →
  let rk := incrementiTimesLocalCounter itk i m pk in
  let rj := incrementiTimesLocalCounter itj i m pj in
  let mk := (after rk m pk).1 in
  let mj := (after rj m pj).1 in
  (after (incrementiTimesLocalCounter itj i mk pj) mk pj).1
  = (after (incrementiTimesLocalCounter itk i mj pk) mj pk).1 ∧
  (after (incrementiTimesLocalCounter itj i mk pj) mk pj).2
  = (after rj m pj).2 ∧
  (after (incrementiTimesLocalCounter itk i mj pk) mj pk).2
  = (after rk m pk).2.
Proof.
  intros Hne. cbv zeta. destruct m as [st mtx cnt atm vec].
  destruct pj, pk; simpl; try done;
    repeat match goal with
      | |- context [vec !! ?n] =>
          let H := fresh in destruct (vec !! n) eqn:H; simpl
      | |- context [<[_:=_]> vec !! _] =>
          rewrite list_lookup_insert_ne by done; simpl
      | H : vec !! ?n = _ |- context [vec !! ?n] => rewrite H; simpl
      end;
    try done; try (repeat split; congruence).
  unfold set_localCounterVector. simpl.
  by rewrite list_insert_insert_ne.
Qed.

Lemma atomic_apart i m pj pk :
  let rk := incrementiTimesAtomic i m pk in
  let rj := incrementiTimesAtomic i m pj in
  let mk := (after rk m pk).1 in
  let mj := (after rj m pj).1 in
  (after (incrementiTimesAtomic i mk pj) mk pj).1
  = (after (incrementiTimesAtomic i mj pk) mj pk).1 ∧
  (after (incrementiTimesAtomic i mk pj) mk pj).2 = (after rj m pj).2 ∧
  (after (incrementiTimesAtomic i mj pk) mj pk).2 = (after rk m pk).2.
Proof.
  cbv zeta. destruct m as [st mtx cnt atm vec].
  by destruct pj, pk.
Qed.

Lemma worker_step_length j c :
  length (threadVector (worker_step j c)) = length (threadVector c).
Proof.
  unfold worker_step. destruct (threadVector c !! j) as [th|]; [|done].
  destruct (thread_step j (i c) th (mem c)) as [[[m p] a]|]; [|done].
  simpl. by rewrite length_insert.
Qed.

Lemma worker_step_none j c :
  threadVector c !! j = None → worker_step j c = c.
Proof. intros Hj. unfold worker_step. by rewrite Hj. Qed.

(** X8.  In the Atomic and the LocalCounter trial the workers do not
    get in each other's way: from every configuration the program can
    reach in such a trial, a step of worker [j] followed by one of
    worker [k] leaves the same memory and the same threads as the two
    steps the other way round. *)
Theorem workers_apart t i sched j k :
  j ≠ k →
  (∃ rest, todo (run sched (boot t i)) = Atomic :: rest ∨
           todo (run sched (boot t i)) = LocalCounter :: rest) →
  mem (worker_step j (worker_step k (run sched (boot t i))))
  = mem (worker_step k (worker_step j (run sched (boot t i)))) ∧
  threadVector (worker_step j (worker_step k (run sched (boot t i))))
  = threadVector (worker_step k (worker_step j (run sched (boot t i)))).
Proof.
  intros Hne [rest Hs].
  pose proof (reachable_inv trials t i sched) as [_ _ _ Htrial].
  change (boot_with trials t i) with (boot t i) in *.
  set (c := run sched (boot t i)) in *.
  destruct (threadVector c !! j) as [thj|] eqn:Hj.
  2:{ rewrite (worker_step_none j c Hj).
      assert (threadVector (worker_step k c) !! j = None) as Hj'.
      { apply lookup_ge_None. rewrite worker_step_length.
        by apply lookup_ge_None. }
      by rewrite (worker_step_none j _ Hj'). }
  destruct (threadVector c !! k) as [thk|] eqn:Hk.
  2:{ rewrite (worker_step_none k c Hk).
      assert (threadVector (worker_step j c) !! k = None) as Hk'.
      { apply lookup_ge_None. rewrite worker_step_length.
        by apply lookup_ge_None. }
      by rewrite (worker_step_none k _ Hk'). }
  destruct (worker_step_after j c thj Hj) as [Hmj Hvj].
  destruct (worker_step_after k c thk Hk) as [Hmk Hvk].
  assert (threadVector (worker_step k c) !! j = Some thj) as Hj'
    by (by rewrite Hvk, list_lookup_insert_ne).
  assert (threadVector (worker_step j c) !! k = Some thk) as Hk'
    by (by rewrite Hvj, list_lookup_insert_ne).
  destruct (worker_step_after j _ thj Hj') as [-> ->].
  destruct (worker_step_after k _ thk Hk') as [-> ->].
  destruct (worker_step_frame j c) as (_ & -> & _).
  destruct (worker_step_frame k c) as (_ & -> & _).
  rewrite Hmj, Hmk, Hvj, Hvk. clear Hmj Hmk Hvj Hvk Hj' Hk'.
  rewrite (list_insert_insert_ne _ j k) by done.
  assert (∃ s, fn thj = s ∧ fn thk = s ∧ (s = Atomic ∨ s = LocalCounter) ∧
               (s = LocalCounter →
                iterator thj = Z.of_nat j ∧ iterator thk = Z.of_nat k))
    as (s & Hfj & Hfk & Hcase & Hit).
  { destruct Hs as [Hs|Hs]; rewrite Hs in Htrial;
      destruct Htrial as [_ [Hths _] _ Hcnt];
      pose proof (Forall_lookup_1 _ _ _ _ Hths Hj) as [Hfj _];
      pose proof (Forall_lookup_1 _ _ _ _ Hths Hk) as [Hfk _];
      eexists; (split; [done|]); (split; [done|]); (split; [auto|]);
      try done.
    intros _. destruct Hcnt as ([_ Hown] & _).
    destruct (Hown _ _ Hj) as [? _]. by destruct (Hown _ _ Hk) as [? _]. }
  unfold thread_step. rewrite Hfj, Hfk.
  destruct Hcase as [-> | ->].
  - destruct (atomic_apart (Machine.i c) (mem c) (pc thj) (pc thk))
      as (H1 & H2 & H3).
    simpl in H1, H2, H3. by rewrite H1, H2, H3.
  - destruct (Hit eq_refl) as [Hij Hik].
    destruct (local_apart (Machine.i c) (mem c) (iterator thj) (iterator thk)
                (pc thj) (pc thk)) as (H1 & H2 & H3); [lia|].
    simpl in H1, H2, H3. by rewrite H1, H2, H3.
Qed.

Lemma workers_apart_witness :
  mem (worker_step 0 (worker_step 1 (run (take 187 duo) (boot 2 1))))
  = mem (worker_step 1 (worker_step 0 (run (take 187 duo) (boot 2 1)))) ∧
  threadVector
    (worker_step 0 (worker_step 1 (run (take 187 duo) (boot 2 1))))
  = threadVector
      (worker_step 1 (worker_step 0 (run (take 187 duo) (boot 2 1)))).
Proof.
  assert (todo (run (take 187 duo) (boot 2 1)) = LocalCounter :: [])
    as Htodo by (vm_compute; reflexivity).
  assert (0%nat ≠ 1%nat) as Hne by discriminate.
  exact (workers_apart 2 1 (take 187 duo) 0 1 Hne
           (ex_intro _ [] (or_intror Htodo))).
Defined.

(** X20.  No more threads or slots than [t]: in every configuration the
    program can reach the thread vector and the slot vector hold at most
    [max(t,0)] elements, and exactly [max(t,0)] threads exist whenever
    the flag is up. *)
Theorem threads_bounded t i sched :
  Z.of_nat (length (threadVector (run sched (boot t i)))) ≤ Z.max t 0 ∧
  Z.of_nat (length (localCounterVector (mem (run sched (boot t i)))))
    ≤ Z.max t 0 ∧
  (start (mem (run sched (boot t i))) = true →
   Z.of_nat (length (threadVector (run sched (boot t i)))) = Z.max t 0).
Proof.
  pose proof (reachable_inv trials t i sched) as [Ht _ _ Htrial].
  change (boot_with trials t i) with (boot t i) in *.
  set (c := run sched (boot t i)) in *.
  destruct (todo c) as [|s rest].
  { destruct Htrial as (_ & -> & ->). simpl. repeat split; [lia..|done]. }
  destruct Htrial as [Hshape _ _ Hcnt]. rewrite Ht in *.
  pose proof (shape_threads _ _ _ _ _ Hshape) as Hlen.
  split; [done|]. split.
  - destruct s; simpl in Hcnt;
      try (destruct Hcnt as (_ & _ & ->); simpl; lia);
      try (destruct Hcnt as (_ & _ & _ & ->); simpl; lia).
    destruct Hcnt as ([-> _] & _). rewrite length_app, length_fmap.
    destruct (at_phase c); simpl in *; try lia.
  - intros Hopen. by destruct (shape_open _ _ _ _ _ Hshape Hopen).
Qed.

End Safety.

Import Safety.

(** ** When the work is done *)

Module Timing.

(** A worker that moves does so while [main] is in the join loop, at a
    thread not yet joined. *)
Lemma worker_moves prog t0 i0 j c :
  inv prog t0 i0 c →
  worker_step j c = c ∨
  ∃ s rest k th, todo c = s :: rest ∧ at_phase c = Joining k ∧ (k ≤ j)%nat ∧
    start (mem c) = true ∧ threadVector c !! j = Some th ∧ fn th = s.
Proof.
  intros [_ _ _ Htrial].
  destruct (threadVector c !! j) as [th|] eqn:Hj;
    [|left; unfold worker_step; by rewrite Hj].
  destruct (todo c) as [|s rest] eqn:Htodo.
  { destruct Htrial as (_ & _ & Hnil). by rewrite Hnil, lookup_nil in Hj. }
  destruct (start (mem c)) eqn:Hstart;
    [|left; by eapply worker_step_closed].
  pose proof Htrial as [Hshape [Hths _] _ _].
  pose proof (Forall_lookup_1 _ _ _ _ Hths Hj) as [Hfn _].
  assert (pc th = Returned → worker_step j c = c) as Hret.
  { intros Hpc. unfold worker_step. by rewrite Hj, returned_stays. }
  destruct (at_phase c) as [k|k| | |k| | | |] eqn:Hph; simpl in Hshape;
    destruct_and?; try congruence;
    try (left; apply Hret;
         match goal with
         | H : all_returned _ |- _ => apply (Forall_lookup_1 _ _ _ _ H Hj)
         end).
  destruct (decide (j < k)%nat) as [Hlt|Hge].
  - left. apply Hret. eauto.
  - right. exists s, rest, k, th. repeat split; try done. lia.
Qed.

(** X9.  Workers make progress only while [main] is in its join loop:
    in every configuration the program can reach, a step of worker [j]
    changes nothing unless the flag is up and [main] waits at the join
    of a thread [k <= j]; and in the trace, right before any acquire,
    increment or release of worker [j], the newest event of [main] is
    the raising of the flag (with all [max(t,0)] threads) or the join of
    a thread before [j].  In particular a thread that was joined does
    nothing more. *)
Theorem work_inside_join_loop t i sched :
  (∀ j, worker_step j (run sched (boot t i)) = run sched (boot t i) ∨
        ∃ k, at_phase (run sched (boot t i)) = Joining k ∧ (k ≤ j)%nat ∧
             start (mem (run sched (boot t i))) = true) ∧
  (∀ later s j a earlier,
     trace (run sched (boot t i)) = later ++ EDid s j a :: earlier →
     last_main earlier = Some (EOpen s (Z.to_nat (Z.max t 0))) ∨
     ∃ k, (k < j)%nat ∧ last_main earlier = Some (EJoin s k)).
Proof.
  split.
  - intros j.
    destruct (worker_moves trials t i j _ (reachable_inv trials t i sched))
      as [H|(s & rest & k & th & _ & Hph & Hle & Hstart & _)]; [by left|].
    right. by exists k.
  - intros later s j a earlier Htr.
    destruct (event_origin sched (boot t i) later _ earlier eq_refl Htr)
      as (before & who & after & _ & Hearlier & Hevent).
    pose proof (reachable_inv trials t i before) as Hinv.
    pose proof (reachable_trace trials t i before trials_nodup) as Htrace.
    change (boot_with trials t i) with (boot t i) in *.
    set (c := run before (boot t i)) in *.
    destruct who as [|j']; simpl in Hevent;
      [by destruct (main_event_phase _ _ Hevent) as (? & _ & ?)|].
    destruct (worker_event_move _ _ _ Hevent)
      as (th & m & p & a' & Hj & Hstep & [= -> -> ->]).
    destruct (worker_moves trials t i j' c Hinv)
      as [Hsame|(s' & rest & k & th' & Htodo & Hph & Hle & Hstart & Hj' & Hfn)].
    { pose proof (step_trace_event (Worker j') c) as Hst. simpl in Hst.
      rewrite Hevent, Hsame in Hst.
      apply (f_equal length) in Hst. simpl in Hst. lia. }
    assert (th' = th) as -> by congruence. subst s'.
    destruct Htrace as [_ _ _ _ _ _ Htrial]. rewrite Htodo in Htrial.
    destruct Htrial as [_ _ _ _ Hrecent]. rewrite Hph, Hearlier in Hrecent.
    simpl in Hrecent.
    destruct Hinv as [Ht _ _ Hok]. rewrite Htodo in Hok.
    destruct Hok as [Hshape _ _ _]. rewrite Hph in Hshape.
    destruct Hshape as (_ & Hspawned & _). unfold spawned in Hspawned.
    destruct k as [|k].
    + left. rewrite Hrecent. do 2 f_equal. rewrite Ht in Hspawned. lia.
    + right. exists k. split; [lia|done].
Qed.

Lemma step_clock_read a c : clock_read c → clock_read (step a c).
Proof.
  intros Hc Hph. rewrite step_trace_event. destruct a as [|j]; simpl in *.
  - unfold main_step, main_event in *.
    destruct (todo c) as [|s rest] eqn:Htodo.
    { destruct (Hc Hph) as (? & ? & ? & _). congruence. }
    destruct (at_phase c) as [k|k| | |k| | | |] eqn:Hph'; simpl in *;
      try done.
    + by destruct (k <? t c); [destruct (is_local s)|].
    + by exists s, rest.
    + destruct (threadVector c !! k) as [th|]; simpl in *.
      * destruct (is_returned th); simpl in *; [done|]. congruence.
      * by destruct (is_local s).
  - destruct (worker_step_frame j c) as (_ & _ & Htodo & Hph' & _).
    rewrite Hph' in Hph. rewrite Htodo.
    destruct (Hc Hph) as (s & rest & -> & Hlast). exists s, rest.
    split; [done|]. destruct (worker_event j c) as [e|] eqn:He; [|done].
    destruct (worker_event_move _ _ _ He) as (? & ? & ? & ? & _ & _ & ->).
    done.
Qed.

Lemma run_clock_read sched : ∀ c, clock_read c → clock_read (run sched c).
Proof.
  induction sched as [|a sched IH]; intros c Hc; [done|].
  simpl. by apply IH, step_clock_read.
Qed.

(** X10.  The clock is started with all workers created and right
    before the flag is raised: the event of [main] before any
    [EOpen s n] is [EClockStart s], and when [EClockStart s] happens all
    [max(t,0)] threads of the trial have been created, the flag is down
    and was not raised in the trial before.  So all threads of a trial
    are created before its clock is started. *)
Theorem clock_start_order t i sched :
  (∀ later s n earlier,
     trace (run sched (boot t i)) = later ++ EOpen s n :: earlier →
     last_main earlier = Some (EClockStart s)) ∧
  (∀ later s earlier,
     trace (run sched (boot t i)) = later ++ EClockStart s :: earlier →
     Z.of_nat (count (is_spawn s) earlier) = Z.max t 0 ∧
     count (is_open s) earlier = 0%nat ∧ gate_open earlier = false).
Proof.
  split.
  - intros later s n earlier Htr.
    destruct (event_origin sched (boot t i) later _ earlier eq_refl Htr)
      as (before & who & after & _ & Hearlier & Hevent).
    assert (clock_read (run before (boot t i))) as Hread
      by (by apply run_clock_read).
    destruct who as [|j]; simpl in Hevent;
      [|by destruct (worker_event_move _ _ _ Hevent)
          as (? & ? & ? & ? & _ & _ & ?)].
    destruct (main_event_phase _ _ Hevent) as (rest & Htodo & Hph & _).
    destruct (Hread Hph) as (s' & rest' & Htodo' & Hlast).
    rewrite <- Hearlier, Hlast. simpl in Htodo. congruence.
  - intros later s earlier Htr.
    destruct (event_origin sched (boot t i) later _ earlier eq_refl Htr)
      as (before & who & after & _ & Hearlier & Hevent).
    pose proof (reachable_inv trials t i before) as Hinv.
    pose proof (reachable_trace trials t i before trials_nodup) as Htrace.
    change (boot_with trials t i) with (boot t i) in *.
    set (c := run before (boot t i)) in *.
    destruct who as [|j]; simpl in Hevent;
      [|by destruct (worker_event_move _ _ _ Hevent)
          as (? & ? & ? & ? & _ & _ & ?)].
    destruct (main_event_phase _ _ Hevent) as (rest & Htodo & Hph).
    simpl in Htodo.
    destruct Hinv as [Ht _ _ Htrial]. rewrite Htodo in Htrial.
    destruct Htrial as [Hshape _ _ _]. rewrite Hph in Hshape.
    destruct Hshape as [Hclosed Hsp]. unfold spawned in Hsp.
    destruct Htrace as [_ Hgate _ _ _ _ Htt]. rewrite Htodo in Htt.
    destruct Htt as [Hspawns Hopens _ _ _].
    rewrite Hearlier, Hclosed in *. by rewrite Hspawns, Hsp, Ht.
Qed.

Lemma count_unseen_increment s j tr :
  unseen s tr → count (is_increment s j) tr = 0%nat.
Proof.
  induction 1 as [|e tr He _ IH]; [done|]. simpl. rewrite IH.
  unfold is_increment. rewrite bool_decide_eq_false_2; [done|].
  intros ->. by apply He.
Qed.

Lemma count_main_event s j e tr :
  by_main e = true →
  count (is_increment s j) (e :: tr) = count (is_increment s j) tr.
Proof.
  intros He. simpl. unfold is_increment at 1.
  rewrite bool_decide_eq_false_2; [done|]. by intros ->.
Qed.

Lemma main_event_by_main c e : main_event c = Some e → by_main e = true.
Proof.
  intros He. destruct (main_event_phase _ _ He) as (_ & _ & H).
  by destruct e.
Qed.

Lemma main_step_counted prog t0 i0 c :
  inv prog t0 i0 c → trace_ok c → counted c → counted (main_step c).
Proof.
  intros Hinv Htrace Hc s rest j.
  pose proof (step_trace_event Main c) as Htr. simpl in Htr.
  assert (∀ s', count (is_increment s' j) (trace (main_step c))
                = count (is_increment s' j) (trace c)) as Hcount.
  { intros s'. rewrite Htr.
    destruct (main_event c) as [e|] eqn:He; [|done].
    apply count_main_event. by eapply main_event_by_main. }
  rewrite Hcount. clear Htr Hcount.
  unfold main_step.
  destruct (todo c) as [|s0 rest0] eqn:Htodo; [by rewrite Htodo|].
  pose proof (Hc s0 rest0 j Htodo) as Hj.
  assert (∀ x, pc x = AtGate →
            match (threadVector c ++ [x]) !! j with
            | Some th => done_by (i c) (pc th)
            | None => 0
            end
            = match threadVector c !! j with
              | Some th => done_by (i c) (pc th)
              | None => 0
              end) as Hspawn.
  { intros x Hx. destruct (threadVector c !! j) as [th|] eqn:Hlook.
    - by rewrite (lookup_app_l_Some _ _ _ _ Hlook).
    - apply lookup_ge_None in Hlook.
      destruct (decide (j = length (threadVector c))) as [->|Hne].
      + rewrite lookup_app_r, Nat.sub_diag by lia. simpl. by rewrite Hx.
      + rewrite (proj2 (lookup_ge_None _ _)); [done|].
        rewrite length_app. simpl. lia. }
  destruct (at_phase c) as [k|k| | |k| | | |] eqn:Hph; simpl;
    try (intros [= <- <-]; simpl; done).
  - destruct (k <? t c); [destruct (is_local s0)|]; simpl;
      intros [= <- <-]; simpl; rewrite ?Hspawn; done.
  - intros [= <- <-]. simpl. by rewrite Hspawn.
  - destruct (threadVector c !! k) as [th|]; simpl.
    + destruct (is_returned th); simpl; [|rewrite Htodo];
        intros [= <- <-]; simpl; done.
    + intros [= <- <-]. simpl. done.
  - intros ->. rewrite ?lookup_nil.
    destruct Htrace as [_ _ _ _ Hunseen _ _]. rewrite Htodo in Hunseen.
    rewrite count_unseen_increment; [done|].
    apply Hunseen. simpl. apply elem_of_cons. by left.
Qed.

Lemma worker_step_counted prog t0 i0 j0 c :
  inv prog t0 i0 c → counted c → counted (worker_step j0 c).
Proof.
  intros Hinv Hc s rest j Htodo.
  destruct (worker_step_frame j0 c) as (_ & Hi & Htodo' & _).
  rewrite Htodo' in Htodo. pose proof (Hc s rest j Htodo) as Hj.
  unfold worker_step in *.
  destruct (threadVector c !! j0) as [th|] eqn:Hj0; [|done].
  destruct (thread_step j0 (i c) th (mem c)) as [[[m p] a]|] eqn:Hstep;
    [|done].
  simpl. destruct Hinv as [_ _ _ Htrial]. rewrite Htodo in Htrial.
  destruct Htrial as [_ [Hths _] _ _].
  pose proof (Forall_lookup_1 _ _ _ _ Hths Hj0) as [Hfn Hp].
  pose proof (thread_step_move _ _ _ _ _ _ _ _ Hfn Hp Hstep) as Hmove.
  pose proof (move_done _ _ _ _ _ _ _ _ _ Hmove) as Hdone.
  destruct (decide (j = j0)) as [->|Hne].
  - rewrite list_lookup_insert_eq by (by eapply lookup_lt_Some).
    simpl. rewrite Hj0 in Hj. rewrite Hdone, <- Hj, Hfn.
    destruct a as [[]|]; simpl; try lia; unfold is_increment at 1;
      rewrite ?bool_decide_eq_true_2 by done;
      rewrite ?bool_decide_eq_false_2 by done; lia.
  - rewrite list_lookup_insert_ne by done. rewrite <- Hj.
    destruct a as [a|]; simpl; [|done]. unfold is_increment at 1.
    rewrite bool_decide_eq_false_2; [done|]. intros [= _ ? _]. done.
Qed.

Lemma run_counted prog t0 i0 sched : ∀ c,
  inv prog t0 i0 c → trace_ok c → counted c → counted (run sched c).
Proof.
  induction sched as [|a sched IH]; intros c Hinv Htrace Hc; [done|].
  simpl. apply IH; [by apply step_inv|by eapply step_trace|].
  destruct a; simpl; [by eapply main_step_counted|
                      by eapply worker_step_counted].
Qed.

Lemma reachable_counted t i sched : counted (run sched (boot t i)).
Proof.
  apply (run_counted trials t i); [apply boot_inv|
    apply boot_trace, trials_nodup|].
  intros s rest j _. done.
Qed.

(** X11.  Every worker does its [max(i,0)] increments, whether they get
    lost or not: when [main] joins thread [j] of a trial the trace shows
    exactly [max(i,0)] increments of that worker, and at no time does it
    show more. *)
Theorem every_worker_increments t i sched :
  (∀ later s j earlier,
     trace (run sched (boot t i)) = later ++ EJoin s j :: earlier →
     Z.of_nat (count (is_increment s j) earlier) = Z.max i 0) ∧
  (∀ s rest j,
     todo (run sched (boot t i)) = s :: rest →
     Z.of_nat (count (is_increment s j) (trace (run sched (boot t i))))
     ≤ Z.max i 0).
Proof.
  split.
  - intros later s j earlier Htr.
    destruct (event_origin sched (boot t i) later _ earlier eq_refl Htr)
      as (before & who & after & _ & Hearlier & Hevent).
    pose proof (reachable_counted t i before) as Hc.
    pose proof (reachable_inv trials t i before) as [_ Hi _ _].
    change (boot_with trials t i) with (boot t i) in *.
    destruct who as [|j']; simpl in Hevent;
      [|by destruct (worker_event_move _ _ _ Hevent)
          as (? & ? & ? & ? & _ & _ & ?)].
    destruct (main_event_phase _ _ Hevent)
      as (rest & Htodo & Hph & th & Hj & Hret).
    simpl in Htodo.
    rewrite <- Hearlier, (Hc _ _ j Htodo), Hj, Hret, Hi. done.
  - intros s rest j Htodo.
    pose proof (reachable_counted t i sched) as Hc.
    pose proof (reachable_inv trials t i sched) as [_ Hi _ Htrial].
    change (boot_with trials t i) with (boot t i) in *.
    rewrite (Hc _ _ j Htodo), Hi. rewrite Htodo in Htrial.
    destruct Htrial as [_ [Hths _] _ _]. rewrite Hi in Hths.
    destruct (threadVector (run sched (boot t i)) !! j) as [th|] eqn:Hj;
      [|lia].
    pose proof (Forall_lookup_1 _ _ _ _ Hths Hj) as [_ Hp].
    pose proof (done_by_range _ _ _ Hp). lia.
Qed.

Lemma count_unseen_increment_of s tr :
  unseen s tr → count (is_increment_of s) tr = 0%nat.
Proof.
  induction 1 as [|e tr He _ IH]; [done|]. simpl. rewrite IH.
  destruct e as [| | | | | | | | |s' j []]; simpl; try done.
  rewrite bool_decide_eq_false_2; [done|]. intros ->. by apply He.
Qed.

Lemma main_step_tallied prog t0 i0 c :
  inv prog t0 i0 c → trace_ok c → tallied c → tallied (main_step c).
Proof.
  intros Hinv Htrace Hc s rest.
  pose proof (step_trace_event Main c) as Htr. simpl in Htr.
  assert (∀ s', count (is_increment_of s') (trace (main_step c))
                = count (is_increment_of s') (trace c)) as Hcount.
  { intros s'. rewrite Htr.
    destruct (main_event c) as [e|] eqn:He; [|done].
    pose proof (main_event_by_main _ _ He). by destruct e. }
  rewrite Hcount. clear Htr Hcount.
  unfold main_step.
  destruct (todo c) as [|s0 rest0] eqn:Htodo; [by rewrite Htodo|].
  pose proof (Hc s0 rest0 Htodo) as Hj.
  destruct (at_phase c) as [k|k| | |k| | | |] eqn:Hph; simpl;
    try (intros [= <- <-]; simpl; done).
  - destruct (k <? t c); [destruct (is_local s0)|]; simpl;
      intros [= <- <-]; simpl; rewrite ?total_snoc; done.
  - intros [= <- <-]. simpl. by rewrite total_snoc.
  - destruct (threadVector c !! k) as [th|]; simpl.
    + destruct (is_returned th); simpl; [|rewrite Htodo];
        intros [= <- <-]; simpl; done.
    + intros [= <- <-]. simpl. done.
  - intros ->. destruct Htrace as [_ _ _ _ Hunseen _ _].
    rewrite Htodo in Hunseen.
    rewrite count_unseen_increment_of; [done|].
    apply Hunseen. simpl. apply elem_of_cons. by left.
Qed.

Lemma worker_step_tallied prog t0 i0 j c :
  inv prog t0 i0 c → tallied c → tallied (worker_step j c).
Proof.
  intros Hinv Hc s rest Htodo.
  destruct (worker_step_frame j c) as (_ & Hi & Htodo' & _).
  rewrite Htodo' in Htodo. pose proof (Hc s rest Htodo) as Hj.
  unfold worker_step in *.
  destruct (threadVector c !! j) as [th|] eqn:Hlook; [|done].
  destruct (thread_step j (i c) th (mem c)) as [[[m p] a]|] eqn:Hstep;
    [|done].
  simpl. destruct Hinv as [_ _ _ Htrial]. rewrite Htodo in Htrial.
  destruct Htrial as [_ [Hths _] _ _].
  pose proof (Forall_lookup_1 _ _ _ _ Hths Hlook) as [Hfn Hp].
  pose proof (thread_step_move _ _ _ _ _ _ _ _ Hfn Hp Hstep) as Hmove.
  rewrite (total_move _ _ _ _ _ _ _ _ _ _ _ Hmove Hlook eq_refl), <- Hj.
  rewrite Hfn.
  destruct a as [[]|]; simpl; rewrite ?bool_decide_eq_true_2 by done; lia.
Qed.

Lemma run_tallied prog t0 i0 sched : ∀ c,
  inv prog t0 i0 c → trace_ok c → tallied c → tallied (run sched c).
Proof.
  induction sched as [|a sched IH]; intros c Hinv Htrace Hc; [done|].
  simpl. apply IH; [by apply step_inv|by eapply step_trace|].
  destruct a; simpl; [by eapply main_step_tallied|
                      by eapply worker_step_tallied].
Qed.

Lemma reachable_tallied t i sched : tallied (run sched (boot t i)).
Proof.
  apply (run_tallied trials t i); [apply boot_inv|
    apply boot_trace, trials_nodup|].
  intros s rest _. done.
Qed.

(** X18.  The counter follows the increments, at every moment of every
    run: in the MutexLock and LockGuard trials the shared counter, and
    in the Atomic trial the atomic counter, is the number of increments
    the workers of the trial have done so far (as an [int]); in the
    LocalCounter trial every slot is the number of increments of its
    worker; in the RaceCondition trial the shared counter shows (as an
    [int]) some number between 0 and the number of increments done. *)
Theorem counter_tracks_increments t i sched s rest :
  todo (run sched (boot t i)) = s :: rest →
  match s with
  | RaceCondition =>
      bounded
        (Z.of_nat (count (is_increment_of s) (trace (run sched (boot t i)))))
        (sharedCounter (mem (run sched (boot t i))))
  | MutexLock | LockGuard =>
      sharedCounter (mem (run sched (boot t i)))
      = wrap (Z.of_nat
                (count (is_increment_of s) (trace (run sched (boot t i)))))
  | Atomic =>
      sharedCounterAtomic (mem (run sched (boot t i)))
      = wrap (Z.of_nat
                (count (is_increment_of s) (trace (run sched (boot t i)))))
  | LocalCounter =>
      ∀ j th, threadVector (run sched (boot t i)) !! j = Some th →
        localCounterVector (mem (run sched (boot t i))) !! j
        = Some (wrap (Z.of_nat
                        (count (is_increment s j)
                           (trace (run sched (boot t i))))))
  end.
Proof.
  intros Htodo.
  pose proof (reachable_tallied t i sched _ _ Htodo) as Hsum.
  pose proof (reachable_counted t i sched) as Hone.
  pose proof (reachable_inv trials t i sched) as [_ Hi _ Htrial].
  change (boot_with trials t i) with (boot t i) in *.
  rewrite Htodo in Htrial. destruct Htrial as [_ _ _ Hcnt].
  rewrite Hsum. destruct s; simpl in Hcnt.
  - by destruct Hcnt as ([Hc _] & _).
  - by destruct Hcnt as ([Hc _] & _).
  - by destruct Hcnt as ([Hc _] & _).
  - by destruct Hcnt as (Hc & _).
  - intros j th Hj. rewrite (Hone _ _ j Htodo), Hj.
    destruct Hcnt as ([Hvec _] & _). rewrite Hvec.
    rewrite lookup_app_l by (rewrite length_fmap; by eapply lookup_lt_Some).
    by rewrite list_lookup_fmap, Hj.
Qed.

Lemma counter_tracks_increments_witness :
  sharedCounter (mem (run (take 37 solo) (boot 1 1)))
  = wrap (Z.of_nat
            (count (is_increment_of MutexLock)
               (trace (run (take 37 solo) (boot 1 1))))).
Proof.
  assert (todo (run (take 37 solo) (boot 1 1))
          = MutexLock :: [LockGuard; Atomic; LocalCounter]) as Htodo
    by (vm_compute; reflexivity).
  exact (counter_tracks_increments 1 1 (take 37 solo) MutexLock _ Htodo).
Defined.

End Timing.

Import Timing.

(** ** The length of a run *)

Module Termination.

Lemma measure_boot t i :
  measure (boot t i) = Z.max t 0 * (14 * Z.max i 0 + 25) + 36.
Proof.
  unfold measure, boot, boot_with, trials. simpl.
  unfold trial_cost, main_left, left, body, after_loop. simpl. lia.
Qed.

Lemma measure_moves prog t0 i0 sched : ∀ c,
  inv prog t0 i0 c →
  measure (run sched c) + Z.of_nat (moves sched c) = measure c.
Proof.
  induction sched as [|a sched IH]; intros c Hinv; simpl; [lia|].
  pose proof (IH _ (step_inv _ _ _ a _ Hinv)) as Hrest.
  destruct (decide (step a c = c)) as [Hsame|Hmoved].
  - rewrite Hsame in *. lia.
  - destruct (step_variant _ _ _ a _ Hinv); [done|lia].
Qed.

Lemma measure_nonneg prog t0 i0 c : inv prog t0 i0 c → 0 ≤ measure c.
Proof.
  intros Hinv. destruct (todo c) as [|s rest] eqn:Htodo.
  - unfold measure. by rewrite Htodo.
  - enough (0 < measure c) by lia. eapply measure_pos; [done|].
    by rewrite Htodo.
Qed.

Lemma finish_in prog t0 i0 (n : nat) : ∀ c,
  inv prog t0 i0 c → measure c = Z.of_nat n →
  ∃ sched, length sched = n ∧ moves sched c = n ∧ exited (run sched c).
Proof.
  induction n as [|n IH]; intros c Hinv Hn.
  - exists []. repeat split. unfold exited.
    destruct (todo c) eqn:Htodo; [done|].
    assert (0 < measure c); [|lia].
    eapply measure_pos; [done|]. by rewrite Htodo.
  - destruct (todo c) as [|s rest] eqn:Htodo.
    { unfold measure in Hn. rewrite Htodo in Hn. lia. }
    destruct (progress _ _ _ _ Hinv) as [a Ha]; [by rewrite Htodo|].
    destruct (IH (step a c)) as (sched & Hlen & Hmoves & Hsched).
    + by apply step_inv.
    + lia.
    + exists (a :: sched). simpl. rewrite Hlen, Hmoves. repeat split; [|done].
      destruct (decide (step a c = c)) as [Hsame|]; [|done].
      rewrite Hsame in Ha. lia.
Qed.

(** X12.  The length of a run: a schedule makes at most
    [max(t,0) * (14 * max(i,0) + 25) + 36] steps that change the
    configuration, the program has ended exactly when that many were
    made, before that someone can always move, and the end can be
    reached with as many further steps as are missing.  A step that
    changes nothing, as that of a worker spinning at the closed gate or
    of [main] waiting at a join, is not counted. *)
Theorem work_is_bounded t i sched :
  Z.of_nat (moves sched (boot t i))
    ≤ Z.max t 0 * (14 * Z.max i 0 + 25) + 36 ∧
  (exited (run sched (boot t i)) ↔
   Z.of_nat (moves sched (boot t i))
     = Z.max t 0 * (14 * Z.max i 0 + 25) + 36) ∧
  (exited (run sched (boot t i)) ∨
   ∃ a, step a (run sched (boot t i)) ≠ run sched (boot t i)) ∧
  ∃ more,
    Z.of_nat (length more)
      = Z.max t 0 * (14 * Z.max i 0 + 25) + 36
        - Z.of_nat (moves sched (boot t i)) ∧
    exited (run (sched ++ more) (boot t i)).
Proof.
  pose proof (reachable_inv trials t i sched) as Hinv.
  pose proof (measure_moves trials t i sched _ (boot_inv trials t i)) as Hm.
  change (boot_with trials t i) with (boot t i) in *.
  rewrite measure_boot in Hm.
  pose proof (measure_nonneg _ _ _ _ Hinv) as Hpos.
  assert (exited (run sched (boot t i)) ↔ measure (run sched (boot t i)) = 0)
    as Hexit.
  { unfold exited. split.
    - intros Hnil. unfold measure. by rewrite Hnil.
    - intros Hzero. destruct (todo (run sched (boot t i))) eqn:Htodo; [done|].
      assert (0 < measure (run sched (boot t i))); [|lia].
      eapply measure_pos; [done|]. by rewrite Htodo. }
  split; [lia|]. split; [rewrite Hexit; lia|]. split.
  - destruct (todo (run sched (boot t i))) as [|s rest] eqn:Htodo;
      [by left|right].
    destruct (progress _ _ _ _ Hinv) as [a Ha]; [by rewrite Htodo|].
    exists a. intros Hsame. rewrite Hsame in Ha. lia.
  - destruct (finish_in trials t i
                (Z.to_nat (measure (run sched (boot t i)))) _ Hinv)
      as (more & Hlen & _ & Hmore); [lia|].
    exists more. rewrite run_app. split; [lia|done].
Qed.

Lemma measure_run_le prog t0 i0 sched c :
  inv prog t0 i0 c → measure (run sched c) ≤ measure c.
Proof.
  intros Hinv. pose proof (measure_moves prog t0 i0 sched c Hinv). lia.
Qed.

(** A stretch of a schedule changes nothing only if none of its steps
    can change anything. *)
Lemma run_idle prog t0 i0 segment : ∀ c,
  inv prog t0 i0 c →
  (∀ a, a ∈ segment → step a c = c) ∨ measure (run segment c) < measure c.
Proof.
  induction segment as [|a segment IH]; intros c Hinv.
  { left. intros a Ha. by apply elem_of_nil in Ha. }
  simpl. destruct (step_variant _ _ _ a _ Hinv) as [Hsame|Hless].
  - rewrite Hsame. destruct (IH c Hinv) as [Hall|Hless]; [left|by right].
    intros a' Ha'. apply elem_of_cons in Ha' as [->|Ha']; auto.
  - right.
    pose proof (measure_run_le prog t0 i0 segment (step a c)
                  (step_inv _ _ _ a _ Hinv)). lia.
Qed.

Lemma fair_progress prog t0 i0 segment c :
  inv prog t0 i0 c → fair (Z.to_nat (Z.max t0 0)) segment →
  todo c ≠ [] → measure (run segment c) < measure c.
Proof.
  intros Hinv [Hmain Hworkers] Hrun.
  destruct (run_idle prog t0 i0 segment c Hinv) as [Hidle|Hless]; [|done].
  exfalso. destruct (progress _ _ _ _ Hinv Hrun) as [a Ha].
  assert (a ∈ segment) as Hin.
  { destruct a as [|j]; [done|]. apply Hworkers.
    destruct (threadVector c !! j) as [th|] eqn:Hj.
    - apply lookup_lt_Some in Hj. pose proof Hinv as [Ht _ _ Htrial].
      destruct (todo c) as [|s rest]; [done|].
      destruct Htrial as [Hshape _ _ _].
      pose proof (shape_threads _ _ _ _ _ Hshape). lia.
    - simpl in Ha. unfold worker_step in Ha. rewrite Hj in Ha. lia. }
  rewrite (Hidle a Hin) in Ha. lia.
Qed.

Lemma fair_run prog t0 i0 segments : ∀ c,
  inv prog t0 i0 c →
  Forall (fair (Z.to_nat (Z.max t0 0))) segments →
  measure (run (concat segments) c)
  ≤ Z.max 0 (measure c - Z.of_nat (length segments)).
Proof.
  induction segments as [|segment segments IH]; intros c Hinv Hfair.
  { simpl. pose proof (measure_nonneg _ _ _ _ Hinv). lia. }
  apply Forall_cons in Hfair as [Hseg Hfair].
  simpl concat. rewrite run_app.
  assert (inv prog t0 i0 (run segment c)) as Hinv' by (by apply run_inv).
  pose proof (IH _ Hinv' Hfair) as Hrest.
  pose proof (measure_nonneg _ _ _ _ Hinv').
  destruct (todo c) as [|s rest] eqn:Htodo.
  - pose proof (measure_run_le prog t0 i0 segment c Hinv) as Hle.
    unfold measure in Hle at 2. rewrite Htodo in Hle. simpl length. lia.
  - pose proof (fair_progress prog t0 i0 segment c Hinv Hseg) as Hless.
    rewrite Htodo in Hless. specialize (Hless ltac:(done)).
    simpl length. lia.
Qed.

(** X19.  Under a fair schedule the program ends: continue any run by
    [max(t,0) * (14 * max(i,0) + 25) + 36] stretches, each of which
    gives [main] and every one of the [max(t,0)] workers at least one
    turn in whatever order, and the program has ended; round-robin
    scheduling is one such schedule. *)
Theorem fair_schedules_terminate t i sched segments :
  Forall (fair (Z.to_nat (Z.max t 0))) segments →
  Z.max t 0 * (14 * Z.max i 0 + 25) + 36 ≤ Z.of_nat (length segments) →
  exited (run (sched ++ concat segments) (boot t i)).
Proof.
  intros Hfair Hlen. rewrite run_app.
  pose proof (reachable_inv trials t i sched) as Hinv.
  change (boot_with trials t i) with (boot t i) in *.
  pose proof (fair_run trials t i segments _ Hinv Hfair) as Hm.
  pose proof (measure_run_le trials t i sched (boot t i) (boot_inv _ _ _))
    as Hle.
  change (boot_with trials t i) with (boot t i) in *.
  rewrite measure_boot in Hle.
  assert (inv trials t i (run (concat segments) (run sched (boot t i))))
    as Hinv' by (by apply run_inv).
  pose proof (measure_nonneg _ _ _ _ Hinv').
  unfold exited.
  destruct (todo (run (concat segments) (run sched (boot t i)))) eqn:Htodo;
    [done|].
  assert (0 < measure (run (concat segments) (run sched (boot t i))));
    [|lia].
  eapply measure_pos; [done|]. by rewrite Htodo.
Qed.

Lemma fair_schedules_terminate_witness :
  exited (run ([] ++ concat (replicate 75 [Main; Worker 0])) (boot 1 1)).
Proof.
  apply fair_schedules_terminate.
  - apply Forall_replicate. split.
    + apply elem_of_cons. by left.
    + intros j Hj. apply elem_of_cons. right. apply elem_of_cons. left.
      f_equal. change (Z.to_nat (Z.max 1 0)) with 1%nat in Hj. lia.
  - rewrite length_replicate. lia.
Defined.

End Termination.

Import Termination.

(** ** The lines of the output *)

Module Lines.

Lemma rows_of t i ss ls :
  Forall2 (row_ok t i) ss ls →
  ∃ vs, ls = rows t ss vs ∧ Forall2 (λ s v, final_ok s t i v) ss vs.
Proof.
  induction 1 as [|s l ss ls Hrow _ (vs & -> & Hvs)].
  - by exists [].
  - destruct l as [|name v th n]; simpl in Hrow; [done|].
    destruct Hrow as (-> & -> & -> & Hv). exists (v :: vs).
    split; [done|]. by constructor.
Qed.

Lemma rows_more t ss more vs :
  length vs = length ss → rows t (ss ++ more) vs = rows t ss vs.
Proof.
  revert vs. induction ss as [|s ss IH]; intros [|v vs] Hlen; simpl in *;
    try done.
  - by destruct more.
  - unfold rows in *. simpl. f_equal. apply IH. lia.
Qed.

(** X13.  The output at any moment of any run is the header followed by
    the lines of the first trials in their fixed order, each with [t] in
    the Threads column, [counter * 1000] as an [int] and a counter value
    the trial may end with; a finished program has printed all five; and
    the output only grows, at its end. *)
Theorem output_shape t i sched :
  (∃ vs, out (run sched (boot t i)) = header :: rows t trials vs ∧
         (length vs ≤ 5)%nat ∧
         Forall2 (λ s v, final_ok s t i v) (take (length vs) trials) vs ∧
         (exited (run sched (boot t i)) → length vs = 5%nat)) ∧
  ∀ more, out (run sched (boot t i))
            `prefix_of` out (run (sched ++ more) (boot t i)).
Proof.
  split; [|intros more; rewrite run_app; apply run_out].
  destruct (reachable_inv trials t i sched) as [_ _ Hout _].
  change (boot_with trials t i) with (boot t i) in *.
  destruct Hout as (done & ls & Hprog & Ho & Hrows).
  destruct (rows_of _ _ _ _ Hrows) as (vs & -> & Hvs).
  pose proof (Forall2_length _ _ _ Hvs) as Hlen.
  assert (∃ more, trials = printed done (run sched (boot t i)) ++ more)
    as [more Hmore].
  { unfold printed.
    destruct (todo (run sched (boot t i))) as [|s rest]; [by eexists|].
    destruct (at_phase (run sched (boot t i)));
      try (by eexists). exists rest. by rewrite <- app_assoc. }
  exists vs. rewrite Ho, Hmore, rows_more by done.
  split; [done|].
  pose proof (f_equal length Hmore) as Hfive. rewrite length_app in Hfive.
  simpl in Hfive. split; [lia|]. split.
  - rewrite take_app_length'; [done|lia].
  - unfold exited. intros Hnil. unfold printed in *. rewrite Hnil in *.
    rewrite app_nil_r in Hprog. subst done. by rewrite <- Hlen.
Qed.

(** X14.  Where [t * i * 1000] fits in an [int] (and [t, i >= 1]) the
    fourth column is right: every printed line has a counter value
    between 0 and [t * i] and [counter * 1000] without overflow; for the
    four synchronized trials the counter is [t * i] and the throughput
    is [t * i * 1000 / seconds], positive for positive seconds. *)
Theorem throughput_in_range t i :
  1 ≤ t → 1 ≤ i → t * i * 1000 ≤ INT_MAX →
  ∀ sched s v th n,
    Row (function_name s) v th n ∈ out (run sched (boot t i)) →
    0 ≤ v ≤ t * i ∧ n = v * 1000 ∧
    (s ≠ RaceCondition →
     v = t * i ∧
     ∀ seconds, (0 < seconds)%Q →
       (throughput v seconds == inject_Z (t * i * 1000) / seconds)%Q ∧
       (0 < throughput v seconds)%Q).
Proof.
  intros Ht Hi Hfit sched s v th n Hin.
  destruct (row_printed trials t i sched _ _ _ _ Hin)
    as (s' & _ & Hname & -> & -> & Hv).
  apply function_name_inj in Hname. subst s'.
  assert (0 < t * i) as Hpos by nia.
  assert (wrap (t * i) = t * i) as Hw.
  { apply wrap_small. unfold is_int, INT_MIN, INT_MAX in *. lia. }
  assert (0 ≤ v ≤ t * i ∧ (s ≠ RaceCondition → v = t * i)) as [Hrange Hall].
  { destruct s; simpl in Hv;
      replace (Z.max t 0) with t in Hv by lia;
      replace (Z.max i 0) with i in Hv by lia; rewrite ?Hw in Hv;
      try (subst v; split; [lia|done]).
    destruct Hv as [(c & Hc & ->) _]. split; [|by intros []].
    rewrite wrap_small; [done|]. unfold is_int, INT_MIN, INT_MAX in *. lia. }
  split; [done|]. split.
  { apply wrap_small. unfold is_int, INT_MIN, INT_MAX in *. nia. }
  intros Hs. specialize (Hall Hs). subst v. split; [done|].
  intros seconds Hsec.
  destruct (throughput_positive (t * i) seconds) as [Heq Hgt]; try done.
  split; [|done]. unfold throughput. by rewrite Heq.
Qed.

Lemma throughput_in_range_witness :
  0 ≤ 1 ≤ 1 * 1 ∧ 1000 = 1 * 1000 ∧
  (MutexLock ≠ RaceCondition →
   1 = 1 * 1 ∧
   ∀ seconds, (0 < seconds)%Q →
     (throughput 1 seconds == inject_Z (1 * 1 * 1000) / seconds)%Q ∧
     (0 < throughput 1 seconds)%Q).
Proof.
  assert (out (run solo (boot 1 1))
          = [header;
             Row (function_name RaceCondition) 1 1 1000;
             Row (function_name MutexLock) 1 1 1000;
             Row (function_name LockGuard) 1 1 1000;
             Row (function_name Atomic) 1 1 1000;
             Row (function_name LocalCounter) 1 1 1000]) as Hout
    by (vm_compute; reflexivity).
  assert (Row (function_name MutexLock) 1 1 1000
            ∈ out (run solo (boot 1 1))) as Hin.
  { rewrite Hout. apply elem_of_cons. right. apply elem_of_cons. right.
    apply elem_of_cons. by left. }
  assert (1 ≤ 1) as Hone by lia.
  assert (1 * 1 * 1000 ≤ INT_MAX) as Hfit by (unfold INT_MAX; lia).
  exact (throughput_in_range 1 1 Hone Hone Hfit solo MutexLock 1 1 1000 Hin).
Defined.

Lemma final_zero s t i v : i ≤ 0 → final_ok s t i v → v = 0.
Proof.
  intros Hi Hv. replace (Z.max i 0) with 0 in * by lia.
  assert (∀ z, z = wrap (Z.max t 0 * 0) → z = 0) as Hz
    by (intros z ->; by rewrite Z.mul_0_r).
  destruct s; simpl in Hv; replace (Z.max i 0) with 0 in Hv by lia; auto.
  destruct Hv as [(c & Hc & ->) _].
  replace c with 0 by lia. done.
Qed.

(** X15.  With [i <= 0] (as after [-i 0], [-i -5] or [-i abc]) no
    worker enters the loop body: in every configuration the program can
    reach all counters and slots are 0 and no worker is at a read, a
    write or a fetch-and-add; a finished program has printed the header
    and five lines with the counter value 0. *)
Theorem no_rounds t i sched :
  i ≤ 0 →
  sharedCounter (mem (run sched (boot t i))) = 0 ∧
  sharedCounterAtomic (mem (run sched (boot t i))) = 0 ∧
  Forall (λ x, x = 0) (localCounterVector (mem (run sched (boot t i)))) ∧
  (∀ j th, threadVector (run sched (boot t i)) !! j = Some th →
     pc th = AtGate ∨ pc th = AtLock ∨ pc th = AtTest 0 ∨
     pc th = AtUnlock ∨ pc th = AtScopeExit ∨ pc th = Returned) ∧
  (exited (run sched (boot t i)) →
   out (run sched (boot t i)) =
     [header;
      Row "incrementiTimesRaceCondition" 0 t 0;
      Row "incrementiTimesMutexLock" 0 t 0;
      Row "incrementiTimesLockGuard" 0 t 0;
      Row "incrementiTimesAtomic" 0 t 0;
      Row "incrementiTimesLocalCounter" 0 t 0]).
Proof.
  intros Hneg.
  pose proof (reachable_inv trials t i sched) as [Ht Hi _ Htrial].
  pose proof (exited_out t i sched) as Hout.
  change (boot_with trials t i) with (boot t i) in *.
  set (c := run sched (boot t i)) in *.
  assert (exited c →
   out c =
     [header;
      Row "incrementiTimesRaceCondition" 0 t 0;
      Row "incrementiTimesMutexLock" 0 t 0;
      Row "incrementiTimesLockGuard" 0 t 0;
      Row "incrementiTimesAtomic" 0 t 0;
      Row "incrementiTimesLocalCounter" 0 t 0]) as Hlines.
  { intros Hexit.
    destruct (Hout Hexit)
      as (v1 & v2 & v3 & v4 & v5 & Ho & H1 & H2 & H3 & H4 & H5).
    apply (final_zero _ _ _ _ Hneg) in H1, H2, H3, H4, H5.
    rewrite Ho, H1, H2, H3, H4, H5. done. }
  destruct (todo c) as [|s rest].
  { destruct Htrial as (_ & -> & ->). simpl.
    repeat split; done. }
  destruct Htrial as [_ [Hths _] _ Hcnt]. rewrite Hi in *.
  pose proof (total_range _ _ _ Hths) as Htot.
  replace (Z.max i 0) with 0 in Htot by lia. rewrite Z.mul_0_r in Htot.
  assert (total i (threadVector c) = 0) as Hzero by lia.
  assert (∀ x, bounded 0 x → x = 0) as Hb.
  { intros x (n & Hn & ->). by replace n with 0 by lia. }
  assert (∀ j th, threadVector c !! j = Some th →
     pc th = AtGate ∨ pc th = AtLock ∨ pc th = AtTest 0 ∨
     pc th = AtUnlock ∨ pc th = AtScopeExit ∨ pc th = Returned) as Hpoints.
  { intros j th Hj.
    pose proof (Forall_lookup_1 _ _ _ _ Hths Hj) as [_ Hp].
    destruct (pc th) as [| |k|k|k x|k| | |]; simpl in Hp; auto 10; try lia.
    right; right; left. f_equal. lia. }
  assert (Forall (λ x, x = 0) (slot_of i <$> threadVector c)) as Hslots.
  { apply Forall_fmap, Forall_lookup_2. intros j th Hj. simpl.
    pose proof (Forall_lookup_1 _ _ _ _ Hths Hj) as [_ Hp].
    pose proof (done_by_range _ _ _ Hp). unfold slot_of.
    by replace (done_by i (pc th)) with 0 by lia. }
  destruct s; simpl in Hcnt.
  - destruct Hcnt as ([Hc _] & _ & -> & ->). rewrite Hzero in Hc.
    apply Hb in Hc. by rewrite Hc.
  - destruct Hcnt as ([Hc _] & -> & ->). by rewrite Hzero in Hc.
  - destruct Hcnt as ([Hc _] & -> & ->). by rewrite Hzero in Hc.
  - destruct Hcnt as (Hc & -> & ->). by rewrite Hzero in Hc.
  - destruct Hcnt as ([-> _] & Hc & ->). rewrite Hzero in Hc.
    split; [by destruct (reduced (at_phase c))|]. split; [done|].
    split; [|done]. apply Forall_app. split; [done|].
    destruct (at_phase c); simpl; try done. by apply Forall_singleton.
Qed.

Lemma no_rounds_witness :
  sharedCounter
    (mem (run (repeat Main 4 ++ repeat (Worker 0) 2) (boot 1 (-7)))) = 0 ∧
  sharedCounterAtomic
    (mem (run (repeat Main 4 ++ repeat (Worker 0) 2) (boot 1 (-7)))) = 0 ∧
  threadVector (run (repeat Main 4 ++ repeat (Worker 0) 2) (boot 1 (-7)))
  = [Thread RaceCondition 0 Returned].
Proof.
  assert (-7 ≤ 0) as Hneg by lia.
  pose proof (no_rounds 1 (-7) (repeat Main 4 ++ repeat (Worker 0) 2) Hneg)
    as H.
  exact (conj (proj1 H) (conj (proj1 (proj2 H)) eq_refl)).
Defined.

Lemma fold_wrap_sum l : ∀ acc,
  fold_left (λ acc localCounter, wrap (acc + localCounter)) l (wrap acc)
  = wrap (acc + foldr Z.add 0 l).
Proof.
  induction l as [|x l IH]; intros acc; simpl.
  - by rewrite Z.add_0_r.
  - rewrite wrap_add_l, IH. f_equal. lia.
Qed.

(** X16.  The summing loop of the LocalCounter trial: when [main]
    reaches it the shared counter is 0 and the vector holds one slot per
    worker, each with [max(i,0)] (as an [int]); the step stores the sum
    of the slots (as an [int]) in the shared counter, leaves the slots
    as they are and leads to the reading of the clock. *)
Theorem reduction_sums t i sched :
  at_phase (run sched (boot t i)) = Reducing →
  sharedCounter (mem (run sched (boot t i))) = 0 ∧
  localCounterVector (mem (run sched (boot t i)))
    = replicate (Z.to_nat (Z.max t 0)) (wrap (Z.max i 0)) ∧
  sharedCounter (mem (step Main (run sched (boot t i))))
    = wrap (foldr Z.add 0
              (localCounterVector (mem (run sched (boot t i))))) ∧
  localCounterVector (mem (step Main (run sched (boot t i))))
    = localCounterVector (mem (run sched (boot t i))) ∧
  at_phase (step Main (run sched (boot t i))) = StopClock.
Proof.
  intros Hph.
  pose proof (reachable_inv trials t i sched) as [Ht Hi _ Htrial].
  change (boot_with trials t i) with (boot t i) in *.
  set (c := run sched (boot t i)) in *.
  destruct (todo c) as [|s rest] eqn:Htodo;
    [destruct Htrial as (Hph' & _); congruence|].
  destruct Htrial as [Hshape _ _ Hcnt]. rewrite Hph in Hshape, Hcnt.
  destruct Hshape as (_ & Hsp & Hret & ->).
  destruct Hcnt as ([Hvec _] & Hc & _). simpl in Hvec, Hc.
  rewrite app_nil_r in Hvec. unfold spawned in Hsp. rewrite Ht, Hi in *.
  split; [done|]. split.
  - rewrite Hvec. replace (Z.to_nat (Z.max t 0)) with (length (threadVector c))
      by lia.
    clear -Hret. induction Hret as [|th ths Hpc _ IH]; [done|].
    rewrite fmap_cons, IH. unfold slot_of. by rewrite Hpc.
  - simpl. unfold main_step. rewrite Htodo, Hph. simpl.
    rewrite Hc. rewrite <- wrap_0 at 1. by rewrite fold_wrap_sum.
Qed.

Lemma reduction_sums_witness :
  sharedCounter (mem (run (take 119 solo) (boot 1 1))) = 0 ∧
  localCounterVector (mem (run (take 119 solo) (boot 1 1)))
    = replicate (Z.to_nat (Z.max 1 0)) (wrap (Z.max 1 0)) ∧
  sharedCounter (mem (step Main (run (take 119 solo) (boot 1 1))))
    = wrap (foldr Z.add 0
              (localCounterVector (mem (run (take 119 solo) (boot 1 1))))) ∧
  localCounterVector (mem (step Main (run (take 119 solo) (boot 1 1))))
    = localCounterVector (mem (run (take 119 solo) (boot 1 1))) ∧
  at_phase (step Main (run (take 119 solo) (boot 1 1))) = StopClock.
Proof.
  assert (at_phase (run (take 119 solo) (boot 1 1)) = Reducing) as Hph
    by (vm_compute; reflexivity).
  exact (reduction_sums 1 1 (take 119 solo) Hph).
Defined.

Section Fits.

Variables (t0 i0 : Z).
Hypothesis Ht : 1 ≤ t0.
Hypothesis Hi : 1 ≤ i0.
Hypothesis Hfit : t0 * i0 ≤ INT_MAX.

Lemma main_step_kept c :
  inv trials t0 i0 c → kept c → kept (main_step c).
Proof.
  intros Hinv Hkept. pose proof Hkept as [Hstate Hout]. unfold main_step.
  destruct (todo c) as [|s rest0] eqn:Htodo; [done|].
  destruct Hinv as [Hct Hci _ Htrial]. rewrite Htodo in Htrial.
  destruct Htrial as [Hshape _ _ _].
  destruct (at_phase c) as [k|k| | |k| | | |] eqn:Hph; simpl;
    try (split; simpl; [intros rest [= -> ->]; by eauto|done]).
  - destruct (k <? t c); [destruct (is_local s)|]; simpl;
      (split; simpl; [|done]); intros rest [= -> ->];
      rewrite ?total_snoc; by eauto.
  - split; simpl; [|done]. intros rest [= -> ->]. rewrite total_snoc.
    by eauto.
  - destruct (threadVector c !! k) as [th|]; simpl.
    + destruct (is_returned th); simpl; [|done].
      split; simpl; [intros rest [= -> ->]; by eauto|done].
    + split; simpl; [intros rest [= -> ->]; by eauto|done].
  - split; simpl; [intros rest [= -> ->]|done].
    destruct Hshape as (_ & _ & _ & [=]).
  - split; simpl; [intros rest [= -> ->]; by eauto|].
    intros v th n Hin. apply elem_of_app in Hin as [Hin|Hin]; [by eauto|].
    apply list_elem_of_singleton in Hin. unfold report in Hin.
    injection Hin as Hname -> _ _.
    apply (function_name_inj RaceCondition s) in Hname as <-.
    simpl. apply (Hstate rest0 eq_refl).
    destruct Hshape as (_ & Hsp & Hall). unfold spawned in Hsp.
    rewrite (total_returned _ _ Hall). rewrite Hct, Hci in *. nia.
  - split; simpl; [|done]. intros rest ->.
    unfold total. simpl. lia.
Qed.

Lemma worker_step_kept j c :
  inv trials t0 i0 c → kept c → kept (worker_step j c).
Proof.
  intros Hinv [Hstate Hout].
  destruct (worker_step_frame j c) as (_ & Hi' & Htodo' & _ & Hout').
  split; [|by rewrite Hout'].
  intros rest Htodo. rewrite Htodo' in Htodo. rewrite Hi'.
  specialize (Hstate rest Htodo).
  unfold worker_step in *.
  destruct (threadVector c !! j) as [th|] eqn:Hj; [|done].
  destruct (thread_step j (i c) th (mem c)) as [[[m p] a]|] eqn:Hstep;
    [|done].
  simpl. destruct Hinv as [Hct Hci _ Htrial]. rewrite Htodo in Htrial.
  destruct Htrial as [Hshape [Hths _] _ Hcnt].
  pose proof (Forall_lookup_1 _ _ _ _ Hths Hj) as [Hfn Hp].
  pose proof (thread_step_move _ _ _ _ _ _ _ _ Hfn Hp Hstep) as Hmove.
  rewrite (total_move _ _ _ _ _ _ _ _ _ _ _ Hmove Hj eq_refl).
  pose proof (move_counter _ _ _ _ _ _ _ _ _ Hmove eq_refl) as Hcounter.
  destruct a as [[]|]; try (destruct Hcounter as [-> _]; intros; apply Hstate; lia).
  destruct Hcounter as (k & x & Hpc & -> & ->). intros _.
  destruct Hcnt as ([_ Hstale] & _).
  destruct (Hstale _ _ _ _ Hj Hpc) as (n & Hn & ->).
  pose proof (total_below _ _ _ _ _ Hths Hj) as Hbelow.
  rewrite Hpc in Hbelow, Hp. simpl in Hbelow, Hp.
  pose proof (shape_threads _ _ _ _ _ Hshape) as Hlen.
  rewrite Hct, Hci in *.
  assert (Z.of_nat (length (threadVector c)) * Z.max i0 0 ≤ t0 * i0)
    by nia.
  assert (INT_MIN ≤ 0) by (unfold INT_MIN; lia).
  rewrite (wrap_small n) by (unfold is_int; lia).
  rewrite wrap_small by (unfold is_int; lia). lia.
Qed.

Lemma run_kept sched : ∀ c,
  inv trials t0 i0 c → kept c → kept (run sched c).
Proof.
  induction sched as [|a sched IH]; intros c Hinv Hc; [done|].
  simpl. apply IH; [by apply step_inv|].
  destruct a; simpl; [by apply main_step_kept|by apply worker_step_kept].
Qed.

End Fits.

(** X22.  Something is always left of a race: for [t, i >= 1] with
    [t * i * 1000] within [int], the line of the RaceCondition trial
    shows a counter value between 1 and [t * i], [counter * 1000]
    without overflow, and a throughput that is positive for positive
    seconds. *)
Theorem race_keeps_something t i :
  1 ≤ t → 1 ≤ i → t * i * 1000 ≤ INT_MAX →
  ∀ sched v th n,
    Row (function_name RaceCondition) v th n ∈ out (run sched (boot t i)) →
    1 ≤ v ≤ t * i ∧ n = v * 1000 ∧
    ∀ seconds, (0 < seconds)%Q → (0 < throughput v seconds)%Q.
Proof.
  intros Ht Hi Hfit sched v th n Hin.
  assert (t * i ≤ INT_MAX) as Hfit' by nia.
  assert (kept (run sched (boot t i))) as [_ Hout].
  { apply (run_kept t i Ht Hi Hfit'); [apply boot_inv|].
    split; [intros rest _; unfold total; simpl; lia|].
    intros v' th' n' Hin'. apply list_elem_of_singleton in Hin'. done. }
  pose proof (Hout _ _ _ Hin) as Hone.
  destruct (row_printed trials t i sched _ _ _ _ Hin)
    as (s' & _ & Hname & -> & -> & Hv).
  apply function_name_inj in Hname. subst s'. simpl in Hv.
  destruct Hv as [(c & Hc & Hvc) _].
  replace (Z.max t 0) with t in Hc by lia.
  replace (Z.max i 0) with i in Hc by lia.
  assert (INT_MIN ≤ 0) by (unfold INT_MIN; lia).
  rewrite wrap_small in Hvc by (unfold is_int; lia). subst c.
  split; [lia|].
  destruct (throughput_positive v) with (seconds := 1%Q) as [Heq _];
    [lia|nia|done|].
  split; [done|]. intros seconds Hsec.
  by destruct (throughput_positive v seconds) as [_ Hgt]; [lia|nia|done|].
Qed.

Lemma race_keeps_something_witness :
  1 ≤ 1 ≤ 1 * 1 ∧ 1000 = 1 * 1000 ∧
  ∀ seconds, (0 < seconds)%Q → (0 < throughput 1 seconds)%Q.
Proof.
  assert (out (run solo (boot 1 1))
          = [header;
             Row (function_name RaceCondition) 1 1 1000;
             Row (function_name MutexLock) 1 1 1000;
             Row (function_name LockGuard) 1 1 1000;
             Row (function_name Atomic) 1 1 1000;
             Row (function_name LocalCounter) 1 1 1000]) as Hout
    by (vm_compute; reflexivity).
  assert (Row (function_name RaceCondition) 1 1 1000
            ∈ out (run solo (boot 1 1))) as Hin.
  { rewrite Hout. apply elem_of_cons. right. apply elem_of_cons. by left. }
  assert (1 ≤ 1) as Hone by lia.
  assert (1 * 1 * 1000 ≤ INT_MAX) as Hfit by (unfold INT_MAX; lia).
  exact (race_keeps_something 1 1 Hone Hone Hfit solo 1 1 1000 Hin).
Defined.

End Lines.

Import Lines.

(** ** A run that loses increments *)

Module LockstepFacts.

(** One sweep: all workers are at the same point, and a step from there
    leads to the same point and the same memory for each of them. *)
Lemma sweep_all tt ii prog ph o th p' m m' (n : nat) :
  (∀ j mm, mm = m ∨ mm = m' →
     ∃ a, thread_step j ii th mm = Some (m', p', a)) →
  ∀ k, (k ≤ n)%nat → ∀ tr, ∃ tr',
    run (sweep k) (Config tt ii prog ph m (replicate n th) o tr)
    = Config tt ii prog ph (match k with O => m | _ => m' end)
        (replicate k (Thread (fn th) (iterator th) p')
         ++ replicate (n - k) th) o tr'.
Proof.
  intros Hstep. induction k as [|k IH]; intros Hk tr.
  { exists tr. simpl. by rewrite Nat.sub_0_r. }
  destruct (IH ltac:(lia) tr) as [tr' Hrun].
  unfold sweep in *. rewrite seq_S, fmap_app, run_app, Hrun. simpl.
  unfold worker_step. simpl.
  assert ((replicate k (Thread (fn th) (iterator th) p')
           ++ replicate (n - k) th) !! k = Some th) as Hlook.
  { rewrite lookup_app_r by (rewrite length_replicate; lia).
    rewrite length_replicate, Nat.sub_diag.
    apply lookup_replicate_2. lia. }
  rewrite Hlook.
  destruct (Hstep k (match k with O => m | _ => m' end)) as [a Ha];
    [destruct k; auto|].
  rewrite Ha. eexists. f_equal.
  replace (n - k)%nat with (S (n - S k)) by lia.
  rewrite insert_app_r_alt by (rewrite length_replicate; lia).
  rewrite length_replicate, Nat.sub_diag. simpl.
  by rewrite cons_middle, app_assoc, <- replicate_S_end.
Qed.

Lemma sweep_full tt ii prog ph o th p' m m' (n : nat) tr :
  (0 < n)%nat →
  (∀ j mm, mm = m ∨ mm = m' →
     ∃ a, thread_step j ii th mm = Some (m', p', a)) →
  ∃ tr',
    run (sweep n) (Config tt ii prog ph m (replicate n th) o tr)
    = Config tt ii prog ph m'
        (replicate n (Thread (fn th) (iterator th) p')) o tr'.
Proof.
  intros Hn Hstep.
  destruct (sweep_all tt ii prog ph o th p' m m' n Hstep n ltac:(lia) tr)
    as [tr' Hrun].
  exists tr'. rewrite Hrun, Nat.sub_diag, app_nil_r.
  by destruct n; [lia|].
Qed.


Section Race.

Variables (n rounds : nat) (rest : list strategy) (o : list line).
Hypothesis Hn : (0 < n)%nat.
Hypothesis Hfit : Z.of_nat rounds ≤ INT_MAX.

Let t : Z := Z.of_nat n.
Let i : Z := Z.of_nat rounds.

(** The workers at the same point [p], the counter at [v]. *)
Let at_point (ph : phase) (open : bool) (v : Z) (k : nat) (p : point)
    (tr : list event) : config :=
  Config t i (RaceCondition :: rest) ph (Memory open None v 0 [])
    (replicate k (Thread RaceCondition 0 p)) o tr.

Lemma spawn_loop k : ∀ j tr, (j + k ≤ n)%nat → ∃ tr',
  run (repeat Main k) (at_point (Spawning (Z.of_nat j)) false 0 j AtGate tr)
  = at_point (Spawning (Z.of_nat (j + k))) false 0 (j + k) AtGate tr'.
Proof.
  induction k as [|k IH]; intros j tr Hjk.
  { exists tr. by rewrite Nat.add_0_r. }
  destruct (IH (S j) (ESpawn RaceCondition j :: tr) ltac:(lia)) as [tr' Hrun].
  exists tr'. replace (j + S k)%nat with (S j + k)%nat by lia.
  rewrite <- Hrun. simpl. f_equal. unfold main_step, at_point. simpl.
  replace (Z.of_nat j <? t) with true by (symmetry; apply Z.ltb_lt; lia).
  simpl. rewrite length_replicate.
  replace (Z.of_nat j + 1) with (Z.of_nat (S j)) by lia.
  by rewrite <- replicate_S_end.
Qed.

Lemma open_gate tr : ∃ tr',
  run (repeat Main 3) (at_point (Spawning t) false 0 n AtGate tr)
  = at_point (Joining 0) true 0 n AtGate tr'.
Proof.
  eexists. simpl. unfold main_step at 3. unfold at_point. simpl.
  rewrite Z.ltb_irrefl. unfold main_step. simpl. done.
Qed.

Lemma pass_gate tr : ∃ tr',
  run (sweep n) (at_point (Joining 0) true 0 n AtGate tr)
  = at_point (Joining 0) true 0 n (AtTest 0) tr'.
Proof.
  apply (sweep_full t i _ _ _ (Thread RaceCondition 0 AtGate)); [done|].
  intros j mm [-> | ->]; by eexists.
Qed.

Lemma one_round (r : nat) tr : (r < rounds)%nat → ∃ tr',
  run (sweep n ++ sweep n ++ sweep n)
    (at_point (Joining 0) true (Z.of_nat r) n (AtTest (Z.of_nat r)) tr)
  = at_point (Joining 0) true (Z.of_nat (S r)) n (AtTest (Z.of_nat (S r)))
      tr'.
Proof.
  intros Hr.
  destruct (sweep_full t i (RaceCondition :: rest) (Joining 0) o
              (Thread RaceCondition 0 (AtTest (Z.of_nat r)))
              (AtLoad (Z.of_nat r))
              (Memory true None (Z.of_nat r) 0 [])
              (Memory true None (Z.of_nat r) 0 []) n tr Hn) as [tr1 H1].
  { intros j mm [-> | ->]; unfold thread_step, i; simpl;
      replace (Z.of_nat r <? Z.of_nat rounds) with true
        by (symmetry; apply Z.ltb_lt; lia); by eexists. }
  destruct (sweep_full t i (RaceCondition :: rest) (Joining 0) o
              (Thread RaceCondition 0 (AtLoad (Z.of_nat r)))
              (AtStore (Z.of_nat r) (Z.of_nat r))
              (Memory true None (Z.of_nat r) 0 [])
              (Memory true None (Z.of_nat r) 0 []) n tr1 Hn) as [tr2 H2].
  { intros j mm [-> | ->]; unfold thread_step; simpl; by eexists. }
  destruct (sweep_full t i (RaceCondition :: rest) (Joining 0) o
              (Thread RaceCondition 0 (AtStore (Z.of_nat r) (Z.of_nat r)))
              (AtTest (Z.of_nat (S r)))
              (Memory true None (Z.of_nat r) 0 [])
              (Memory true None (Z.of_nat (S r)) 0 []) n tr2 Hn) as [tr3 H3].
  { assert (wrap (Z.of_nat r + 1) = Z.of_nat (S r)) as Hw.
    { rewrite wrap_small; [lia|]. unfold is_int, INT_MIN, INT_MAX in *. lia. }
    intros j mm [-> | ->]; unfold thread_step; simpl;
      unfold set_sharedCounter; simpl; rewrite Hw;
      replace (Z.of_nat r + 1) with (Z.of_nat (S r)) by lia;
      by eexists. }
  exists tr3. unfold at_point. rewrite !run_app.
  simpl in H1, H2, H3. by rewrite H1, H2, H3.
Qed.

Lemma all_rounds k : ∀ r tr, (r + k ≤ rounds)%nat → ∃ tr',
  run (concat (repeat (sweep n ++ sweep n ++ sweep n) k))
    (at_point (Joining 0) true (Z.of_nat r) n (AtTest (Z.of_nat r)) tr)
  = at_point (Joining 0) true (Z.of_nat (r + k)) n
      (AtTest (Z.of_nat (r + k))) tr'.
Proof.
  induction k as [|k IH]; intros r tr Hrk.
  { exists tr. by rewrite Nat.add_0_r. }
  destruct (one_round r tr ltac:(lia)) as [tr1 H1].
  destruct (IH (S r) tr1 ltac:(lia)) as [tr2 H2].
  exists tr2. replace (r + S k)%nat with (S r + k)%nat by lia.
  simpl repeat. simpl concat. rewrite run_app, H1. apply H2.
Qed.

Lemma leave_loop tr : ∃ tr',
  run (sweep n) (at_point (Joining 0) true i n (AtTest i) tr)
  = at_point (Joining 0) true i n Returned tr'.
Proof.
  apply (sweep_full t i _ _ _ (Thread RaceCondition 0 (AtTest i))); [done|].
  intros j mm [-> | ->]; unfold thread_step; simpl;
    rewrite Z.ltb_irrefl; by eexists.
Qed.

Lemma join_loop k : ∀ j tr, (j + k ≤ n)%nat → ∃ tr',
  run (repeat Main k) (at_point (Joining j) true i n Returned tr)
  = at_point (Joining (j + k)) true i n Returned tr'.
Proof.
  induction k as [|k IH]; intros j tr Hjk.
  { exists tr. by rewrite Nat.add_0_r. }
  destruct (IH (S j) (EJoin RaceCondition j :: tr) ltac:(lia)) as [tr' Hrun].
  exists tr'. replace (j + S k)%nat with (S j + k)%nat by lia.
  rewrite <- Hrun. simpl. f_equal. unfold main_step, at_point. simpl.
  rewrite lookup_replicate_2 by lia. done.
Qed.

Lemma print_line tr : ∃ tr',
  run (repeat Main 3) (at_point (Joining n) true i n Returned tr)
  = Config t i (RaceCondition :: rest) Resetting (Memory true None i 0 [])
      (replicate n (Thread RaceCondition 0 Returned))
      (o ++ [Row "incrementiTimesRaceCondition" i t (times_1000 i)]) tr'.
Proof.
  assert (replicate n (Thread RaceCondition 0 Returned) !! n = None)
    as Hnone by (apply lookup_replicate_None; lia).
  eexists. simpl. unfold main_step at 3. unfold at_point. simpl.
  rewrite Hnone. unfold main_step. simpl. done.
Qed.

Lemma trial_in_lockstep tr : ∃ tr',
  run (race_in_lockstep n rounds)
    (Config t i (RaceCondition :: rest) (Spawning 0) fresh [] o tr)
  = Config t i (RaceCondition :: rest) Resetting (Memory true None i 0 [])
      (replicate n (Thread RaceCondition 0 Returned))
      (o ++ [Row "incrementiTimesRaceCondition" i t (times_1000 i)]) tr'.
Proof.
  destruct (spawn_loop n 0 tr ltac:(lia)) as [tr1 H1].
  destruct (open_gate tr1) as [tr2 H2].
  destruct (pass_gate tr2) as [tr3 H3].
  destruct (all_rounds rounds 0 tr3 ltac:(lia)) as [tr4 H4].
  destruct (leave_loop tr4) as [tr5 H5].
  destruct (join_loop n 0 tr5 ltac:(lia)) as [tr6 H6].
  destruct (print_line tr6) as [tr7 H7].
  exists tr7. unfold race_in_lockstep, lockstep.
  rewrite !repeat_app, !run_app.
  change (Config t i (RaceCondition :: rest) (Spawning 0) fresh [] o tr)
    with (at_point (Spawning (Z.of_nat 0)) false 0 0 AtGate tr).
  rewrite H1. simpl Nat.add. fold t. rewrite H2, H3.
  change 0 with (Z.of_nat 0) at 1 2. rewrite H4. simpl Nat.add. fold i.
  rewrite H5. change (Joining 0) with (Joining 0%nat).
  rewrite H6. simpl Nat.add. by rewrite H7.
Qed.

End Race.

(** X17.  The race is real.  For [t >= 1] workers and
    [0 <= i <= INT_MAX] there is a run in which the RaceCondition trial
    prints [i]: the workers go through the loop side by side, each reads
    the counter before any of them writes, and of [t * i] increments
    only [i] are left.  The run goes on to the end of the program. *)
Theorem race_can_lose t i :
  1 ≤ t → 0 ≤ i ≤ INT_MAX →
  out (run (race_in_lockstep (Z.to_nat t) (Z.to_nat i)) (boot t i))
  = [header; Row "incrementiTimesRaceCondition" i t (times_1000 i)] ∧
  ∃ more,
    exited (run (race_in_lockstep (Z.to_nat t) (Z.to_nat i) ++ more)
              (boot t i)) ∧
    Row "incrementiTimesRaceCondition" i t (times_1000 i)
      ∈ out (run (race_in_lockstep (Z.to_nat t) (Z.to_nat i) ++ more)
               (boot t i)).
Proof.
  intros Ht Hi.
  destruct (trial_in_lockstep (Z.to_nat t) (Z.to_nat i)
              [MutexLock; LockGuard; Atomic; LocalCounter] [header]
              ltac:(lia) ltac:(lia) []) as [tr Hrun].
  rewrite !Z2Nat.id in Hrun by lia.
  change (Config t i _ (Spawning 0) fresh [] [header] [])
    with (boot t i) in Hrun.
  assert (out (run (race_in_lockstep (Z.to_nat t) (Z.to_nat i)) (boot t i))
          = [header; Row "incrementiTimesRaceCondition" i t (times_1000 i)])
    as Hout by (by rewrite Hrun).
  split; [done|].
  destruct (can_exit trials t i (race_in_lockstep (Z.to_nat t) (Z.to_nat i)))
    as [more Hmore].
  exists more. split; [done|].
  pose proof (run_out more
                (run (race_in_lockstep (Z.to_nat t) (Z.to_nat i)) (boot t i)))
    as [later Hlater].
  rewrite run_app, Hlater, Hout. apply elem_of_app. left.
  apply elem_of_cons. right. apply elem_of_cons. by left.
Qed.

Lemma race_can_lose_witness :
  out (run (race_in_lockstep (Z.to_nat 2) (Z.to_nat 3)) (boot 2 3))
  = [header; Row "incrementiTimesRaceCondition" 3 2 (times_1000 3)] ∧
  ∃ more,
    exited (run (race_in_lockstep (Z.to_nat 2) (Z.to_nat 3) ++ more)
              (boot 2 3)) ∧
    Row "incrementiTimesRaceCondition" 3 2 (times_1000 3)
      ∈ out (run (race_in_lockstep (Z.to_nat 2) (Z.to_nat 3) ++ more)
               (boot 2 3)).
Proof.
  assert (1 ≤ 2) as Ht by lia.
  assert (0 ≤ 3 ≤ INT_MAX) as Hi by (unfold INT_MAX; lia).
  exact (race_can_lose 2 3 Ht Hi).
Defined.

End LockstepFacts.

Import LockstepFacts.

(** ** One trial at a time *)

Module AloneFacts.

Lemma worker_step_same s j c c' :
  same_trial s c c' → same_trial s (worker_step j c) (worker_step j c').
Proof.
  intros (Hs & Hs' & Ht & Hi & Hph & Hm & Hths).
  unfold worker_step. rewrite Hths, Hi, Hm.
  destruct (threadVector c !! j) as [th|];
    [|by repeat split].
  destruct (thread_step j (i c) th (mem c)) as [[[m p] a]|];
    [|by repeat split].
  by repeat split.
Qed.

Lemma main_step_same s c c' :
  same_trial s c c' → at_phase c ≠ Resetting →
  same_trial s (main_step c) (main_step c').
Proof.
  intros ([rest Hs] & [rest' Hs'] & Ht & Hi & Hph & Hm & Hths) Hnot.
  unfold main_step. rewrite Hs, Hs', Hph, Hths, Hm, Ht, Hi.
  destruct (at_phase c) as [k|k| | |k| | | |] eqn:Hc; simpl; try done;
    try (repeat split; simpl; eauto; done).
  - destruct (k <? t c); [destruct (is_local s)|]; simpl;
      repeat split; simpl; eauto.
  - destruct (threadVector c !! k) as [th|]; simpl.
    + destruct (is_returned th); simpl; repeat split; simpl; eauto;
        congruence.
    + repeat split; simpl; eauto.
Qed.

(** X23.  Every trial runs as if it were the only one: whatever phase,
    memory and threads the whole program can reach inside the trial of
    strategy [s], a program that runs that trial alone can reach as
    well.  What the trials before it did has left no mark. *)
Theorem trials_run_alone t i sched s rest :
  todo (run sched (boot t i)) = s :: rest →
  ∃ alone,
    todo (run alone (boot_with [s] t i)) = [s] ∧
    at_phase (run alone (boot_with [s] t i))
    = at_phase (run sched (boot t i)) ∧
    mem (run alone (boot_with [s] t i)) = mem (run sched (boot t i)) ∧
    threadVector (run alone (boot_with [s] t i))
    = threadVector (run sched (boot t i)).
Proof.
  enough (∀ s rest, todo (run sched (boot t i)) = s :: rest →
            ∃ alone, same_trial s (run sched (boot t i))
                       (run alone (boot_with [s] t i)) ∧
                     todo (run alone (boot_with [s] t i)) = [s]) as Hsame.
  { intros Htodo. destruct (Hsame s rest Htodo)
      as (alone & (_ & _ & _ & _ & ? & ? & ?) & ?). by exists alone. }
  clear s rest.
  induction sched as [|a sched IH] using rev_ind; intros s rest Htodo.
  { exists []. simpl in *. injection Htodo as <- <-.
    split; [|done]. repeat split; simpl; eauto. }
  rewrite run_app in *. simpl in *.
  pose proof (reachable_inv trials t i sched) as Hinv.
  change (boot_with trials t i) with (boot t i) in *.
  set (c := run sched (boot t i)) in *.
  destruct a as [|j]; simpl in *.
  - destruct (todo c) as [|s0 rest0] eqn:Htodo0.
    { unfold main_step in Htodo. rewrite Htodo0 in Htodo. congruence. }
    destruct (decide (at_phase c = Resetting)) as [Hreset|Hnot].
    + exists []. simpl.
      pose proof (main_step_inv _ _ _ _ Hinv) as [Ht Hi _ Htrial].
      rewrite Htodo in Htrial.
      assert (at_phase (main_step c) = Spawning 0) as Hph
        by (unfold main_step; by rewrite Htodo0, Hreset).
      destruct (trial_start_fresh _ _ Htrial Hph) as [Hm Hths].
      split; [|done]. repeat split; simpl; eauto.
    + destruct (IH s0 rest0 eq_refl) as (alone & Hsame & Halone).
      assert (todo (main_step c) = todo c) as Hkeep.
      { unfold main_step. rewrite Htodo0.
        destruct (at_phase c) as [k|k| | |k| | | |]; simpl; try done.
        - by destruct (k <? Machine.t c); [destruct (is_local s0)|].
        - destruct (threadVector c !! k) as [th|]; simpl; [|done].
          by destruct (is_returned th). }
      rewrite Hkeep, Htodo0 in Htodo. injection Htodo as <- <-.
      exists (alone ++ [Main]). rewrite run_app. simpl.
      pose proof (main_step_same _ _ _ Hsame Hnot) as Hnext.
      split; [done|].
      destruct Hsame as (_ & _ & _ & _ & Hph & _).
      unfold main_step. rewrite Halone.
      destruct (at_phase (run alone (boot_with [s0] t i)))
        as [k|k| | |k| | | |]; simpl; try done.
      * by destruct (k <? _); [destruct (is_local s0)|].
      * destruct (_ !! k) as [th|]; simpl; [|done].
        by destruct (is_returned th).
  - destruct (worker_step_frame j c) as (_ & _ & Hkeep & _).
    rewrite Hkeep in Htodo.
    destruct (IH s rest Htodo) as (alone & Hsame & Halone).
    exists (alone ++ [Worker j]). rewrite run_app. simpl.
    split; [by apply worker_step_same|].
    destruct (worker_step_frame j (run alone (boot_with [s] t i)))
      as (_ & _ & -> & _). done.
Qed.

Lemma trials_run_alone_witness :
  ∃ alone,
    todo (run alone (boot_with [MutexLock] 1 1)) = [MutexLock] ∧
    at_phase (run alone (boot_with [MutexLock] 1 1))
    = at_phase (run (take 37 solo) (boot 1 1)) ∧
    mem (run alone (boot_with [MutexLock] 1 1))
    = mem (run (take 37 solo) (boot 1 1)) ∧
    threadVector (run alone (boot_with [MutexLock] 1 1))
    = threadVector (run (take 37 solo) (boot 1 1)).
Proof.
  assert (todo (run (take 37 solo) (boot 1 1))
          = MutexLock :: [LockGuard; Atomic; LocalCounter]) as Htodo
    by (vm_compute; reflexivity).
  exact (trials_run_alone 1 1 (take 37 solo) MutexLock _ Htodo).
Defined.

End AloneFacts.

Module Whole.

(** X24. From the command line to the output: when the arguments parse to
    [t >= 1] and [i >= 0] with [t * i * 1000 <= INT_MAX], the program can
    run to its end, and every complete run prints exactly the header and
    five lines, in the order of the trials: the four synchronized
    strategies with final value [t * i] and [counter*1000 = t * i * 1000],
    the racy one with some [v] between [min 1 i] and [t * i] and
    [counter*1000 = v * 1000]; the thread column is [t] throughout. *)
Theorem command_line_to_output argv t i :
  parse_args argv = (t, i) →
  1 ≤ t → 0 ≤ i → t * i * 1000 ≤ INT_MAX →
  (∃ sched, exited (run sched (main argv))) ∧
  ∀ sched, exited (run sched (main argv)) →
    ∃ v, Z.min 1 i ≤ v ≤ t * i ∧
      out (run sched (main argv))
      = [header;
         Row "incrementiTimesRaceCondition" v t (v * 1000);
         Row "incrementiTimesMutexLock" (t * i) t (t * i * 1000);
         Row "incrementiTimesLockGuard" (t * i) t (t * i * 1000);
         Row "incrementiTimesAtomic" (t * i) t (t * i * 1000);
         Row "incrementiTimesLocalCounter" (t * i) t (t * i * 1000)].
Proof.
  intros Hparse Ht Hi Hfit. rewrite (main_boot _ _ _ Hparse).
  split; [apply can_finish|]. intros sched Hexit.
  destruct (exited_out t i sched Hexit)
    as (v1 & v2 & v3 & v4 & v5 & Hout & H1 & H2 & H3 & H4 & H5).
  simpl in H1, H2, H3, H4, H5.
  replace (Z.max t 0) with t in * by lia.
  replace (Z.max i 0) with i in * by lia.
  assert (0 ≤ t * i) as Hpos by nia.
  assert (INT_MIN ≤ 0) as Hmin by (unfold INT_MIN; lia).
  assert (∀ v, 0 ≤ v ≤ t * i → wrap v = v ∧ times_1000 v = v * 1000)
    as Hsmall.
  { intros v Hv. split; apply wrap_small; unfold is_int; nia. }
  destruct (Hsmall (t * i)) as [Hw Hk]; [lia|].
  rewrite Hw in *. subst v2 v3 v4 v5.
  destruct H1 as [(c & Hc & ->) _].
  destruct (Hsmall c Hc) as [Hwc Hkc]. rewrite Hwc in *.
  exists c. rewrite Hout, Hk, Hkc. split; [|done].
  split; [|lia].
  destruct (decide (1 ≤ i)) as [Hone|Hzero]; [|lia].
  assert (t * i ≤ INT_MAX) as Hfit' by nia.
  assert (kept (run sched (boot t i))) as [_ Hkept].
  { apply (run_kept t i Ht Hone Hfit'); [apply boot_inv|].
    split; [intros rest _; unfold total; simpl; lia|].
    intros v' th' n' Hin'. apply list_elem_of_singleton in Hin'. done. }
  assert (1 ≤ c); [|lia].
  apply (Hkept c t (times_1000 c)). rewrite Hout.
  apply elem_of_cons. right. apply elem_of_cons. by left.
Qed.

Lemma command_line_to_output_witness :
  (∃ sched, exited (run sched (main ["parcount"]))) ∧
  ∀ sched, exited (run sched (main ["parcount"])) →
    ∃ v, Z.min 1 10000 ≤ v ≤ 4 * 10000 ∧
      out (run sched (main ["parcount"]))
      = [header;
         Row "incrementiTimesRaceCondition" v 4 (v * 1000);
         Row "incrementiTimesMutexLock" (4 * 10000) 4 (4 * 10000 * 1000);
         Row "incrementiTimesLockGuard" (4 * 10000) 4 (4 * 10000 * 1000);
         Row "incrementiTimesAtomic" (4 * 10000) 4 (4 * 10000 * 1000);
         Row "incrementiTimesLocalCounter" (4 * 10000) 4
           (4 * 10000 * 1000)].
Proof.
  assert (parse_args ["parcount"] = (4, 10000)) as Hparse by reflexivity.
  assert (1 ≤ 4) as Ht by lia.
  assert (0 ≤ 10000) as Hi by lia.
  assert (4 * 10000 * 1000 ≤ INT_MAX) as Hfit by (unfold INT_MAX; lia).
  exact (command_line_to_output ["parcount"] 4 10000 Hparse Ht Hi Hfit).
Defined.

End Whole.

(** ** MutexLock and LockGuard: the critical section *)

Module CriticalSection.

Ltac worker_steps :=
  repeat (cbn [run_worker]; unfold thread_step;
          cbn [fn pc iterator
               incrementiTimesMutexLock incrementiTimesLockGuard]).

Lemma run_worker_returned steps me i s it m :
  run_worker steps me i (Thread s it Returned) m
  = (m, Thread s it Returned, []).
Proof. destruct steps; [done|]. by destruct s. Qed.

(** The loop and the release, from the test of the loop on. *)
Lemma run_worker_loop s me it i (Hs : uses_mutex s = true) : ∀ n k m extra,
  0 ≤ k → Z.of_nat n = Z.max i k - k →
  is_int (sharedCounter m) →
  run_worker (3 * n + 2 + extra) me i (Thread s it (AtTest k)) m
  = (Memory (start m) None (wrap (sharedCounter m + Z.of_nat n))
       (sharedCounterAtomic m) (localCounterVector m),
     Thread s it Returned,
     repeat Increment n ++ [Release]).
Proof.
  induction n as [|n IH]; intros k m extra Hk Hn Hint.
  - assert ((k <? i) = false) as Hlt by (apply Z.ltb_ge; lia).
    rewrite Z.add_0_r, wrap_small by done.
    destruct s; try done; simpl; unfold thread_step; simpl; rewrite Hlt;
      simpl; by rewrite run_worker_returned.
  - assert ((k <? i) = true) as Hlt by (apply Z.ltb_lt; lia).
    replace (3 * S n + 2 + extra)%nat
      with (S (S (S (3 * n + 2 + extra)))) by lia.
    assert (run_worker (S (S (S (3 * n + 2 + extra)))) me i
              (Thread s it (AtTest k)) m
            = let '(m'', th', did) :=
                run_worker (3 * n + 2 + extra) me i
                  (Thread s it (AtTest (k + 1)))
                  (Memory (start m) (sharedCounter_mtx m)
                     (wrap (sharedCounter m + 1))
                     (sharedCounterAtomic m) (localCounterVector m)) in
              (m'', th', Increment :: did)) as ->.
    { destruct s; try done; worker_steps; rewrite Hlt; worker_steps;
        unfold set_sharedCounter;
        by destruct (run_worker _ _ _ _ _) as [[??]?]. }
    apply Z.ltb_lt in Hlt.
    rewrite (IH (k + 1)); [|lia|lia|apply wrap_range].
    cbn [start sharedCounter sharedCounterAtomic localCounterVector].
    rewrite wrap_add_l.
    by replace (sharedCounter m + Z.of_nat (S n))
      with (sharedCounter m + 1 + Z.of_nat n) by lia.
Qed.

(** The whole function, alone. *)
Lemma run_worker_alone s me it i m steps :
  uses_mutex s = true →
  is_int (sharedCounter m) →
  (3 * Z.to_nat (Z.max i 0) + 4 ≤ steps)%nat →
  run_worker steps me i (Thread s it AtGate) m
  = if start m then
      match sharedCounter_mtx m with
      | None =>
          (Memory true None (wrap (sharedCounter m + Z.max i 0))
             (sharedCounterAtomic m) (localCounterVector m),
           Thread s it Returned,
           Acquire :: repeat Increment (Z.to_nat (Z.max i 0)) ++ [Release])
      | Some _ => (m, Thread s it AtLock, [])
      end
    else (m, Thread s it AtGate, []).
Proof.
  intros Hs Hint Hsteps.
  destruct (start m) eqn:Hstart.
  - destruct steps as [|[|steps]]; [lia|lia|].
    destruct (sharedCounter_mtx m) as [holder|] eqn:Hmtx.
    + destruct s; try done; worker_steps; rewrite Hstart; worker_steps;
        by rewrite Hmtx.
    + set (n := Z.to_nat (Z.max i 0)) in *.
      assert (run_worker (S (S steps)) me i (Thread s it AtGate) m
              = let '(m'', th', did) :=
                  run_worker steps me i (Thread s it (AtTest 0))
                    (Memory (start m) (Some me) (sharedCounter m)
                       (sharedCounterAtomic m) (localCounterVector m)) in
                (m'', th', Acquire :: did)) as ->.
      { destruct s; try done; worker_steps; rewrite Hstart; worker_steps;
          rewrite Hmtx; unfold set_mtx; rewrite ?Hstart;
          by destruct (run_worker _ _ _ _ _) as [[??]?]. }
      replace steps with (3 * n + 2 + (steps - (3 * n + 2)))%nat by lia.
      rewrite (run_worker_loop s me it i Hs n 0); [|lia|lia|done].
      cbn [start sharedCounter sharedCounterAtomic localCounterVector].
      rewrite ?Hstart.
      by replace (Z.of_nat n) with (Z.max i 0) by lia.
  - clear Hsteps. induction steps as [|steps IH]; [done|].
    destruct s; try done; worker_steps; rewrite Hstart; by rewrite IH.
Qed.

(** C5.  The two functions take the same steps, up to the name of the
    point where the mutex is given back; a trial of LockGuard is, step
    for step and under every schedule, the trial of MutexLock with the
    names exchanged, so with the same memory throughout; in every run of
    the program a worker of either trial takes the mutex when it is free
    and only once, increments only while holding it, and gives it back
    after exactly [i] increments (none if [i] is negative).

    Either function, run on its own from its first line, does the same
    to the memory: with the flag down it waits at the gate and with the
    mutex taken it waits for it, changing nothing; with the flag up and
    the mutex free it takes the mutex, adds 1 to the shared counter [i]
    times, so that the counter ends [i] higher (as an [int]), and
    returns with the mutex free again and nothing else changed.

    Inside the program, in the trial of either function the shared
    counter is at every moment the number of increments done in the
    trial so far (as an [int]), and the two lines of the output show
    the same final value, that of [t * i]. *)
Theorem lock_guard_is_mutex_lock :
  (∀ me i m p,
     incrementiTimesLockGuard me i m (swap_point p)
     = swap_outcome (incrementiTimesMutexLock me i m p)) ∧
  (∀ t i sched,
     run sched (boot_with [LockGuard] t i)
     = swap_config (run sched (boot_with [MutexLock] t i)) ∧
     mem (run sched (boot_with [LockGuard] t i))
     = mem (run sched (boot_with [MutexLock] t i))) ∧
  (∀ t i sched later s j a earlier,
     uses_mutex s = true →
     trace (run sched (boot t i)) = later ++ EDid s j a :: earlier →
     match a with
     | Acquire => holder earlier = None ∧ acquired s j earlier = false
     | Increment => holder earlier = Some j
     | Release =>
         holder earlier = Some j ∧ held_increments earlier = Z.max i 0
     end) ∧
  (∀ s me it i m steps,
     uses_mutex s = true →
     is_int (sharedCounter m) →
     (3 * Z.to_nat (Z.max i 0) + 4 ≤ steps)%nat →
     run_worker steps me i (Thread s it AtGate) m
     = if start m then
         match sharedCounter_mtx m with
         | None =>
             (Memory true None (wrap (sharedCounter m + Z.max i 0))
                (sharedCounterAtomic m) (localCounterVector m),
              Thread s it Returned,
              Acquire :: repeat Increment (Z.to_nat (Z.max i 0))
                ++ [Release])
         | Some _ => (m, Thread s it AtLock, [])
         end
       else (m, Thread s it AtGate, [])) ∧
  (∀ t i sched s rest,
     uses_mutex s = true →
     todo (run sched (boot t i)) = s :: rest →
     sharedCounter (mem (run sched (boot t i)))
     = wrap (Z.of_nat
               (count (is_increment_of s) (trace (run sched (boot t i)))))) ∧
  (∀ t i sched v v' th th' n n',
     Row (function_name MutexLock) v th n ∈ out (run sched (boot t i)) →
     Row (function_name LockGuard) v' th' n' ∈ out (run sched (boot t i)) →
     v = wrap (Z.max t 0 * Z.max i 0) ∧ v' = v).
Proof.
  split; [|split; [|split; [|split; [|split]]]].
  - apply lock_guard_as_mutex_lock.
  - intros t i sched.
    assert (run sched (boot_with [LockGuard] t i)
            = swap_config (run sched (boot_with [MutexLock] t i))) as Heq.
    { rewrite <- run_swap. done. }
    split; [done|]. by rewrite Heq.
  - intros t i sched later s j a earlier Hmutex Htr.
    apply OrderFacts.event_in_order in Htr as [Hok _].
    destruct a; simpl in Hok.
    + by destruct Hok as (_ & ? & ?).
    + destruct Hok as (_ & _ & Hholder). auto.
    + done.
  - apply run_worker_alone.
  - intros t i sched s rest Hmutex Htodo.
    pose proof (reachable_tallied t i sched _ _ Htodo) as Hsum.
    pose proof (reachable_inv trials t i sched) as [_ Hi _ Htrial].
    change (boot_with trials t i) with (boot t i) in *.
    rewrite Htodo in Htrial. destruct Htrial as [_ _ _ Hcnt].
    rewrite Hsum. destruct s; try done; simpl in Hcnt.
    + by destruct Hcnt as ([Hc _] & _).
    + by destruct Hcnt as ([Hc _] & _).
  - intros t i sched v v' th th' n n' Hin Hin'.
    apply row_printed in Hin as (s & _ & Hname & _ & _ & Hfinal).
    apply row_printed in Hin' as (s' & _ & Hname' & _ & _ & Hfinal').
    apply function_name_inj in Hname as <-.
    apply function_name_inj in Hname' as <-.
    simpl in Hfinal, Hfinal'. by subst.
Qed.

Lemma lock_guard_is_mutex_lock_witness :
  (holder (drop 33 (trace (run solo (boot 1 1)))) = Some 0%nat ∧
   held_increments (drop 33 (trace (run solo (boot 1 1)))) = Z.max 1 0) ∧
  run_worker 13 2 3 (Thread LockGuard 0 AtGate) (Memory true None 5 0 [])
  = (Memory true None 8 0 [], Thread LockGuard 0 Returned,
     [Acquire; Increment; Increment; Increment; Release]) ∧
  run_worker 13 2 3 (Thread MutexLock 0 AtGate) (Memory true None 5 0 [])
  = (Memory true None 8 0 [], Thread MutexLock 0 Returned,
     [Acquire; Increment; Increment; Increment; Release]) ∧
  sharedCounter (mem (run (take 37 solo) (boot 1 1)))
  = wrap (Z.of_nat
            (count (is_increment_of MutexLock)
               (trace (run (take 37 solo) (boot 1 1))))).
Proof.
  assert (trace (run solo (boot 1 1))
          = take 32 (trace (run solo (boot 1 1)))
              ++ EDid MutexLock 0 Release
                   :: drop 33 (trace (run solo (boot 1 1)))) as Htr
    by (vm_compute; reflexivity).
  assert (todo (run (take 37 solo) (boot 1 1))
          = MutexLock :: [LockGuard; Atomic; LocalCounter]) as Htodo
    by (vm_compute; reflexivity).
  assert (is_int 5) as Hint by (unfold is_int, INT_MIN, INT_MAX; lia).
  assert (3 * Z.to_nat (Z.max 3 0) + 4 ≤ 13)%nat as Hsteps
    by (vm_compute; lia).
  destruct lock_guard_is_mutex_lock as (_ & _ & Hcs & Halone & Hcount & _).
  split; [|split; [|split]].
  - exact (Hcs 1 1 solo _ MutexLock 0%nat Release _ eq_refl Htr).
  - exact (Halone LockGuard 2%nat 0 3 (Memory true None 5 0 []) 13%nat
             eq_refl Hint Hsteps).
  - exact (Halone MutexLock 2%nat 0 3 (Memory true None 5 0 []) 13%nat
             eq_refl Hint Hsteps).
  - exact (Hcount 1 1 (take 37 solo) MutexLock _ eq_refl Htodo).
Defined.

End CriticalSection.
